(** * gist-auto-update: the Todoist extraction pipeline of [wt-function/todoist.js]

    A shallow embedding of the transformation and aggregation code of
    [wt-function/todoist.js] (content parsing, date formatting, the item
    filter, the section map, archive pagination and the archive fan-out),
    followed by the properties proved about it.

    JavaScript values are modelled as follows.
    - A string is the list of its UTF-16 code units ([jsstring]).
    - [undefined] is [None] where the source can produce it.
    - Identifiers ([id], [parent_id], [section_id], project ids) are
      integers in the range where a JavaScript number prints as its decimal
      expansion; they are carried as [Z].
    - An object used as a dictionary is an association list in property
      creation order; [Obj.keys] computes the enumeration order.
    - An exception is the [Throw] case of [Exc]; a promise is the outcome it
      eventually settles to. *)

From Stdlib Require Import List ZArith NArith Bool Arith Lia.
From Stdlib Require Import Ascii String DecimalString DecimalZ DecimalPos.
Import ListNotations.


(** ** Strings *)

Module JS.

(** A UTF-16 code unit. *)
Abbreviation char := N (only parsing).
Definition jsstring := list char.

(** A source literal made of ASCII characters. *)
Definition lit (s : string) : jsstring :=
  map N_of_ascii (list_ascii_of_string s).

Definition char_eqb (a b : char) : bool := N.eqb a b.

Fixpoint str_eqb (a b : jsstring) : bool :=
  match a, b with
  | [], [] => true
  | x :: a', y :: b' => char_eqb x y && str_eqb a' b'
  | _, _ => false
  end.

(** [\d] *)
Definition is_digit (c : char) : bool := (48 <=? c)%N && (c <=? 57)%N.

(** [\w], the word characters of [\b] and [\B]: [A-Za-z0-9_]. *)
Definition is_word (c : char) : bool :=
  ((65 <=? c)%N && (c <=? 90)%N) || ((97 <=? c)%N && (c <=? 122)%N)
  || is_digit c || (c =? 95)%N.

(** LineTerminator: LF, CR, LS, PS. *)
Definition is_line_terminator (c : char) : bool :=
  (c =? 10)%N || (c =? 13)%N || (c =? 8232)%N || (c =? 8233)%N.

(** [\s], also the characters [String.prototype.trim] removes: WhiteSpace
    and LineTerminator. *)
Definition is_space (c : char) : bool :=
  ((9 <=? c)%N && (c <=? 13)%N) || (c =? 32)%N || (c =? 160)%N
  || (c =? 5760)%N || ((8192 <=? c)%N && (c <=? 8202)%N)
  || (c =? 8232)%N || (c =? 8233)%N || (c =? 8239)%N || (c =? 8287)%N
  || (c =? 12288)%N || (c =? 65279)%N.

Fixpoint trimStart (s : jsstring) : jsstring :=
  match s with
  | c :: s' => if is_space c then trimStart s' else s
  | [] => []
  end.

(** [s.trim()] *)
Definition trim (s : jsstring) : jsstring :=
  rev (trimStart (rev (trimStart s))).

(** [s.toLowerCase()] on the Basic Latin letters; other code units are kept
    (the Unicode case mapping outside ASCII is not modelled). *)
Definition lower_char (c : char) : char :=
  if (65 <=? c)%N && (c <=? 90)%N then (c + 32)%N else c.

Definition toLowerCase (s : jsstring) : jsstring := map lower_char s.

(** [n.toString()] for an integer-valued number. *)
Definition Number_toString (z : Z) : jsstring :=
  lit (NilZero.string_of_int (Z.to_int z)).

(** The inverse of [lit], defined on strings of code units below 256. *)
Fixpoint unlit (s : jsstring) : option string :=
  match s with
  | [] => Some EmptyString
  | c :: s' =>
      if (c <? 256)%N then option_map (String (ascii_of_N c)) (unlit s')
      else None
  end.

(** A number: an integer or NaN. *)
Inductive number := Int (z : Z) | NaN.

(** [Number(s)] on decimal integer literals (an optional minus sign and
    digits); every other string is taken to NaN, which is exact for the
    property keys [Number_toString] creates and for ["null"], and not for
    the other numeric literal forms (hexadecimal, exponents, fractions,
    surrounding white space). *)
Definition Number (s : jsstring) : number :=
  match unlit s with
  | Some a =>
      match NilZero.int_of_string a with
      | Some d => Int (Z.of_int d)
      | None => NaN
      end
  | None => NaN
  end.

Definition number_toString (n : number) : jsstring :=
  match n with
  | Int z => Number_toString z
  | NaN => lit "NaN"
  end.

End JS.
Export JS.

(** ** Regular expressions

    The fragment of the RegExp language the source uses: one-character
    atoms, greedy quantifiers over an atom, concatenation, capturing and
    non-capturing groups, [^], [$], [\b] and [\B].  Matching is the
    backtracking search of the language definition, written as the list of
    all successful end states in the order backtracking tries them: the
    head of the list is the match the engine reports. *)

Module RegExp.

(** The members of a character class. *)
Inductive cclass :=
| CLit (c : char)     (* a literal character *)
| CDigit              (* \d *)
| CSpace.             (* \s *)

(** One-character atoms. *)
Inductive atom :=
| AIs (c : cclass)            (* c, \d, \s *)
| ANoneOf (l : list cclass)   (* [^...] *)
| ADot.                       (* . *)

Inductive regex :=
| REmpty
| RAtom (a : atom)
| RRep (a : atom) (min : nat) (max : option nat)   (* a{min,max}, greedy *)
| RSeq (r1 r2 : regex)
| RGroup (i : nat) (r : regex)                     (* (...) , the i-th *)
| RNonCap (r : regex)                              (* (?:...) *)
| RBol                                             (* ^ *)
| REol                                             (* $ *)
| RWordB                                           (* \b *)
| RNotWordB.                                       (* \B *)

Definition rchar (c : string) : regex :=
  match lit c with
  | x :: _ => RAtom (AIs (CLit x))
  | [] => REmpty
  end.

(** A literal run of characters. *)
Definition rstr (s : string) : regex :=
  fold_right (fun c r => RSeq (RAtom (AIs (CLit c))) r) REmpty (lit s).

Definition star (a : atom) : regex := RRep a 0 None.
Definition plus (a : atom) : regex := RRep a 1 None.
Definition opt (a : atom) : regex := RRep a 0 (Some 1).
Definition times (n : nat) (a : atom) : regex := RRep a n (Some n).

Fixpoint rseq (l : list regex) : regex :=
  match l with
  | [] => REmpty
  | [r] => r
  | r :: l' => RSeq r (rseq l')
  end.

Definition cclass_mem (k : cclass) (c : char) : bool :=
  match k with
  | CLit x => char_eqb x c
  | CDigit => is_digit c
  | CSpace => is_space c
  end.

Definition atom_mem (a : atom) (c : char) : bool :=
  match a with
  | AIs k => cclass_mem k c
  | ANoneOf l => negb (existsb (fun k => cclass_mem k c) l)
  | ADot => negb (is_line_terminator c)
  end.

(** A position in the input: the characters before it, nearest first, and
    the characters after it; together with the captures made so far. *)
Record mstate := MState {
  before : jsstring;
  rest : jsstring;
  caps : list (nat * jsstring)
}.

Definition max_allows (max : option nat) : bool :=
  match max with
  | Some O => false
  | _ => true
  end.

Definition max_pred (max : option nat) : option nat :=
  option_map pred max.

(** Greedy repetition of an atom: longer runs are tried first. *)
Fixpoint rep (a : atom) (min : nat) (max : option nat)
    (bef rst : jsstring) : list (jsstring * jsstring) :=
  let stop := match min with O => [(bef, rst)] | S _ => [] end in
  match rst with
  | c :: rst' =>
      if atom_mem a c && max_allows max
      then rep a (pred min) (max_pred max) (c :: bef) rst' ++ stop
      else stop
  | [] => stop
  end.

Definition is_word_at (s : jsstring) : bool :=
  match s with
  | c :: _ => is_word c
  | [] => false
  end.

(** [\b] holds where exactly one side is a word character. *)
Definition at_word_boundary (x : mstate) : bool :=
  xorb (is_word_at (before x)) (is_word_at (rest x)).

(** The text consumed between two positions of one run. *)
Definition consumed (x y : mstate) : jsstring :=
  rev (firstn (List.length (before y) - List.length (before x)) (before y)).

Definition set_cap (i : nat) (s : jsstring) (y : mstate) : mstate :=
  MState (before y) (rest y) ((i, s) :: caps y).

Fixpoint mt (r : regex) (x : mstate) : list mstate :=
  match r with
  | REmpty => [x]
  | RAtom a =>
      match rest x with
      | c :: rst' =>
          if atom_mem a c then [MState (c :: before x) rst' (caps x)] else []
      | [] => []
      end
  | RRep a min max =>
      map (fun br => MState (fst br) (snd br) (caps x))
          (rep a min max (before x) (rest x))
  | RSeq r1 r2 => flat_map (mt r2) (mt r1 x)
  | RGroup i r1 => map (fun y => set_cap i (consumed x y) y) (mt r1 x)
  | RNonCap r1 => mt r1 x
  | RBol => match before x with [] => [x] | _ => [] end
  | REol => match rest x with [] => [x] | _ => [] end
  | RWordB => if at_word_boundary x then [x] else []
  | RNotWordB => if at_word_boundary x then [] else [x]
  end.

(** The successful match: where it starts and the state it ends in. *)
Record found := Found {
  start : mstate;
  stop : mstate
}.

(** The search for the leftmost match, from the start of the input on. *)
Fixpoint search (r : regex) (bef rst : jsstring) : option found :=
  match mt r (MState bef rst []) with
  | y :: _ => Some (Found (MState bef rst []) y)
  | [] =>
      match rst with
      | c :: rst' => search r (c :: bef) rst'
      | [] => None
      end
  end.

Definition exec (r : regex) (s : jsstring) : option found := search r [] s.

(** [re.test(s)] *)
Definition test (r : regex) (s : jsstring) : bool :=
  match exec r s with
  | Some _ => true
  | None => false
  end.

Fixpoint lookup_cap (i : nat) (l : list (nat * jsstring)) : option jsstring :=
  match l with
  | (j, s) :: l' => if Nat.eqb i j then Some s else lookup_cap i l'
  | [] => None
  end.

(** Element [i] of the array [s.match(re)] returns: the whole match at 0,
    capture [i] after it, [undefined] for a group that took no part. *)
Definition group (i : nat) (m : found) : option jsstring :=
  match i with
  | O => Some (consumed (start m) (stop m))
  | _ => lookup_cap i (caps (stop m))
  end.

(** [s.replace(re, repl)] for a pattern without the [g] flag and a
    replacement text without [$]: the first match is replaced. *)
Definition replace (r : regex) (repl : jsstring) (s : jsstring) : jsstring :=
  match exec r s with
  | Some m => rev (before (start m)) ++ repl ++ rest (stop m)
  | None => s
  end.

End RegExp.
Export RegExp.

(** ** Constants of the module *)

Definition ROOT_SECTION : jsstring := lit ":root".

(** U+2716, HEAVY MULTIPLICATION X. *)
Definition IGNORE_GLYPH : char := 10006%N.

(** [/\bplaylist\b/] *)
Definition RE_PLAYLIST_CONTENT : regex :=
  rseq [RWordB; rstr "playlist"; RWordB].

(** [/\s*-\s*YouTube$/] *)
Definition RE_YT_PLAYLIST : regex :=
  rseq [star (AIs CSpace); rchar "-"; star (AIs CSpace); rstr "YouTube"; REol].

(** [/^\{([^}]+)\}\s+(.+)/] *)
Definition RE_TAG : regex :=
  rseq [RBol; rchar "{"; RGroup 1 (plus (ANoneOf [CLit 125%N])); rchar "}";
        plus (AIs CSpace); RGroup 2 (plus ADot)].

(** [/^([^\(\s]+)\s+(?:\s*\((.+)\))\B/] *)
Definition RE_HYPERTEXT_1 : regex :=
  rseq [RBol; RGroup 1 (plus (ANoneOf [CLit 40%N; CSpace]));
        plus (AIs CSpace);
        RNonCap (rseq [star (AIs CSpace); rchar "("; RGroup 2 (plus ADot);
                       rchar ")"]);
        RNotWordB].

(** [/^\[([^\(\s]+)\](?:\s*\((.+)\))\B/] *)
Definition RE_HYPERTEXT_2 : regex :=
  rseq [RBol; rchar "["; RGroup 1 (plus (ANoneOf [CLit 40%N; CSpace]));
        rchar "]";
        RNonCap (rseq [star (AIs CSpace); rchar "("; RGroup 2 (plus ADot);
                       rchar ")"]);
        RNotWordB].

(** [/✖:?$/] *)
Definition RE_IGNORE_ITEM : regex :=
  rseq [RAtom (AIs (CLit IGNORE_GLYPH)); opt (AIs (CLit 58%N)); REol].

(** [/✖$/] *)
Definition RE_IGNORE_SECTION : regex :=
  rseq [RAtom (AIs (CLit IGNORE_GLYPH)); REol].

(** [/:$/] *)
Definition RE_CATEGORY_ITEM : regex := rseq [rchar ":"; REol].

(** The pattern of [formatDate]: [/^(\d{4})-(\d{2})-(\d{2})/] *)
Definition RE_DATE : regex :=
  rseq [RBol; RGroup 1 (times 4 (AIs CDigit)); rchar "-";
        RGroup 2 (times 2 (AIs CDigit)); rchar "-";
        RGroup 3 (times 2 (AIs CDigit))].

Definition NIL : Z := (-1)%Z.

(** ** Exceptions *)

Inductive JSError :=
| TypeError                       (* a TypeError; its message is elided *)
| Rejection (reason : jsstring).  (* the reason a fetch was rejected with *)

Inductive Exc (A : Type) :=
| Return (a : A)
| Throw (e : JSError).

Arguments Return {A} a.
Arguments Throw {A} e.

Definition bind {A B} (m : Exc A) (f : A -> Exc B) : Exc B :=
  match m with
  | Return a => f a
  | Throw e => Throw e
  end.

Notation "x <- m ;; k" := (bind m (fun x => k))
  (at level 61, m at next level, right associativity).

(** ** formatDate, formatContent *)

(** A value interpolated in a template literal. *)
Definition interpolate (v : option jsstring) : jsstring :=
  match v with
  | Some s => s
  | None => lit "undefined"
  end.

(** [s.match(re)] on a value that may be [undefined]. *)
Definition String_match (s : option jsstring) (r : regex)
    : Exc (option found) :=
  match s with
  | Some s => Return (exec r s)
  | None => Throw TypeError
  end.

Definition formatDate (dateStr : option jsstring) : Exc jsstring :=
  match dateStr with
  | None => Throw TypeError
  | Some s =>
      match exec RE_DATE s with
      | None => Throw TypeError     (* destructuring [null] *)
      | Some m =>
          let day := group 1 m in
          let month := group 2 m in
          let year := group 3 m in
          Return (interpolate month ++ lit " " ++ interpolate day
                  ++ lit ", " ++ interpolate year)
      end
  end.

Definition removeYouTubeKeyword (str : option jsstring) : Exc jsstring :=
  match str with
  | Some s => Return (replace RE_YT_PLAYLIST [] s)
  | None => Throw TypeError
  end.

(** TaskContent: an absent field is [None]. *)
Record TaskContent := mkContent {
  text : option jsstring;
  tag : option jsstring;
  link : option jsstring
}.

(** A string value is kept when it is truthy: defined and not empty. *)
Definition truthy (v : option jsstring) : option jsstring :=
  match v with
  | Some (_ :: _) => v
  | _ => None
  end.

Definition onlyTruthyValuesOnPojo (obj : TaskContent) : TaskContent :=
  mkContent (truthy (text obj)) (truthy (tag obj)) (truthy (link obj)).

Definition formatContent (content : option jsstring) : Exc TaskContent :=
  match content with
  | None => Throw TypeError
  | Some c =>
      let matchesTag := exec RE_TAG c in
      let '(tag0, content1) :=
        match matchesTag with
        | Some m => (group 1 m, group 2 m)
        | None =>
            (if test RE_PLAYLIST_CONTENT c then Some (lit "playlist")
             else None,
             Some c)
        end in
      matchesHypertext1 <- String_match content1 RE_HYPERTEXT_1 ;;
      let '(link0, content2) :=
        match matchesHypertext1 with
        | Some m => (group 1 m, group 2 m)
        | None =>
            match content1 with
            | Some c1 =>
                match exec RE_HYPERTEXT_2 c1 with
                | Some m => (group 2 m, group 1 m)
                | None => (None, content1)
                end
            | None => (None, content1)
            end
        end in
      text0 <- removeYouTubeKeyword content2 ;;
      let tag1 := match truthy tag0 with
                  | Some t => Some (toLowerCase t)
                  | None => tag0
                  end in
      Return (onlyTruthyValuesOnPojo (mkContent (Some text0) tag1 link0))
  end.

(** ** Objects used as dictionaries *)

Module Obj.

(** Own properties in creation order. *)
Definition JSObject (V : Type) := list (jsstring * V).

Fixpoint get {V} (k : jsstring) (o : JSObject V) : option V :=
  match o with
  | (k', v) :: o' => if str_eqb k k' then Some v else get k o'
  | [] => None
  end.

(** [k in o], for a key that names no property of [Object.prototype]. *)
Definition has {V} (k : jsstring) (o : JSObject V) : bool :=
  match get k o with
  | Some _ => true
  | None => false
  end.

(** [o[k] = v]: an existing property keeps its place, a new one is added
    last. *)
Fixpoint set {V} (k : jsstring) (v : V) (o : JSObject V) : JSObject V :=
  match o with
  | (k', v') :: o' =>
      if str_eqb k k' then (k', v) :: o' else (k', v') :: set k v o'
  | [] => [(k, v)]
  end.

Fixpoint digits_value (acc : N) (s : jsstring) : option N :=
  match s with
  | [] => Some acc
  | c :: s' =>
      if is_digit c then digits_value (acc * 10 + (c - 48))%N s' else None
  end.

(** An array index: the canonical decimal form of an integer below
    2^32 - 1. *)
Definition array_index (k : jsstring) : option N :=
  match digits_value 0%N k with
  | Some n =>
      if str_eqb (Number_toString (Z.of_N n)) k && (n <? 4294967295)%N
      then Some n else None
  | None => None
  end.

Fixpoint insert_index (p : N * jsstring) (l : list (N * jsstring))
    : list (N * jsstring) :=
  match l with
  | [] => [p]
  | q :: l' =>
      if (fst p <=? fst q)%N then p :: l else q :: insert_index p l'
  end.

Definition sort_index (l : list (N * jsstring)) : list (N * jsstring) :=
  fold_right insert_index [] l.

Definition index_keys (ks : list jsstring) : list (N * jsstring) :=
  flat_map (fun k => match array_index k with
                     | Some n => [(n, k)]
                     | None => []
                     end) ks.

Definition is_index (k : jsstring) : bool :=
  match array_index k with
  | Some _ => true
  | None => false
  end.

(** The order in which own property keys are enumerated: array indices in
    ascending order, then the other keys in creation order. *)
Definition ownKeys {V} (o : JSObject V) : list jsstring :=
  map snd (sort_index (index_keys (map fst o)))
  ++ filter (fun k => negb (is_index k)) (map fst o).

(** [Object.keys(o)] *)
Definition keys {V} (o : JSObject V) : list jsstring := ownKeys o.

(** [const {k: _, ...rest} = o]: the properties other than [k], copied in
    enumeration order. *)
Definition rest_without {V} (k : jsstring) (o : JSObject V) : JSObject V :=
  flat_map (fun k' => match get k' o with
                      | Some v => [(k', v)]
                      | None => []
                      end)
           (filter (fun k' => negb (str_eqb k' k)) (ownKeys o)).

End Obj.

(** ** Data model *)

Module Item.
(** TodoistSyncAPI.Item *)
Record t := mk {
  id : Z;
  parent_id : option Z;       (* null at the root *)
  section_id : option Z;      (* null outside every section *)
  content : jsstring;
  checked : Z;                (* 0 or 1 *)
  date_added : jsstring;
  priority : Z
}.
End Item.

Module Task.
Record t := mk {
  checked : bool;
  dateAdded : jsstring;
  id : Z;
  parentId : option Z;
  sectionId : option Z;
  priority : Z;
  content : TaskContent
}.
End Task.

(** A value of the SectionMap: the root label or a parsed section name. *)
Inductive SectionName :=
| RootName (s : jsstring)
| ParsedName (c : TaskContent).

Definition SectionMap := Obj.JSObject SectionName.

(** [{ null: ROOT_SECTION }] *)
Definition rootOnly : SectionMap := [(lit "null", RootName ROOT_SECTION)].

(** The property key a [section_id] is converted to. *)
Definition propertyKey (v : option Z) : jsstring :=
  match v with
  | Some z => Number_toString z
  | None => lit "null"
  end.

(** ** mapProjectDataToItems, formatProjectItems *)

Definition formatItem (item : Item.t) : Exc Task.t :=
  let checked := negb (Z.eqb (Item.checked item) 0) in
  dateAdded <- formatDate (Some (Item.date_added item)) ;;
  content <- formatContent (Some (Item.content item)) ;;
  Return (Task.mk checked dateAdded (Item.id item) (Item.parent_id item)
                  (Item.section_id item) (Item.priority item) content).

(** [a == b] and [a !== b] between a nullable identifier and a number. *)
Definition loose_eq (a : option Z) (b : Z) : bool :=
  match a with
  | Some z => Z.eqb z b
  | None => false
  end.

Definition strict_neq (a : option Z) (b : Z) : bool :=
  match a with
  | Some z => negb (Z.eqb z b)
  | None => true
  end.

Record FilterState := mkFilter {
  selectedTasks : list Task.t;
  categoryIds : list Z;
  lastSkippedParentId : Z
}.

(** One iteration of the loop of [formatProjectItems]. *)
Definition filterItem (sectionsNameById : SectionMap) (st : FilterState)
    (item : Item.t) : Exc FilterState :=
  let currId := Item.id item in
  let currParentId := Item.parent_id item in
  let currContent := Item.content item in
  let sectionId := Item.section_id item in
  if negb (Obj.has (propertyKey sectionId) sectionsNameById) then Return st
  else if test RE_IGNORE_ITEM currContent then
    Return (mkFilter (selectedTasks st) (categoryIds st) currId)
  else
    let isCategory := test RE_CATEGORY_ITEM currContent in
    let parentSkipped := loose_eq currParentId (lastSkippedParentId st) in
    let skipItem := parentSkipped || isCategory in
    selected <-
      (if negb skipItem
       then (task <- formatItem item ;; Return (selectedTasks st ++ [task]))
       else Return (selectedTasks st)) ;;
    let last1 := if strict_neq currParentId (lastSkippedParentId st)
                 then NIL else lastSkippedParentId st in
    if isCategory then
      Return (mkFilter selected (categoryIds st ++ [currId])
                       (if parentSkipped then currId else last1))
    else Return (mkFilter selected (categoryIds st) last1).

Fixpoint filterItems (sectionsNameById : SectionMap) (items : list Item.t)
    (st : FilterState) : Exc FilterState :=
  match items with
  | [] => Return st
  | item :: items' =>
      st' <- filterItem sectionsNameById st item ;;
      filterItems sectionsNameById items' st'
  end.

(** [sectionsNameById] is [None] when the argument is left out. *)
Definition formatProjectItems (items : list Item.t)
    (sectionsNameById : option SectionMap) : Exc (list Task.t * list Z) :=
  let sectionsNameById :=
    match sectionsNameById with
    | Some m => m
    | None => rootOnly
    end in
  st <- filterItems sectionsNameById items (mkFilter [] [] NIL) ;;
  Return (selectedTasks st, categoryIds st).

Record ProjectItems := mkProjectItems {
  done : list Task.t;
  pending : list Task.t
}.

Record TodoistPartialResponse := mkResponse {
  name : jsstring;
  items : ProjectItems
}.

Definition mapProjectDataToItems (projectName : jsstring)
    (items : list Item.t) (sectionsNameById : option SectionMap)
    : Exc (TodoistPartialResponse * list Z) :=
  r <- formatProjectItems items sectionsNameById ;;
  let '(wellFormattedItems, categoryIds) := r in
  let '(wellFormattedNoncheckedItems, wellFormattedCheckedItems) :=
    fold_left (fun itemsPair item =>
                 if Task.checked item
                 then (fst itemsPair, snd itemsPair ++ [item])
                 else (fst itemsPair ++ [item], snd itemsPair))
              wellFormattedItems ([], []) in
  Return (mkResponse projectName
            (mkProjectItems wellFormattedCheckedItems
                            wellFormattedNoncheckedItems),
          categoryIds).

(** ** Promises

    A promise is the outcome it settles to, or [None] when it never
    settles. *)

Inductive settled (A : Type) :=
| Fulfilled (a : A)
| Rejected (e : JSError).

Arguments Fulfilled {A} a.
Arguments Rejected {A} e.

Definition Promise (A : Type) := option (settled A).

(** [p.then(f)]: an exception thrown by [f] rejects the new promise. *)
Definition then_ {A B} (p : Promise A) (f : A -> Exc B) : Promise B :=
  match p with
  | Some (Fulfilled a) =>
      match f a with
      | Return b => Some (Fulfilled b)
      | Throw e => Some (Rejected e)
      end
  | Some (Rejected e) => Some (Rejected e)
  | None => None
  end.

Fixpoint list_set {A} (i : nat) (v : A) (l : list A) {struct l} : list A :=
  match l, i with
  | [], _ => []
  | _ :: l', O => v :: l'
  | x :: l', S i' => x :: list_set i' v l'
  end.

Definition filled {A} (values : list (option A)) : list A :=
  flat_map (fun o => match o with Some v => [v] | None => [] end) values.

(** The reactions of [Promise.all(ps)], run in the order [order] in which
    the promises settle ([order] lists positions in [ps]).  A fulfilment
    stores its value at the position of its promise and resolves the result
    once no element remains; a resolve element function runs once; the
    first rejection rejects the result.  Reactions after the result is
    settled cannot change it and are left out. *)
Fixpoint all_react {A} (ps : list (Promise A)) (values : list (option A))
    (remaining : nat) (order : list nat) : Promise (list A) :=
  match order with
  | [] => None
  | i :: order' =>
      match nth_error ps i with
      | Some (Some (Rejected e)) => Some (Rejected e)
      | Some (Some (Fulfilled v)) =>
          match nth_error values i with
          | Some None =>
              let values' := list_set i (Some v) values in
              match remaining with
              | 1 => Some (Fulfilled (filled values'))
              | _ => all_react ps values' (pred remaining) order'
              end
          | _ => all_react ps values remaining order'
          end
      | _ => all_react ps values remaining order'
      end
  end.

Definition Promise_all {A} (ps : list (Promise A)) (order : list nat)
    : Promise (list A) :=
  match ps with
  | [] => Some (Fulfilled [])
  | _ => all_react ps (repeat None (List.length ps)) (List.length ps) order
  end.

(** ** The archive endpoint *)

Module Page.
(** TodoistSyncAPI.ArchivedProjectData *)
Record t := mk {
  items : list Item.t;
  has_more : bool;
  next_cursor : option jsstring
}.
End Page.

(** The parameters of a request; a value may be [undefined]. *)
Definition Params := Obj.JSObject (option jsstring).

Section Archive.

(** The state of the world the requests act on, and
    [this.conn.post('archive/items', params)], giving the [data] of the
    response. *)
Context {W : Type}.
Variable post : Params -> W -> Promise Page.t * W.

(** The loop [while (data.has_more)]; [fuel] bounds the number of
    iterations, and the promise does not settle when it runs out. *)
Fixpoint fetchAllPages (fuel : nat) (params : Params) (data : Page.t)
    (w : W) : Promise Page.t * W :=
  if Page.has_more data then
    match fuel with
    | O => (None, w)
    | S fuel' =>
        let params := Obj.set (lit "cursor") (Page.next_cursor data) params in
        let '(response, w') := post params w in
        match response with
        | Some (Fulfilled nextData) =>
            let nextData :=
              Page.mk (Page.items data ++ Page.items nextData)
                      (Page.has_more nextData) (Page.next_cursor nextData) in
            let data :=
              Page.mk (Page.items data) (Page.has_more data)
                      (Page.next_cursor nextData) in
            (* Object.assign(data, nextData) *)
            let data :=
              Page.mk (Page.items nextData) (Page.has_more nextData)
                      (Page.next_cursor nextData) in
            fetchAllPages fuel' params data w'
        | Some (Rejected e) => (Some (Rejected e), w')
        | None => (None, w')
        end
    end
  else (Some (Fulfilled data), w).

Definition _getArchivedProjectItems (fuel : nat) (paramKey paramValue : jsstring)
    (w : W) : Promise Page.t * W :=
  match trim paramKey with
  | [] => (Some (Rejected TypeError), w)
  | _ :: _ =>
      let params : Params := Obj.set paramKey (Some paramValue) [] in
      let '(response, w') := post params w in
      match response with
      | Some (Fulfilled data) => fetchAllPages fuel params data w'
      | Some (Rejected e) => (Some (Rejected e), w')
      | None => (None, w')
      end
  end.

Definition getArchivedProjectItemsUnderProject (fuel : nat) (projectId : Z) :=
  _getArchivedProjectItems fuel (lit "project_id") (Number_toString projectId).

Definition getArchivedProjectItemsUnderParentItem (fuel : nat) (parentId : Z) :=
  _getArchivedProjectItems fuel (lit "parent_id") (Number_toString parentId).

Definition getArchivedProjectItemsUnderSection (fuel : nat)
    (sectionId : number) :=
  _getArchivedProjectItems fuel (lit "section_id") (number_toString sectionId).

End Archive.

(** A fetch capability that replays a fixed sequence of responses and keeps
    the parameters of every request it received. *)
Module Replay.

Record world := mk {
  script : list (settled Page.t);
  log : list Params
}.

Definition post (params : Params) (w : world) : Promise Page.t * world :=
  match script w with
  | response :: script' => (Some response, mk script' (log w ++ [params]))
  | [] => (None, mk [] (log w ++ [params]))
  end.

End Replay.

(** ** Sections *)

Module SectionRec.
(** TodoistSyncAPI.Section *)
Record t := mk {
  id : Z;
  name : jsstring;
  project_id : Z
}.
End SectionRec.

(** [whenData] is the [data.sections] of the response to the "sync"
    request. *)
Definition _getSections (whenData : Promise (list SectionRec.t))
    (projectId : Z) : Promise (list SectionRec.t) :=
  then_ whenData (fun sections =>
    if negb (Z.eqb projectId 0)
    then Return (filter (fun section =>
                           Z.eqb (SectionRec.project_id section) projectId)
                        sections)
    else Return sections).

Definition addSection (sectionsMap : SectionMap) (section : SectionRec.t)
    : Exc SectionMap :=
  if negb (test RE_IGNORE_SECTION (trim (SectionRec.name section))) then
    parsed <- formatContent (Some (SectionRec.name section)) ;;
    Return (Obj.set (Number_toString (SectionRec.id section))
                    (ParsedName parsed) sectionsMap)
  else Return sectionsMap.

(** [sections.reduce(f, init)] for a callback that may throw. *)
Fixpoint reduce {A B} (f : A -> B -> Exc A) (l : list B) (init : A) : Exc A :=
  match l with
  | [] => Return init
  | x :: l' => a <- f init x ;; reduce f l' a
  end.

Definition getSectionsGroupedByProjectId (whenData : Promise (list SectionRec.t))
    (projectId : Z) : Promise SectionMap :=
  then_ (_getSections whenData projectId)
        (fun sections => reduce addSection sections rootOnly).

(** ** The archive fan-out *)

Section Aggregator.

(** The archive endpoint answers a request by its parameters alone (the
    cursor carries the position), so that a query settles the same way
    whatever requests of other queries come in between.  The world of a
    query is the list of the requests it has made. *)
Variable server : Params -> Promise Page.t.

(** The bound on the pages of one query. *)
Variable fuel : nat.

(** The order in which the promises handed to [Promise.all] settle. *)
Variable order : list nat.

Definition request (params : Params) (log : list Params)
    : Promise Page.t * list Params :=
  (server params, log ++ [params]).

Definition getTasksFromResponseData (sectionsNameById : option SectionMap)
    (data : Page.t) : Exc (list Task.t) :=
  r <- formatProjectItems (Page.items data) sectionsNameById ;;
  Return (fst r).

Definition getTasks (sectionsNameById : option SectionMap)
    (whenData : Promise Page.t) : Promise (list Task.t) :=
  then_ whenData (getTasksFromResponseData sectionsNameById).

(** The queries in the order the method issues them: each with the promise
    of its data and the requests it made. *)
Definition archiveQueries (projectId : Z) (sections : SectionMap)
    (parentIds : option (list Z)) : list (Promise Page.t * list Params) :=
  let projectSectionsNameById := Obj.rest_without (lit "null") sections in
  let sectionsIds := map Number (Obj.keys projectSectionsNameById) in
  let byProjectId :=
    getArchivedProjectItemsUnderProject request fuel projectId [] in
  let bySectionId :=
    map (fun sectionId =>
           getArchivedProjectItemsUnderSection request fuel sectionId [])
        sectionsIds in
  let byParentId :=
    match parentIds with
    | Some parentIds =>
        map (fun parentId =>
               getArchivedProjectItemsUnderParentItem request fuel parentId [])
            parentIds
    | None => []
    end in
  [byProjectId] ++ bySectionId ++ byParentId.

(** [whenAllKindTasks], the promises handed to [Promise.all]. *)
Definition whenAllKindTasks (projectId : Z) (sections : SectionMap)
    (parentIds : option (list Z)) : list (Promise (list Task.t)) :=
  map (fun q => getTasks (Some sections) (fst q))
      (archiveQueries projectId sections parentIds).

(** The promise returned, or the exception thrown before one is; and the
    requests each query issued, query by query.  [sectionsNameById] is
    [None] when the argument is [undefined]: destructuring it throws before
    any query is issued. *)
Definition getProjectArchivedTasks (projectId : Z)
    (sectionsNameById : option SectionMap) (parentIds : option (list Z))
    : Exc (Promise (list Task.t)) * list (list Params) :=
  match sectionsNameById with
  | None => (Throw TypeError, [])
  | Some sections =>
      (Return (then_ (Promise_all
                        (whenAllKindTasks projectId sections parentIds) order)
                     (fun fulfilledPromises =>
                        Return (List.concat fulfilledPromises))),
       map snd (archiveQueries projectId sections parentIds))
  end.

End Aggregator.

(** ** Notions used in the statements and proofs below *)

(** A pattern without [$]. *)
Fixpoint no_eol (r : regex) : bool :=
  match r with
  | REol => false
  | RSeq r1 r2 => no_eol r1 && no_eol r2
  | RGroup _ r1 => no_eol r1
  | RNonCap r1 => no_eol r1
  | _ => true
  end.

(** The same position in an input that goes on with [m]. *)
Definition extend (m : jsstring) (x : mstate) : mstate :=
  MState (before x) (rest x ++ m) (caps x).

(** [y] is the first state the matcher reaches from [x]: the one the
    engine reports. *)
Definition heads (r : regex) (x y : mstate) : Prop :=
  exists l, mt r x = y :: l.

(** An item the filter records as a category. *)
Definition is_marker (sm : SectionMap) (item : Item.t) : bool :=
  Obj.has (propertyKey (Item.section_id item)) sm
  && negb (test RE_IGNORE_ITEM (Item.content item))
  && test RE_CATEGORY_ITEM (Item.content item).

(** [l1] is [l2] with some elements left out. *)
Inductive subseq {A : Type} : list A -> list A -> Prop :=
| subseq_nil : subseq [] []
| subseq_skip (x : A) (l1 l2 : list A) : subseq l1 l2 -> subseq l1 (x :: l2)
| subseq_keep (x : A) (l1 l2 : list A) :
    subseq l1 l2 -> subseq (x :: l1) (x :: l2).

(** The repetition of [a] cannot go on into [rst]. *)
Definition stops_at (a : atom) (rst : jsstring) : Prop :=
  match rst with
  | c :: _ => atom_mem a c = false
  | [] => True
  end.

(** The keys of a SectionMap are the sentinel and the decimal forms of
    section ids. *)
Definition SectionMap_wf (sm : SectionMap) : Prop :=
  forall k, In k (map fst sm) ->
            k = lit "null" \/ exists z : Z, k = Number_toString z.

(** The number of positions of [Promise.all] still to be filled. *)
Definition unfilled {A} (values : list (option A)) : nat :=
  List.length (filter (fun o => match o with None => true | Some _ => false end)
                      values).

(** The promise of the tasks of one query of the fan-out:
    [getTasks(this._getArchivedProjectItems(paramKey, paramValue))]. *)
Definition archivedTasks (server : Params -> Promise Page.t) (fuel : nat)
    (sections : SectionMap) (paramKey paramValue : jsstring)
    : Promise (list Task.t) :=
  getTasks (Some sections)
    (fst (_getArchivedProjectItems (request server) fuel paramKey paramValue
            [])).

(** The keys of the sections of a SectionMap, in enumeration order. *)
Definition sectionKeys (sections : SectionMap) : list jsstring :=
  filter (fun k => negb (str_eqb k (lit "null"))) (Obj.keys sections).

(** Array indices in ascending order. *)
Fixpoint sorted_index (l : list (N * jsstring)) : Prop :=
  match l with
  | [] => True
  | p :: l' =>
      match l' with
      | [] => True
      | q :: _ => (fst p <= fst q)%N
      end /\ sorted_index l'
  end.

(** A position of [Promise.all] holds nothing or the value of its
    promise. *)
Definition slot {A} (o : option A) (v : A) : Prop := o = None \/ o = Some v.

(** ** Sample data *)

Module Sample.

Definition date : jsstring := lit "2019-07-15T10:00:00Z".

Definition item (id : Z) (parent : option Z) (content : jsstring) : Item.t :=
  Item.mk id parent None content 0 date 1.

Definition task (id : Z) (parent : option Z) (content : jsstring) : Task.t :=
  Task.mk false (lit "07 2019, 15") id parent None 1
          (mkContent (Some content) None None).

Definition A := item 1 None (lit "Write report").
Definition B := item 2 (Some 1%Z) (lit "Old notes " ++ [IGNORE_GLYPH]).
Definition C := item 3 (Some 2%Z) (lit "Scan pages").
Definition D := item 4 None (lit "Buy milk").

Definition page1 : Page.t := Page.mk [A; B] true (Some (lit "c1")).
Definition page2 : Page.t := Page.mk [C; D] false None.

(** A map with the section 5. *)
Definition sections : SectionMap :=
  Obj.set (lit "5") (ParsedName (mkContent (Some (lit "Work")) None None))
          rootOnly.

(** An endpoint that rejects the query of the project and answers every
    other query with one page. *)
Definition rejectsProject (params : Params) : Promise Page.t :=
  match Obj.get (lit "project_id") params with
  | Some _ => Some (Rejected (Rejection (lit "503")))
  | None => Some (Fulfilled page2)
  end.

(** An endpoint that answers the query of the project, of a section and of
    a parent with one page each. *)
Definition answers (params : Params) : Promise Page.t :=
  match Obj.get (lit "project_id") params with
  | Some _ => Some (Fulfilled (Page.mk [A] false None))
  | None =>
      match Obj.get (lit "section_id") params with
      | Some _ => Some (Fulfilled (Page.mk [C] false None))
      | None => Some (Fulfilled (Page.mk [D] false None))
      end
  end.

(** The tasks each query of [answers] gives. *)
Definition tasksOf (paramKey paramValue : jsstring) : list Task.t :=
  if str_eqb paramKey (lit "project_id")
  then [task 1 None (lit "Write report")]
  else if str_eqb paramKey (lit "section_id")
       then [task 3 (Some 2%Z) (lit "Scan pages")]
       else [task 4 None (lit "Buy milk")].

End Sample.

(** ** The project data *)

(** [whenData] is the [data] of the response to the "projects/get_data"
    request: the name of the project and its items. *)
Definition getWellFormattedProjectData
    (whenData : Promise (jsstring * list Item.t))
    (sectionsNameById : option SectionMap)
    : Promise (TodoistPartialResponse * list Z) :=
  then_ whenData (fun data =>
    mapProjectDataToItems (fst data) (snd data) sectionsNameById).

(** ** The gist update ([src/gist.js]) *)

Module Gist.

(** GistFile *)
Record GistFile := mkFile {
  filename : jsstring;
  content : jsstring
}.

(** A value of the [files] of an update: [null], which deletes the file,
    or [{ content }]. *)
Inductive FileUpdate :=
| Null
| Content (content : jsstring).

(** [Object.fromEntries(entries)] *)
Definition fromEntries {V} (entries : list (jsstring * V)) : Obj.JSObject V :=
  fold_left (fun o e => Obj.set (fst e) (snd e) o) entries [].

(** The argument of [octokit.gists.update]. *)
Record UpdateRequest := mkUpdate {
  description : jsstring;
  gist_id : jsstring;
  files : Obj.JSObject FileUpdate
}.

(** [o[k] = v] on an object whose prototype is [Object.prototype]: the
    name "__proto__" reaches the accessor of the prototype, which adds no
    property, unless the object has a property of its own under that name;
    every other name is set as a property of the object. *)
Definition assign {V} (k : jsstring) (v : V) (o : Obj.JSObject V)
    : Obj.JSObject V :=
  if str_eqb k (lit "__proto__") && negb (Obj.has k o) then o
  else Obj.set k v o.

(** The [files] of the update: the old file names, to be deleted, overlaid
    with the new files. *)
Definition updatedFiles {F} (oldFiles : Obj.JSObject F)
    (newFiles : list GistFile) : Obj.JSObject FileUpdate :=
  let gistOldFilenames := Obj.keys oldFiles in
  let filesToDelete :=
    map (fun oldFilename => (oldFilename, Null)) gistOldFilenames in
  fold_left (fun gistFiles currGistFile =>
               assign (filename currGistFile)
                      (Content (content currGistFile)) gistFiles)
            newFiles (fromEntries filesToDelete).

Section Client.

(** The state of the world, the type of the files of a gist, and the two
    requests: [octokit.gists.get], giving [data.files], and
    [octokit.gists.update], giving the status of the response. *)
Context {W F : Type}.
Variable gists_get : jsstring -> W -> Promise (Obj.JSObject F) * W.
Variable gists_update : UpdateRequest -> W -> Promise Z * W.

Definition updateGistById (gistId newDescription : jsstring)
    (newFiles : list GistFile) (w : W) : Promise Z * W :=
  let '(gistResponse, w1) := gists_get gistId w in
  match gistResponse with
  | Some (Fulfilled oldFiles) =>
      let files := updatedFiles oldFiles newFiles in
      gists_update (mkUpdate newDescription gistId files) w1
  | Some (Rejected e) => (Some (Rejected e), w1)
  | None => (None, w1)
  end.

End Client.

(** The last of the new files with a given name. *)
Definition lastNamed (k : jsstring) (newFiles : list GistFile)
    : option GistFile :=
  find (fun f => str_eqb (filename f) k) (rev newFiles).

End Gist.

(** ** More notions used in the statements below *)

(** The section of the item is a key of the map. *)
Definition knownSection (sm : SectionMap) (item : Item.t) : bool :=
  Obj.has (propertyKey (Item.section_id item)) sm.

(** An item the filter may emit: in a known section, with neither the
    ignore marker nor the category marker. *)
Definition eligible (sm : SectionMap) (item : Item.t) : bool :=
  knownSection sm item
  && negb (test RE_IGNORE_ITEM (Item.content item))
  && negb (test RE_CATEGORY_ITEM (Item.content item)).

(** The string begins with YYYY-MM-DD. *)
Definition begins_with_date (s : jsstring) : Prop :=
  exists yyyy mm dd tail : jsstring,
    List.length yyyy = 4 /\ List.length mm = 2 /\ List.length dd = 2
    /\ forallb is_digit (yyyy ++ mm ++ dd) = true
    /\ s = yyyy ++ lit "-" ++ mm ++ lit "-" ++ dd ++ tail.

(** A section record the map keeps: of the project asked for, its trimmed
    name not ending in the ignore glyph. *)
Definition keptSection (projectId : Z) (section : SectionRec.t) : bool :=
  (Z.eqb projectId 0 || Z.eqb (SectionRec.project_id section) projectId)
  && negb (test RE_IGNORE_SECTION (trim (SectionRec.name section))).


(** The last character of the string is white space. *)
Definition ends_with_space (s : jsstring) : bool :=
  match rev s with
  | c :: _ => is_space c
  | [] => false
  end.

(** The string ends with a hyphen, white space or none, and "YouTube". *)
Definition ends_with_decoration (s : jsstring) : Prop :=
  exists pre sp : jsstring,
    forallb is_space sp = true /\ s = pre ++ lit "-" ++ sp ++ lit "YouTube".

(** [t] is a run of consecutive characters of [s]. *)
Definition part_of (t s : jsstring) : Prop :=
  exists a b : jsstring, s = a ++ t ++ b.

(** The string has the word "playlist": the letters, with no word character
    next to them on either side. *)
Definition mentions_playlist (s : jsstring) : Prop :=
  exists pre post : jsstring,
    s = pre ++ lit "playlist" ++ post
    /\ is_word_at (rev pre) = false /\ is_word_at post = false.
(** ** Facts about strings *)

Lemma str_eqb_eq (a b : jsstring) : str_eqb a b = true <-> a = b.
Proof.
  revert b; induction a as [|x a IH]; intros [|y b]; simpl; split; intro H;
    try discriminate; try reflexivity.
  - apply andb_true_iff in H as [H1 H2]. apply N.eqb_eq in H1.
    apply IH in H2. now subst.
  - injection H as -> ->. apply andb_true_iff; split.
    + apply N.eqb_refl.
    + now apply IH.
Qed.

Lemma str_eqb_refl (a : jsstring) : str_eqb a a = true.
Proof. now apply str_eqb_eq. Qed.

Lemma str_eqb_neq (a b : jsstring) : a <> b -> str_eqb a b = false.
Proof.
  intro H. destruct (str_eqb a b) eqn:E; [|reflexivity].
  apply str_eqb_eq in E. contradiction.
Qed.

Lemma unlit_map (l : list ascii) :
  unlit (map N_of_ascii l) = Some (string_of_list_ascii l).
Proof.
  induction l as [|a l IH]; simpl; [reflexivity|].
  assert (Hlt : (N_of_ascii a <? 256)%N = true).
  { apply N.ltb_lt. apply N_ascii_bounded. }
  rewrite Hlt, IH. simpl. now rewrite ascii_N_embedding.
Qed.

Lemma unlit_lit (s : string) : unlit (lit s) = Some s.
Proof.
  unfold lit. rewrite unlit_map. now rewrite string_of_list_ascii_of_string.
Qed.

Lemma lit_inj (s s' : string) : lit s = lit s' -> s = s'.
Proof.
  intro H. apply (f_equal unlit) in H. rewrite !unlit_lit in H. congruence.
Qed.

Lemma to_int_parses (z : Z) :
  NilZero.int_of_string (NilZero.string_of_int (Z.to_int z)) = Some (Z.to_int z).
Proof.
  apply NilZero.isi; destruct z; simpl; try discriminate.
  - intro H. injection H as H. now apply Unsigned.to_uint_nonnil in H.
  - intro H. injection H as H. now apply Unsigned.to_uint_nonnil in H.
Qed.

Lemma Number_of_toString (z : Z) : Number (Number_toString z) = Int z.
Proof.
  unfold Number, Number_toString. rewrite unlit_lit, to_int_parses.
  now rewrite DecimalZ.of_to.
Qed.

Lemma Number_toString_inj (z z' : Z) :
  Number_toString z = Number_toString z' -> z = z'.
Proof.
  intro H. apply (f_equal Number) in H. rewrite !Number_of_toString in H.
  congruence.
Qed.

Lemma Number_toString_not_null (z : Z) : Number_toString z <> lit "null".
Proof.
  intro H. apply (f_equal Number) in H. rewrite Number_of_toString in H.
  vm_compute in H. discriminate.
Qed.

(** ** Facts about matching *)

Lemma rep_spec a min max bef rst b r :
  In (b, r) (rep a min max bef rst) <->
  exists l, rst = l ++ r /\ b = rev l ++ bef
            /\ forallb (atom_mem a) l = true
            /\ min <= List.length l
            /\ (forall m, max = Some m -> List.length l <= m).
Proof.
  revert min max bef.
  induction rst as [|c rst IH]; intros min max bef.
  - simpl. split.
    + destruct min; simpl; [|tauto].
      intros [H|[]]. injection H as <- <-.
      exists []. repeat split; auto. intros; simpl; lia.
    + intros (l & Hl & Hb & _ & Hmin & _).
      symmetry in Hl. apply app_eq_nil in Hl as [-> ->].
      simpl in *. destruct min; [|lia]. left. now subst.
  - assert (Hstop : In (b, r) (match min with O => [(bef, c :: rst)] | S _ => [] end)
                    <-> (min = 0 /\ b = bef /\ r = c :: rst)).
    { destruct min; simpl; split.
      - intros [H|[]]. injection H as <- <-. auto.
      - intros (_ & -> & ->). now left.
      - tauto.
      - intros (H & _). discriminate. }
    simpl. split.
    + intro H.
      assert (Hcases :
        (atom_mem a c && max_allows max = true
         /\ In (b, r) (rep a (pred min) (max_pred max) (c :: bef) rst))
        \/ (min = 0 /\ b = bef /\ r = c :: rst)).
      { destruct (atom_mem a c && max_allows max) eqn:E.
        - apply in_app_or in H as [H|H]; [left; auto|right; now apply Hstop].
        - right; now apply Hstop. }
      destruct Hcases as [[E H']|(-> & -> & ->)].
      * apply andb_true_iff in E as [Ea Em].
        apply IH in H' as (l & -> & -> & Hall & Hmin & Hmax).
        exists (c :: l). simpl. rewrite Ea, Hall, <- app_assoc. simpl.
        repeat split; auto; [lia|].
        intros m ->. destruct m; [discriminate|].
        specialize (Hmax m eq_refl). lia.
      * exists []. repeat split; auto. intros; simpl; lia.
    + intros (l & Hl & -> & Hall & Hmin & Hmax).
      destruct l as [|c' l].
      * simpl in *. subst r.
        assert (Hin : In (bef, c :: rst)
                         (match min with O => [(bef, c :: rst)] | S _ => [] end)).
        { apply Hstop. repeat split; auto; lia. }
        destruct (atom_mem a c && max_allows max); auto.
        apply in_or_app; now right.
      * simpl in Hl. injection Hl as <- ->.
        simpl in Hall. apply andb_true_iff in Hall as [Ea Hall].
        assert (Em : max_allows max = true).
        { destruct max as [[|m]|]; auto.
          specialize (Hmax 0 eq_refl). simpl in Hmax. lia. }
        rewrite Ea, Em. simpl. apply in_or_app; left.
        apply IH. exists l. simpl. rewrite <- app_assoc. simpl.
        repeat split; auto.
        -- simpl in Hmin. lia.
        -- intros m Hm. destruct max as [m'|]; [|discriminate].
           simpl in Hm. injection Hm as <-.
           specialize (Hmax m' eq_refl). simpl in Hmax. lia.
Qed.

Lemma mt_seq r1 r2 x y :
  In y (mt (RSeq r1 r2) x) <-> exists z, In z (mt r1 x) /\ In y (mt r2 z).
Proof. simpl. apply in_flat_map. Qed.

Lemma mt_atom a x y :
  In y (mt (RAtom a) x) <->
  exists c rst', rest x = c :: rst' /\ atom_mem a c = true
                 /\ y = MState (c :: before x) rst' (caps x).
Proof.
  simpl. destruct (rest x) as [|c rst'].
  - split; [intros []|intros (c & r & H & _); discriminate].
  - destruct (atom_mem a c) eqn:E; split.
    + intros [<-|[]]. now exists c, rst'.
    + intros (c' & r' & H & _ & ->). injection H as <- <-. now left.
    + intros [].
    + intros (c' & r' & H & E' & _). injection H as <- <-. congruence.
Qed.

Lemma mt_rep a min max x y :
  In y (mt (RRep a min max) x) <->
  exists l, rest x = l ++ rest y /\ before y = rev l ++ before x
            /\ caps y = caps x
            /\ forallb (atom_mem a) l = true
            /\ min <= List.length l
            /\ (forall m, max = Some m -> List.length l <= m).
Proof.
  simpl. rewrite in_map_iff. split.
  - intros ([b r] & <- & H). apply rep_spec in H as (l & H1 & H2 & H3).
    exists l. simpl. auto.
  - intros (l & H1 & H2 & H3 & H4). exists (before y, rest y). split.
    + destruct y; simpl in *. now subst.
    + apply rep_spec. exists l. auto.
Qed.

Lemma mt_group i r x y :
  In y (mt (RGroup i r) x) <->
  exists z, In z (mt r x) /\ y = set_cap i (consumed x z) z.
Proof.
  simpl. rewrite in_map_iff. split; intros (z & H1 & H2); exists z; auto.
Qed.

Lemma mt_bol x y : In y (mt RBol x) <-> before x = [] /\ y = x.
Proof.
  simpl. destruct (before x); simpl; split; try tauto.
  - intros [<-|[]]; auto.
  - intros [_ ->]; auto.
  - intros [H _]; discriminate.
Qed.

Lemma mt_eol x y : In y (mt REol x) <-> rest x = [] /\ y = x.
Proof.
  simpl. destruct (rest x); simpl; split; try tauto.
  - intros [<-|[]]; auto.
  - intros [_ ->]; auto.
  - intros [H _]; discriminate.
Qed.

Lemma mt_wordb x y :
  In y (mt RWordB x) <-> at_word_boundary x = true /\ y = x.
Proof.
  simpl. destruct (at_word_boundary x); simpl; split; try tauto.
  - intros [<-|[]]; auto.
  - intros [_ ->]; auto.
  - intros [H _]; discriminate.
Qed.

Lemma mt_notwordb x y :
  In y (mt RNotWordB x) <-> at_word_boundary x = false /\ y = x.
Proof.
  simpl. destruct (at_word_boundary x); simpl; split; try tauto.
  - intros [H _]; discriminate.
  - intros [<-|[]]; auto.
  - intros [_ ->]; auto.
Qed.

Lemma mt_empty x y : In y (mt REmpty x) <-> y = x.
Proof. simpl. split; [intros [<-|[]]; auto|intros ->; auto]. Qed.

(** A match only moves forward: what it consumed lies between its two
    positions. *)
Lemma mt_consumes r x y :
  In y (mt r x) ->
  exists l, rest x = l ++ rest y /\ before y = rev l ++ before x.
Proof.
  revert x y. induction r; intros x y H.
  - apply mt_empty in H as ->. now exists [].
  - apply mt_atom in H as (c & rst' & H1 & _ & ->). exists [c]. simpl. auto.
  - apply mt_rep in H as (l & H1 & H2 & _). eauto.
  - apply mt_seq in H as (z & H1 & H2).
    apply IHr1 in H1 as (l1 & Ha & Hb). apply IHr2 in H2 as (l2 & Hc & Hd).
    exists (l1 ++ l2). rewrite Ha, Hc, Hd, Hb, rev_app_distr, !app_assoc. auto.
  - apply mt_group in H as (z & H1 & ->). simpl. now apply IHr.
  - now apply IHr.
  - apply mt_bol in H as [_ ->]. now exists [].
  - apply mt_eol in H as [_ ->]. now exists [].
  - apply mt_wordb in H as [_ ->]. now exists [].
  - apply mt_notwordb in H as [_ ->]. now exists [].
Qed.

Lemma consumed_rev x y l :
  before y = rev l ++ before x -> consumed x y = l.
Proof.
  intro H. unfold consumed. rewrite H, length_app, length_rev.
  replace (List.length l + List.length (before x) - List.length (before x))
    with (List.length (rev l) + 0) by (rewrite length_rev; lia).
  rewrite firstn_app_2. simpl. rewrite app_nil_r. apply rev_involutive.
Qed.

(** The leftmost match starts at a position of the input and ends in a
    state the matcher reaches from there. *)
Lemma search_found r bef rst m :
  search r bef rst = Some m ->
  exists pre post, rst = pre ++ post
    /\ start m = MState (rev pre ++ bef) post []
    /\ In (stop m) (mt r (start m)).
Proof.
  revert bef. induction rst as [|c rst IH]; intros bef; simpl.
  - destruct (mt r (MState bef [] [])) eqn:E; [discriminate|].
    intros [= <-]. exists [], []. simpl. rewrite E. repeat split. now left.
  - destruct (mt r (MState bef (c :: rst) [])) eqn:E.
    + intro H. apply IH in H as (pre & post & -> & H2 & H3).
      exists (c :: pre), post. simpl. rewrite <- app_assoc. auto.
    + intros [= <-]. exists [], (c :: rst). simpl. rewrite E.
      repeat split. now left.
Qed.

Lemma search_none r bef rst :
  search r bef rst = None ->
  forall pre post, rst = pre ++ post -> mt r (MState (rev pre ++ bef) post []) = [].
Proof.
  revert bef. induction rst as [|c rst IH]; intros bef; simpl.
  - destruct (mt r (MState bef [] [])) eqn:E; [|discriminate].
    intros _ pre post H. symmetry in H. apply app_eq_nil in H as [-> ->]. auto.
  - destruct (mt r (MState bef (c :: rst) [])) eqn:E; [|discriminate].
    intros H [|c' pre] post Hs; simpl in *.
    + now subst.
    + injection Hs as <- ->. rewrite <- app_assoc. simpl. now apply IH.
Qed.

Lemma search_some r bef pre post y :
  In y (mt r (MState (rev pre ++ bef) post [])) ->
  search r bef (pre ++ post) <> None.
Proof.
  intros H E. eapply search_none in E; [|reflexivity]. rewrite E in H. destruct H.
Qed.

Lemma is_word_at_extend s m :
  is_word_at m = false -> is_word_at (s ++ m) = is_word_at s.
Proof. destruct s; simpl; auto. Qed.

(** A match of a pattern without [$] is still one when the input goes on
    with text that does not start with a word character. *)
Lemma mt_extend r m x y :
  no_eol r = true -> is_word_at m = false ->
  In y (mt r x) -> In (extend m y) (mt r (extend m x)).
Proof.
  intros Hr Hm. revert x y.
  assert (Hb : forall x, at_word_boundary (extend m x) = at_word_boundary x).
  { intro x. unfold at_word_boundary. simpl. now rewrite is_word_at_extend. }
  induction r; intros x y H; simpl in Hr.
  - apply mt_empty in H as ->. now apply mt_empty.
  - apply mt_atom in H as (c & rst' & H1 & H2 & ->). apply mt_atom.
    exists c, (rst' ++ m). simpl. rewrite H1. auto.
  - apply mt_rep in H as (l & H1 & H2 & H3 & H4). apply mt_rep.
    exists l. simpl. rewrite H1, <- app_assoc. auto.
  - apply andb_true_iff in Hr as [Hr1 Hr2].
    apply mt_seq in H as (z & H1 & H2). apply mt_seq. exists (extend m z). auto.
  - apply mt_group in H as (z & H1 & ->). apply mt_group.
    exists (extend m z). split; auto.
  - simpl. auto.
  - apply mt_bol in H as [H ->]. apply mt_bol. auto.
  - discriminate.
  - apply mt_wordb in H as [H ->]. apply mt_wordb. rewrite Hb. auto.
  - apply mt_notwordb in H as [H ->]. apply mt_notwordb. rewrite Hb. auto.
Qed.

Lemma exec_extend r s m :
  no_eol r = true -> is_word_at m = false ->
  exec r (s ++ m) = None -> exec r s = None.
Proof.
  intros Hr Hm H. destruct (exec r s) as [f|] eqn:E; [|reflexivity].
  exfalso. unfold exec in *.
  apply search_found in E as (pre & post & -> & Hs & Hin).
  rewrite Hs in Hin. apply (mt_extend r m _ _ Hr Hm) in Hin.
  rewrite <- app_assoc in H. revert H. eapply search_some. exact Hin.
Qed.

Ltac mt_inv H :=
  lazymatch type of H with
  | In _ (mt (RSeq _ _) _) =>
      let z := fresh "z" in let H1 := fresh "Hm" in
      apply mt_seq in H as (z & H1 & H); mt_inv H1; mt_inv H
  | In _ (mt (RAtom _) _) =>
      let c := fresh "c" in let r := fresh "r" in
      let Hr := fresh "Hr" in let Ha := fresh "Ha" in
      apply mt_atom in H as (c & r & Hr & Ha & H)
  | In _ (mt (RRep _ _ _) _) =>
      let l := fresh "l" in
      let Hr := fresh "Hr" in let Hb := fresh "Hb" in let Hc := fresh "Hc" in
      let Ha := fresh "Ha" in let Hmin := fresh "Hmin" in
      apply mt_rep in H as (l & Hr & Hb & Hc & Ha & Hmin & H)
  | In _ (mt (RGroup _ _) _) =>
      let z := fresh "z" in let H1 := fresh "Hm" in
      apply mt_group in H as (z & H1 & H); mt_inv H1
  | In ?y (mt (RNonCap ?r) ?x) => change (In y (mt r x)) in H; mt_inv H
  | In _ (mt RBol _) => apply mt_bol in H as [? H]
  | In _ (mt REol _) => apply mt_eol in H as [? H]
  | In _ (mt RWordB _) => apply mt_wordb in H as [? H]
  | In _ (mt RNotWordB _) => apply mt_notwordb in H as [? H]
  | In _ (mt REmpty _) => apply mt_empty in H
  end.

Ltac expand_re r H :=
  let e := eval vm_compute in r in change r with e in H.

(** ** Facts about the patterns of the module *)

Lemma nonempty_length (l : jsstring) : 1 <= List.length l -> l <> [].
Proof. destruct l; simpl; [lia|discriminate]. Qed.

Ltac caps_tac :=
  repeat match goal with
         | Hb : before ?y = rev ?l ++ before ?x,
           Hm : context [consumed ?x ?y] |- _ =>
             rewrite (consumed_rev x y l Hb) in Hm
         end;
  subst; simpl;
  repeat match goal with
         | H : caps _ = _ |- _ => rewrite H; simpl
         end.

Lemma RE_TAG_groups c m :
  exec RE_TAG c = Some m ->
  exists g1 g2, group 1 m = Some g1 /\ group 2 m = Some g2
                /\ g1 <> [] /\ g2 <> [].
Proof.
  intro H. apply search_found in H as (pre & post & -> & Hs & Hin).
  unfold group. destruct m as [x y]. simpl start in *. simpl stop in *.
  expand_re RE_TAG Hin. mt_inv Hin.
  exists l, l1. caps_tac. repeat split; auto using nonempty_length.
Qed.

Lemma RE_HYPERTEXT_1_groups c m :
  exec RE_HYPERTEXT_1 c = Some m ->
  exists g1 g2, group 1 m = Some g1 /\ group 2 m = Some g2
                /\ g1 <> [] /\ g2 <> [].
Proof.
  intro H. apply search_found in H as (pre & post & -> & Hs & Hin).
  unfold group. destruct m as [x y]. simpl start in *. simpl stop in *.
  expand_re RE_HYPERTEXT_1 Hin. mt_inv Hin.
  exists l, l2. caps_tac. repeat split; auto using nonempty_length.
Qed.

Lemma RE_HYPERTEXT_2_groups c m :
  exec RE_HYPERTEXT_2 c = Some m ->
  exists g1 g2, group 1 m = Some g1 /\ group 2 m = Some g2
                /\ g1 <> [] /\ g2 <> [].
Proof.
  intro H. apply search_found in H as (pre & post & -> & Hs & Hin).
  unfold group. destruct m as [x y]. simpl start in *. simpl stop in *.
  expand_re RE_HYPERTEXT_2 Hin. mt_inv Hin.
  exists l, l1. caps_tac. repeat split; auto using nonempty_length.
Qed.

Lemma space_not_word c : is_space c = true -> is_word c = false.
Proof.
  intro H. destruct (is_word c) eqn:E; [|reflexivity]. exfalso.
  unfold is_word, is_space, is_digit in *.
  repeat rewrite ?orb_true_iff, ?andb_true_iff, ?N.leb_le, ?N.eqb_eq in *.
  lia.
Qed.

(** A match of [RE_YT_PLAYLIST] is a suffix of the input that starts with
    white space or a hyphen. *)
Lemma RE_YT_PLAYLIST_found c m :
  exec RE_YT_PLAYLIST c = Some m ->
  exists sfx, c = replace RE_YT_PLAYLIST [] c ++ sfx
              /\ sfx <> [] /\ is_word_at sfx = false.
Proof.
  intro H. unfold replace. rewrite H.
  apply search_found in H as (pre & post & -> & Hs & Hin).
  destruct m as [x y]. simpl start in *. simpl stop in *.
  expand_re RE_YT_PLAYLIST Hin. mt_inv Hin.
  assert (Hc45 : c = 45%N) by (symmetry; apply N.eqb_eq; exact Ha0).
  assert (Hy : rest y = []) by (subst y; assumption).
  clear - Hs Hr Hr0 Ha Hc45 Hy.
  subst x c. simpl in *. rewrite Hy, !app_nil_r, rev_involutive.
  exists (l ++ 45%N :: r). repeat split.
  - rewrite Hr. now rewrite Hr0.
  - destruct l; discriminate.
  - destruct l as [|s l]; simpl.
    + reflexivity.
    + apply andb_true_iff in Ha as [Ha _]. now apply space_not_word.
Qed.

Lemma toLowerCase_nonempty g : g <> [] -> toLowerCase g <> [].
Proof. destruct g; simpl; [congruence|discriminate]. Qed.

Lemma truthy_nonempty g : g <> [] -> truthy (Some g) = Some g.
Proof. destruct g; simpl; [congruence|reflexivity]. Qed.

(** The contents parsed to a text alone are those no pattern but the
    trailing decoration applies to. *)
Lemma formatContent_plain c t :
  formatContent (Some c) = Return (mkContent (Some t) None None) ->
  exec RE_TAG c = None /\ test RE_PLAYLIST_CONTENT c = false
  /\ exec RE_HYPERTEXT_1 c = None /\ exec RE_HYPERTEXT_2 c = None
  /\ t = replace RE_YT_PLAYLIST [] c /\ t <> [].
Proof.
  unfold formatContent.
  destruct (exec RE_TAG c) as [m|] eqn:Etag.
  { destruct (RE_TAG_groups _ _ Etag) as (g1 & g2 & -> & -> & Hg1 & Hg2).
    destruct g1 as [|x1 g1]; [congruence|]. simpl.
    match goal with
    | |- context [let '(_, _) := ?p in _] => destruct p as [link0 content2]
    end.
    destruct (removeYouTubeKeyword content2); simpl; discriminate. }
  simpl String_match.
  destruct (exec RE_HYPERTEXT_1 c) as [m1|] eqn:E1.
  { destruct (RE_HYPERTEXT_1_groups _ _ E1) as (g1 & g2 & H1 & H2 & Hg1 & Hg2).
    simpl in H1, H2. simpl. rewrite H1, H2. simpl.
    destruct g1; [congruence|]. discriminate. }
  destruct (exec RE_HYPERTEXT_2 c) as [m2|] eqn:E2.
  { destruct (RE_HYPERTEXT_2_groups _ _ E2) as (g1 & g2 & H1 & H2 & Hg1 & Hg2).
    simpl in H1, H2. simpl. rewrite H1, H2. simpl.
    destruct g2; [congruence|]. discriminate. }
  simpl. unfold onlyTruthyValuesOnPojo. simpl.
  destruct (test RE_PLAYLIST_CONTENT c); simpl; [discriminate|].
  intro H. injection H as H.
  destruct (replace RE_YT_PLAYLIST [] c); simpl in H; [discriminate|].
  injection H as <-. repeat split; auto. discriminate.
Qed.

Lemma formatContent_plain_intro c :
  exec RE_TAG c = None -> test RE_PLAYLIST_CONTENT c = false ->
  exec RE_HYPERTEXT_1 c = None -> exec RE_HYPERTEXT_2 c = None ->
  formatContent (Some c)
  = Return (mkContent (truthy (Some (replace RE_YT_PLAYLIST [] c))) None None).
Proof.
  intros Htag Hpl H1 H2. unfold formatContent.
  rewrite Htag, Hpl. simpl. rewrite H1, H2. reflexivity.
Qed.

(** Parsing a string never throws. *)
Lemma formatContent_total c : exists r, formatContent (Some c) = Return r.
Proof.
  unfold formatContent.
  destruct (exec RE_TAG c) as [m|] eqn:Etag.
  - destruct (RE_TAG_groups _ _ Etag) as (g1 & g2 & -> & -> & Hg1 & Hg2).
    simpl String_match.
    destruct (exec RE_HYPERTEXT_1 g2) as [m1|] eqn:E1.
    + destruct (RE_HYPERTEXT_1_groups _ _ E1) as (h1 & h2 & H1 & H2 & _).
      simpl in H1, H2. simpl. rewrite H1, H2. simpl. eauto.
    + destruct (exec RE_HYPERTEXT_2 g2) as [m2|] eqn:E2.
      * destruct (RE_HYPERTEXT_2_groups _ _ E2) as (h1 & h2 & H1 & H2 & _).
        simpl in H1, H2. simpl. rewrite H1, H2. simpl. eauto.
      * simpl. eauto.
  - simpl String_match.
    destruct (exec RE_HYPERTEXT_1 c) as [m1|] eqn:E1.
    + destruct (RE_HYPERTEXT_1_groups _ _ E1) as (h1 & h2 & H1 & H2 & _).
      simpl in H1, H2. simpl. rewrite H1, H2. simpl. eauto.
    + destruct (exec RE_HYPERTEXT_2 c) as [m2|] eqn:E2.
      * destruct (RE_HYPERTEXT_2_groups _ _ E2) as (h1 & h2 & H1 & H2 & _).
        simpl in H1, H2. simpl. rewrite H1, H2. simpl. eauto.
      * simpl. eauto.
Qed.

Lemma test_extend r s m :
  no_eol r = true -> is_word_at m = false ->
  test r (s ++ m) = false -> test r s = false.
Proof.
  unfold test. intros Hr Hm H.
  destruct (exec r (s ++ m)) eqn:E; [discriminate|].
  now rewrite (exec_extend _ _ _ Hr Hm E).
Qed.

(** ** Parsing the parsed text again *)

(** C8, as the code has it.  When [formatContent] gives a text and neither
    tag nor link, that text does not contain the word "playlist", and
    parsing it again gives no tag and no link; the text it gives is the
    earlier one with one more trailing "- YouTube" decoration removed, which
    is the earlier text itself when it does not end in such a decoration. *)
Theorem formatContent_reparse_text (c t : jsstring) :
  formatContent (Some c) = Return (mkContent (Some t) None None) ->
  test RE_PLAYLIST_CONTENT t = false
  /\ formatContent (Some t)
     = Return (mkContent (truthy (Some (replace RE_YT_PLAYLIST [] t)))
                         None None)
  /\ (test RE_YT_PLAYLIST t = false ->
      formatContent (Some t) = Return (mkContent (Some t) None None)).
Proof.
  intro H.
  apply formatContent_plain in H as (Htag & Hpl & H1 & H2 & Ht & Hne).
  assert (Hsfx : exists sfx, c = t ++ sfx /\ is_word_at sfx = false).
  { destruct (exec RE_YT_PLAYLIST c) as [m|] eqn:E.
    - destruct (RE_YT_PLAYLIST_found _ _ E) as (sfx & Hc & _ & Hw).
      exists sfx. now rewrite Ht.
    - exists []. split; [|reflexivity].
      unfold replace in Ht. rewrite E in Ht. now rewrite app_nil_r. }
  destruct Hsfx as (sfx & -> & Hw).
  assert (Htag' : exec RE_TAG t = None)
    by (apply (exec_extend _ _ _ (eq_refl : no_eol RE_TAG = true) Hw Htag)).
  assert (Hpl' : test RE_PLAYLIST_CONTENT t = false)
    by (apply (test_extend _ _ _ (eq_refl : no_eol RE_PLAYLIST_CONTENT = true)
                           Hw Hpl)).
  assert (H1' : exec RE_HYPERTEXT_1 t = None)
    by (apply (exec_extend _ _ _ (eq_refl : no_eol RE_HYPERTEXT_1 = true) Hw H1)).
  assert (H2' : exec RE_HYPERTEXT_2 t = None)
    by (apply (exec_extend _ _ _ (eq_refl : no_eol RE_HYPERTEXT_2 = true) Hw H2)).
  split; [exact Hpl'|].
  split; [now apply formatContent_plain_intro|].
  intro Hyt. rewrite (formatContent_plain_intro _ Htag' Hpl' H1' H2').
  unfold test in Hyt. unfold replace.
  destruct (exec RE_YT_PLAYLIST t); [discriminate|].
  destruct t; [congruence|reflexivity].
Qed.

Lemma formatContent_reparse_text_witness :
  formatContent (Some (lit "a - YouTube"))
  = Return (mkContent (Some (lit "a")) None None) /\
  (test RE_PLAYLIST_CONTENT (lit "a") = false
   /\ formatContent (Some (lit "a"))
      = Return (mkContent (truthy (Some (replace RE_YT_PLAYLIST [] (lit "a"))))
                          None None)
   /\ (test RE_YT_PLAYLIST (lit "a") = false ->
       formatContent (Some (lit "a"))
       = Return (mkContent (Some (lit "a")) None None))).
Proof.
  split.
  - vm_compute. reflexivity.
  - apply (formatContent_reparse_text (lit "a - YouTube") (lit "a")).
    vm_compute. reflexivity.
Defined.

(** C8, as stated, fails: a content that ends in two decorations parses to
    a text that still ends in one, which the second parse removes. *)
Lemma formatContent_reparse_changes_text :
  ~ (forall c t : jsstring,
       formatContent (Some c) = Return (mkContent (Some t) None None) ->
       test RE_PLAYLIST_CONTENT t = false ->
       formatContent (Some t) = Return (mkContent (Some t) None None)).
Proof.
  intro H.
  specialize (H (lit "a - YouTube - YouTube") (lit "a - YouTube")).
  vm_compute in H. specialize (H eq_refl eq_refl). discriminate H.
Qed.

(** ** The first match *)

Lemma heads_seq r1 r2 x z y :
  heads r1 x z -> heads r2 z y -> heads (RSeq r1 r2) x y.
Proof.
  intros [l1 H1] [l2 H2]. unfold heads. simpl. rewrite H1. simpl.
  rewrite H2. simpl. eauto.
Qed.

Lemma heads_group i r x z :
  heads r x z -> heads (RGroup i r) x (set_cap i (consumed x z) z).
Proof. intros [l H]. unfold heads. simpl. rewrite H. simpl. eauto. Qed.

Lemma heads_noncap r x y : heads r x y -> heads (RNonCap r) x y.
Proof. auto. Qed.

Lemma heads_atom a x c rst :
  rest x = c :: rst -> atom_mem a c = true ->
  heads (RAtom a) x (MState (c :: before x) rst (caps x)).
Proof. intros H1 H2. unfold heads. simpl. rewrite H1, H2. eauto. Qed.

Lemma heads_bol x : before x = [] -> heads RBol x x.
Proof. intro H. unfold heads. simpl. rewrite H. eauto. Qed.

Lemma heads_notwordb x : at_word_boundary x = false -> heads RNotWordB x x.
Proof. intro H. unfold heads. simpl. rewrite H. eauto. Qed.

(** A run of members is taken whole before any shorter run is tried. *)
Lemma rep_app a min bef l rst :
  forallb (atom_mem a) l = true ->
  exists tl, rep a min None bef (l ++ rst)
             = rep a (min - List.length l) None (rev l ++ bef) rst ++ tl.
Proof.
  revert min bef. induction l as [|c l IH]; intros min bef H.
  - exists []. simpl. now rewrite Nat.sub_0_r, app_nil_r.
  - simpl in H. apply andb_true_iff in H as [Hc Hl].
    destruct (IH (pred min) (c :: bef) Hl) as [tl Htl].
    simpl. rewrite Hc. simpl. rewrite Htl.
    replace (pred min - List.length l) with (min - S (List.length l)) by lia.
    rewrite <- !app_assoc. simpl. eauto.
Qed.

Lemma rep_stop a bef rst :
  stops_at a rst -> rep a 0 None bef rst = [(bef, rst)].
Proof.
  destruct rst as [|c rst]; simpl; [reflexivity|]. now intros ->.
Qed.

Lemma heads_rep a min x l rst :
  rest x = l ++ rst -> forallb (atom_mem a) l = true ->
  min <= List.length l -> stops_at a rst ->
  heads (RRep a min None) x (MState (rev l ++ before x) rst (caps x)).
Proof.
  intros Hx Hl Hmin Hstop. unfold heads. simpl. rewrite Hx.
  destruct (rep_app a min (before x) l rst Hl) as [tl ->].
  replace (min - List.length l) with 0 by lia.
  rewrite (rep_stop _ _ _ Hstop). simpl. eauto.
Qed.

Lemma search_head r s y :
  heads r (MState [] s []) y -> exec r s = Some (Found (MState [] s []) y).
Proof.
  intros [l H]. unfold exec. destruct s; simpl; now rewrite H.
Qed.

Lemma search_none_intro r bef rst :
  (forall pre post, rst = pre ++ post ->
                    mt r (MState (rev pre ++ bef) post []) = []) ->
  search r bef rst = None.
Proof.
  revert bef. induction rst as [|c rst IH]; intros bef H; simpl.
  - pose proof (H [] [] eq_refl) as H0. simpl in H0. now rewrite H0.
  - pose proof (H [] (c :: rst) eq_refl) as H0. simpl in H0. rewrite H0.
    apply IH.
    intros pre post ->. specialize (H (c :: pre) post eq_refl).
    simpl in H. now rewrite <- app_assoc in H.
Qed.

Lemma no_match_nil r x : (forall y, ~ In y (mt r x)) -> mt r x = [].
Proof.
  intro H. destruct (mt r x) as [|y l]; [reflexivity|].
  exfalso. apply (H y). now left.
Qed.

(** [RE_TAG] needs an opening brace first. *)
Lemma RE_TAG_needs_brace c :
  match c with x :: _ => x <> 123%N | [] => True end ->
  exec RE_TAG c = None.
Proof.
  intro Hc. apply search_none_intro. intros pre post ->.
  apply no_match_nil. intros y Hin.
  expand_re RE_TAG Hin.
  apply mt_seq in Hin as (z & Hb & Hin). apply mt_bol in Hb as [Hb ->].
  apply mt_seq in Hin as (z & Ha & _).
  apply mt_atom in Ha as (x & rst & Hr & Hx & _).
  simpl in Hb, Hr. rewrite app_nil_r in Hb.
  assert (pre = []) as -> by (destruct pre; [reflexivity|]; simpl in Hb;
                              apply app_eq_nil in Hb as [_ Hb]; discriminate).
  simpl in Hr. subst post. change ((123 =? x)%N = true) in Hx.
  apply N.eqb_eq in Hx. congruence.
Qed.

(** ** The first hypertext form *)

Lemma heads_dot_paren z inner :
  rest z = inner ++ [41%N] -> inner <> [] ->
  forallb (atom_mem ADot) inner = true ->
  heads (RSeq (RGroup 2 (RRep ADot 1 None)) (RAtom (AIs (CLit 41%N)))) z
        (MState (41%N :: rev inner ++ before z) [] ((2, inner) :: caps z)).
Proof.
  intros Hz Hne Hdot. unfold heads. simpl. rewrite Hz.
  destruct (rep_app ADot 1 (before z) inner [41%N] Hdot) as [tl ->].
  replace (1 - List.length inner) with 0
    by (destruct inner; [congruence|simpl; lia]).
  simpl. unfold set_cap. simpl.
  rewrite (consumed_rev z (MState (rev inner ++ before z) [41%N] (caps z))
                        inner eq_refl).
  eauto.
Qed.

Lemma space_stops_token w rst :
  is_space w = true -> stops_at (ANoneOf [CLit 40%N; CSpace]) (w :: rst).
Proof. intro H. simpl. rewrite H. now rewrite orb_true_r. Qed.

(** On [tok ws (inner)] the pattern captures the token before the white
    space and what the parentheses enclose. *)
Lemma RE_HYPERTEXT_1_exec tok ws inner :
  tok <> [] -> forallb (atom_mem (ANoneOf [CLit 40%N; CSpace])) tok = true ->
  ws <> [] -> forallb is_space ws = true ->
  inner <> [] -> forallb (atom_mem ADot) inner = true ->
  exists m,
    exec RE_HYPERTEXT_1 (tok ++ ws ++ 40%N :: inner ++ [41%N]) = Some m
    /\ group 1 m = Some tok /\ group 2 m = Some inner.
Proof.
  intros Htok Htoks Hws Hwss Hinner Hdots.
  set (s := tok ++ ws ++ 40%N :: inner ++ [41%N]).
  set (x0 := MState [] s []).
  set (x1 := MState (rev tok ++ []) (ws ++ 40%N :: inner ++ [41%N]) []).
  set (x1' := set_cap 1 (consumed x0 x1) x1).
  set (x2 := MState (rev ws ++ before x1') (40%N :: inner ++ [41%N]) (caps x1')).
  set (x3 := MState (40%N :: before x2) (inner ++ [41%N]) (caps x2)).
  set (y := MState (41%N :: rev inner ++ before x3) [] ((2, inner) :: caps x3)).
  assert (H : heads RE_HYPERTEXT_1 x0 y).
  { let e := eval vm_compute in RE_HYPERTEXT_1 in change RE_HYPERTEXT_1 with e.
    apply heads_seq with (z := x0); [now apply heads_bol|].
    apply heads_seq with (z := x1').
    { apply heads_group.
      apply (heads_rep _ 1 x0 tok (ws ++ 40%N :: inner ++ [41%N]));
        auto.
      - destruct tok; [congruence|simpl; lia].
      - destruct ws as [|w ws]; [congruence|].
        simpl in Hwss. apply andb_true_iff in Hwss as [Hw _].
        now apply space_stops_token. }
    apply heads_seq with (z := x2).
    { apply (heads_rep _ 1 x1' ws (40%N :: inner ++ [41%N])); auto.
      - destruct ws; [congruence|simpl; lia].
      - reflexivity. }
    apply heads_seq with (z := y); [|now apply heads_notwordb].
    apply heads_noncap.
    apply heads_seq with (z := x2).
    { apply (heads_rep _ 0 x2 [] (40%N :: inner ++ [41%N])); auto.
      reflexivity. }
    apply heads_seq with (z := x3).
    { apply (heads_atom _ x2 40%N (inner ++ [41%N])); reflexivity. }
    apply heads_dot_paren; auto. }
  exists (Found x0 y). split; [now apply search_head|].
  split.
  - simpl. unfold x1'. simpl. rewrite (consumed_rev x0 x1 tok eq_refl).
    reflexivity.
  - reflexivity.
Qed.

(** C1, as the code has it.  For a content [tok ws (inner)] — a leading
    token [tok] without parenthesis or white space that does not open a tag,
    white space, and a parenthesised part [inner] that ends the content —
    [formatContent] returns the leading token as the link and the
    parenthesised part, less a trailing "- YouTube" decoration, as the text;
    so that "Doc (http://x)" gives the link "Doc" and the text
    "http://x". *)
Theorem formatContent_hypertext_1 (tok ws inner : jsstring) :
  tok <> [] ->
  forallb (fun c => negb (char_eqb 40%N c || is_space c)) tok = true ->
  hd_error tok <> Some 123%N ->
  ws <> [] -> forallb is_space ws = true ->
  inner <> [] ->
  forallb (fun c => negb (is_line_terminator c)) inner = true ->
  exists r,
    formatContent (Some (tok ++ ws ++ lit "(" ++ inner ++ lit ")")) = Return r
    /\ link r = Some tok
    /\ text r = truthy (Some (replace RE_YT_PLAYLIST [] inner)).
Proof.
  intros Htok Htoks Hbrace Hws Hwss Hinner Hdots.
  assert (Htoks' : forallb (atom_mem (ANoneOf [CLit 40%N; CSpace])) tok = true).
  { rewrite <- Htoks. clear. induction tok as [|c tok IH]; simpl; [reflexivity|].
    now rewrite IH, orb_false_r. }
  destruct (RE_HYPERTEXT_1_exec tok ws inner Htok Htoks' Hws Hwss Hinner Hdots)
    as (m & Hm & Hg1 & Hg2).
  change (lit "(" ++ inner ++ lit ")") with (40%N :: inner ++ [41%N]).
  unfold formatContent.
  rewrite RE_TAG_needs_brace.
  2:{ destruct tok as [|x tok]; [congruence|]. simpl. simpl in Hbrace.
      congruence. }
  simpl String_match. rewrite Hm.
  simpl in Hg1, Hg2. simpl. rewrite Hg1, Hg2. simpl.
  eexists. split; [reflexivity|]. simpl.
  split; [now destruct tok|reflexivity].
Qed.

Lemma formatContent_hypertext_1_witness :
  exists r,
    formatContent (Some (lit "Doc" ++ lit " " ++ lit "(" ++ lit "http://x"
                         ++ lit ")")) = Return r
    /\ link r = Some (lit "Doc")
    /\ text r = truthy (Some (replace RE_YT_PLAYLIST [] (lit "http://x"))).
Proof.
  apply (formatContent_hypertext_1 (lit "Doc") (lit " ") (lit "http://x"));
    try reflexivity; vm_compute; discriminate.
Defined.

(** C1, as stated, fails on its own example: the text and the link are the
    other way round. *)
Lemma formatContent_doc_swapped :
  formatContent (Some (lit "Doc (http://x)"))
  = Return (mkContent (Some (lit "http://x")) None (Some (lit "Doc")))
  /\ formatContent (Some (lit "Doc (http://x)"))
     <> Return (mkContent (Some (lit "Doc")) None (Some (lit "http://x"))).
Proof.
  split; vm_compute; [reflexivity|discriminate].
Qed.

(** ** The date of a task *)

Lemma formatDate_digits y1 y2 y3 y4 m1 m2 d1 d2 (tail : jsstring) :
  is_digit y1 = true -> is_digit y2 = true -> is_digit y3 = true ->
  is_digit y4 = true -> is_digit m1 = true -> is_digit m2 = true ->
  is_digit d1 = true -> is_digit d2 = true ->
  formatDate (Some ([y1; y2; y3; y4] ++ lit "-" ++ [m1; m2] ++ lit "-"
                    ++ [d1; d2] ++ tail))
  = Return ([m1; m2] ++ lit " " ++ [y1; y2; y3; y4] ++ lit ", " ++ [d1; d2]).
Proof.
  intros Hy1 Hy2 Hy3 Hy4 Hm1 Hm2 Hd1 Hd2.
  unfold formatDate, exec. destruct tail as [|t0 tail];
  repeat (progress (cbn -[is_digit];
                    rewrite ?Hy1, ?Hy2, ?Hy3, ?Hy4, ?Hm1, ?Hm2, ?Hd1, ?Hd2,
                            ?andb_false_r));
    reflexivity.
Qed.

Lemma formatDate_renders (yyyy mm dd tail : jsstring) :
  List.length yyyy = 4 -> List.length mm = 2 -> List.length dd = 2 ->
  forallb is_digit (yyyy ++ mm ++ dd) = true ->
  formatDate (Some (yyyy ++ lit "-" ++ mm ++ lit "-" ++ dd ++ tail))
  = Return (mm ++ lit " " ++ yyyy ++ lit ", " ++ dd).
Proof.
  intros Hy Hm Hd Hdig.
  destruct yyyy as [|y1 [|y2 [|y3 [|y4 [|]]]]]; try discriminate.
  destruct mm as [|m1 [|m2 [|]]]; try discriminate.
  destruct dd as [|d1 [|d2 [|]]]; try discriminate.
  simpl in Hdig.
  repeat match goal with
         | H : _ && _ = true |- _ => apply andb_true_iff in H as [? H]
         end.
  now apply formatDate_digits.
Qed.

(** C2, what the code does.  For an item whose [date_added] begins with
    YYYY-MM-DD, [formatItem] gives a task whose [dateAdded] is the month,
    then the four-digit year, then a comma and the day: the pattern
    captures year, month and day in this order and [formatDate] binds them
    to the names [day], [month] and [year]. *)
Theorem formatItem_dateAdded (item : Item.t) (yyyy mm dd tail : jsstring) :
  List.length yyyy = 4 -> List.length mm = 2 -> List.length dd = 2 ->
  forallb is_digit (yyyy ++ mm ++ dd) = true ->
  Item.date_added item = yyyy ++ lit "-" ++ mm ++ lit "-" ++ dd ++ tail ->
  exists task,
    formatItem item = Return task
    /\ Task.dateAdded task = mm ++ lit " " ++ yyyy ++ lit ", " ++ dd.
Proof.
  intros Hy Hm Hd Hdig Hdate. unfold formatItem.
  rewrite Hdate, (formatDate_renders _ _ _ _ Hy Hm Hd Hdig).
  destruct (formatContent_total (Item.content item)) as [r ->].
  simpl. eauto.
Qed.

Lemma formatItem_dateAdded_witness :
  exists task,
    formatItem (Item.mk 1 None None (lit "Buy milk") 0
                        (lit "2019-07-15T10:00:00Z") 1)
    = Return task
    /\ Task.dateAdded task
       = lit "07" ++ lit " " ++ lit "2019" ++ lit ", " ++ lit "15".
Proof.
  apply (formatItem_dateAdded
           (Item.mk 1 None None (lit "Buy milk") 0
                    (lit "2019-07-15T10:00:00Z") 1)
           (lit "2019") (lit "07") (lit "15") (lit "T10:00:00Z"));
    reflexivity.
Defined.

(** ** The item filter *)

Lemma RE_IGNORE_ITEM_glyph (body : jsstring) :
  test RE_IGNORE_ITEM (body ++ [IGNORE_GLYPH]) = true.
Proof.
  unfold test, exec.
  destruct (search RE_IGNORE_ITEM [] (body ++ [IGNORE_GLYPH])) eqn:E;
    [reflexivity|].
  pose proof (search_none _ _ _ E body [IGNORE_GLYPH] eq_refl) as H.
  discriminate H.
Qed.

Lemma test_true_iff r c :
  test r c = true <->
  exists pre post y, c = pre ++ post /\ In y (mt r (MState (rev pre) post [])).
Proof.
  unfold test, exec. split.
  - destruct (search r [] c) as [m|] eqn:E; [|discriminate]. intros _.
    apply search_found in E as (pre & post & -> & Hs & Hin).
    rewrite Hs, app_nil_r in Hin. eauto.
  - intros (pre & post & y & -> & Hin).
    destruct (search r [] (pre ++ post)) eqn:E; [reflexivity|].
    exfalso. revert E. apply (search_some r [] pre post y).
    now rewrite app_nil_r.
Qed.

(** [RE_CATEGORY_ITEM] holds of the contents that end in a colon. *)
Lemma RE_CATEGORY_ITEM_spec c :
  test RE_CATEGORY_ITEM c = true <-> exists body, c = body ++ lit ":".
Proof.
  rewrite test_true_iff. split.
  - intros (pre & post & y & -> & Hin).
    expand_re RE_CATEGORY_ITEM Hin. mt_inv Hin.
    change ((58 =? c)%N = true) in Ha. apply N.eqb_eq in Ha. subst c z y.
    simpl in Hr, H. subst r post. exists pre. reflexivity.
  - intros [body ->]. exists body, (lit ":"). eexists. split; [reflexivity|].
    simpl. left. reflexivity.
Qed.

(** [RE_IGNORE_ITEM] holds of the contents that end in the ignore glyph,
    or in the glyph and a colon. *)
Lemma RE_IGNORE_ITEM_spec c :
  test RE_IGNORE_ITEM c = true <->
  exists body, c = body ++ [IGNORE_GLYPH]
               \/ c = body ++ [IGNORE_GLYPH] ++ lit ":".
Proof.
  rewrite test_true_iff. split.
  - intros (pre & post & y & -> & Hin).
    expand_re RE_IGNORE_ITEM Hin. mt_inv Hin.
    change ((10006 =? c)%N = true) in Ha. apply N.eqb_eq in Ha. subst c z y.
    simpl in Hr, Hr0. rewrite H, app_nil_r in Hr0. subst r post.
    exists pre. destruct l as [|x [|x' l]].
    + left. reflexivity.
    + right. simpl in Ha0. rewrite andb_true_r in Ha0.
      change ((58 =? x)%N = true) in Ha0. apply N.eqb_eq in Ha0 as <-.
      reflexivity.
    + specialize (Hm0 1 eq_refl). simpl in Hm0. lia.
  - intros [body [->| ->]].
    + exists body, [IGNORE_GLYPH]. eexists. split; [reflexivity|].
      simpl. left. reflexivity.
    + exists body, ([IGNORE_GLYPH] ++ lit ":"). eexists.
      split; [reflexivity|]. simpl. left. reflexivity.
Qed.

(** C3.  For the items A (at the root), B (under A, its content ending in
    the ignore glyph), C (under B) and D (at the root), in this order, in
    one section the map knows, where A, C and D carry no marker and A and D
    format to the tasks [tA] and [tD]: the filter returns the tasks of A and
    D, in this order, and no category. *)
Theorem formatProjectItems_skips_ignored_subtree
    (A B C D : Item.t) (body : jsstring) (section : option Z)
    (sectionsNameById : SectionMap) (tA tD : Task.t) :
  Item.parent_id A = None ->
  Item.parent_id B = Some (Item.id A) ->
  Item.parent_id C = Some (Item.id B) ->
  Item.parent_id D = None ->
  Item.content B = body ++ [IGNORE_GLYPH] ->
  (forall X, In X [A; C; D] ->
             test RE_IGNORE_ITEM (Item.content X) = false
             /\ test RE_CATEGORY_ITEM (Item.content X) = false) ->
  (forall X, In X [A; B; C; D] -> Item.section_id X = section) ->
  Obj.has (propertyKey section) sectionsNameById = true ->
  formatItem A = Return tA ->
  formatItem D = Return tD ->
  formatProjectItems [A; B; C; D] (Some sectionsNameById)
  = Return ([tA; tD], []).
Proof.
  intros HpA HpB HpC HpD HcB Hplain Hsec Hhas HfA HfD.
  destruct (Hplain A) as [HiA HkA]; [simpl; auto|].
  destruct (Hplain C) as [HiC HkC]; [simpl; auto|].
  destruct (Hplain D) as [HiD HkD]; [simpl; auto|].
  unfold formatProjectItems, filterItems, filterItem.
  rewrite !Hsec by (simpl; auto).
  rewrite Hhas, HiA, HkA, HpA, HfA. simpl.
  rewrite HcB, RE_IGNORE_ITEM_glyph. simpl.
  rewrite HiC, HkC, HpC. simpl. rewrite Z.eqb_refl. simpl.
  rewrite HiD, HkD, HpD, HfD. reflexivity.
Qed.

Lemma formatProjectItems_skips_ignored_subtree_witness :
  formatProjectItems [Sample.A; Sample.B; Sample.C; Sample.D] (Some rootOnly)
  = Return ([Sample.task 1 None (lit "Write report");
             Sample.task 4 None (lit "Buy milk")], []).
Proof.
  apply (formatProjectItems_skips_ignored_subtree
           Sample.A Sample.B Sample.C Sample.D (lit "Old notes ") None);
    try reflexivity.
  - intros X H. simpl in H.
    destruct H as [H|[H|[H|[]]]]; subst X; split; reflexivity.
  - intros X H. simpl in H.
    destruct H as [H|[H|[H|[H|[]]]]]; subst X; reflexivity.
Defined.

Lemma formatItem_id item task :
  formatItem item = Return task -> Task.id task = Item.id item.
Proof.
  unfold formatItem, bind.
  destruct (formatDate (Some (Item.date_added item))); [|intros [=]].
  destruct (formatContent (Some (Item.content item))); [|intros [=]].
  intro H. injection H as H. subst task. reflexivity.
Qed.

(** What one iteration does to the two lists. *)
Lemma filterItem_lists sm st item st' :
  filterItem sm st item = Return st' ->
  categoryIds st'
  = categoryIds st ++ (if is_marker sm item then [Item.id item] else [])
  /\ ((selectedTasks st' = selectedTasks st)
      \/ exists task, formatItem item = Return task
                      /\ selectedTasks st' = selectedTasks st ++ [task]
                      /\ is_marker sm item = false).
Proof.
  unfold filterItem, is_marker.
  destruct (Obj.has (propertyKey (Item.section_id item)) sm); cbn [negb andb];
    [|intros [= <-]; rewrite app_nil_r; auto].
  destruct (test RE_IGNORE_ITEM (Item.content item)); cbn [negb andb];
    [intros [= <-]; rewrite app_nil_r; auto|].
  destruct (test RE_CATEGORY_ITEM (Item.content item)).
  - rewrite orb_true_r. cbn [negb bind]. intros [= <-]. cbn. auto.
  - rewrite orb_false_r.
    destruct (loose_eq (Item.parent_id item) (lastSkippedParentId st));
      cbn [negb bind].
    + intros [= <-]. cbn. rewrite app_nil_r. auto.
    + destruct (formatItem item) as [task|] eqn:E; cbn [bind]; [|intros [=]].
      intros [= <-]. cbn. rewrite app_nil_r. split; [reflexivity|]. right.
      exists task. auto.
Qed.

(** The loop: the category ids are those of the markers, in order, and
    the tasks are the formats of items that are kept, none a marker. *)
Lemma filterItems_lists sm items :
  forall st st',
    filterItems sm items st = Return st' ->
    categoryIds st'
    = categoryIds st ++ map Item.id (filter (is_marker sm) items)
    /\ exists kept tasks,
         subseq kept items
         /\ Forall (fun item => is_marker sm item = false) kept
         /\ Forall2 (fun item task => formatItem item = Return task) kept tasks
         /\ selectedTasks st' = selectedTasks st ++ tasks.
Proof.
  induction items as [|item items IH]; intros st st'; cbn [filterItems].
  - intros [= <-]. split; [cbn; now rewrite app_nil_r|].
    exists [], []. rewrite app_nil_r. repeat split; constructor.
  - destruct (filterItem sm st item) as [st1|] eqn:E; cbn [bind];
      [|intros [=]].
    intro H. apply IH in H as (Hc & kept & tasks & Hsub & Hkept & Hfmt & Ht).
    apply filterItem_lists in E as [Ec Et]. split.
    + rewrite Hc, Ec, <- app_assoc. cbn [filter].
      destruct (is_marker sm item); reflexivity.
    + destruct Et as [Et|(task & Ef & Et & Hm)].
      * exists kept, tasks. rewrite Ht, Et.
        repeat split; auto. now constructor.
      * exists (item :: kept), (task :: tasks). rewrite Ht, Et, <- app_assoc.
        repeat split; auto; now constructor.
Qed.

Lemma subseq_in {B} (l1 l2 : list B) (x : B) :
  subseq l1 l2 -> In x l1 -> In x l2.
Proof.
  induction 1; simpl; intuition.
Qed.

Lemma NoDup_ids_inj (items : list Item.t) (a b : Item.t) :
  NoDup (map Item.id items) -> In a items -> In b items ->
  Item.id a = Item.id b -> a = b.
Proof.
  induction items as [|x items IH]; simpl; [tauto|].
  intros Hnd Ha Hb Hid. inversion Hnd as [|? ? Hx Hnd']; subst.
  destruct Ha as [<-|Ha], Hb as [<-|Hb]; auto.
  - exfalso. apply Hx. rewrite Hid. now apply in_map.
  - exfalso. apply Hx. rewrite <- Hid. now apply in_map.
Qed.

(** C4, as the code has it.  For every list of items and every map, the
    returned category ids are the ids of the items that pass the section
    check, are not marked to be ignored and whose content ends in a colon,
    in order; the returned tasks are the formats of items of the list, none
    of them such an item; and, when the ids of the items are pairwise
    distinct, no id of a returned task is among the category ids. *)
Theorem categoryIds_disjoint_from_tasks
    (items : list Item.t) (sectionsNameById : option SectionMap)
    (tasks : list Task.t) (cats : list Z) :
  formatProjectItems items sectionsNameById = Return (tasks, cats) ->
  let sm := match sectionsNameById with Some m => m | None => rootOnly end in
  cats = map Item.id (filter (is_marker sm) items)
  /\ (exists kept,
        subseq kept items
        /\ Forall (fun item => is_marker sm item = false) kept
        /\ Forall2 (fun item task => formatItem item = Return task) kept tasks)
  /\ (NoDup (map Item.id items) ->
      forall t, In t tasks -> ~ In (Task.id t) cats).
Proof.
  intros H sm. unfold formatProjectItems in H. fold sm in H.
  destruct (filterItems sm items (mkFilter [] [] NIL)) as [st|] eqn:E;
    cbn [bind] in H; [|discriminate].
  injection H as <- <-.
  apply filterItems_lists in E as (Hc & kept & ts & Hsub & Hkept & Hfmt & Ht).
  cbn in Hc, Ht. subst ts. split; [exact Hc|]. split; [eauto|].
  intros Hnd t Hin Hcat. rewrite Hc in Hcat.
  apply in_map_iff in Hcat as (y & Hid & Hy).
  apply filter_In in Hy as [Hy Hmy].
  assert (Hx : exists x, In x kept /\ formatItem x = Return t).
  { clear - Hfmt Hin. induction Hfmt as [|x t' kept ts Hf _ IH]; [destruct Hin|].
    destruct Hin as [->|Hin]; [exists x; simpl; auto|].
    destruct (IH Hin) as (x' & Hx' & Hf'). exists x'. simpl. auto. }
  destruct Hx as (x & Hx & Hf).
  assert (Hxm : is_marker sm x = false)
    by (rewrite Forall_forall in Hkept; now apply Hkept).
  assert (x = y).
  { apply (NoDup_ids_inj items); auto.
    - now apply (subseq_in kept items).
    - rewrite <- (formatItem_id x t Hf). now rewrite Hid. }
  subst y. congruence.
Qed.

Lemma categoryIds_disjoint_from_tasks_witness :
  let items := [Sample.item 1 None (lit "Errands:");
                Sample.item 2 (Some 1%Z) (lit "Buy milk")] in
  let tasks := [Sample.task 2 (Some 1%Z) (lit "Buy milk")] in
  let cats := [1%Z] in
  cats = map Item.id (filter (is_marker rootOnly) items)
  /\ (exists kept,
        subseq kept items
        /\ Forall (fun item => is_marker rootOnly item = false) kept
        /\ Forall2 (fun item task => formatItem item = Return task) kept tasks)
  /\ (NoDup (map Item.id items) ->
      forall t, In t tasks -> ~ In (Task.id t) cats).
Proof.
  apply (categoryIds_disjoint_from_tasks
           [Sample.item 1 None (lit "Errands:");
            Sample.item 2 (Some 1%Z) (lit "Buy milk")] None).
  vm_compute. reflexivity.
Defined.

(** C4, as stated, fails for a list that repeats an id: the id of the
    category is also the id of a task. *)
Lemma categoryIds_meet_tasks_on_repeated_id :
  ~ (forall (items : list Item.t) (sectionsNameById : option SectionMap)
            (tasks : list Task.t) (cats : list Z),
       formatProjectItems items sectionsNameById = Return (tasks, cats) ->
       forall t, In t tasks -> ~ In (Task.id t) cats).
Proof.
  intro H.
  apply (H [Sample.item 1 None (lit "Errands:");
            Sample.item 1 None (lit "Buy milk")] None
           [Sample.task 1 None (lit "Buy milk")] [1%Z] eq_refl
           (Sample.task 1 None (lit "Buy milk"))); simpl; auto.
Qed.

(** ** The section map *)

Lemma set_keeps_sentinel (z : Z) (v : SectionName) (m : SectionMap) :
  Obj.set (Number_toString z) v ((lit "null", RootName ROOT_SECTION) :: m)
  = (lit "null", RootName ROOT_SECTION) :: Obj.set (Number_toString z) v m.
Proof.
  simpl Obj.set.
  now rewrite (str_eqb_neq _ _ (Number_toString_not_null z)).
Qed.

Lemma addSection_keeps_sentinel (m : SectionMap) (section : SectionRec.t) :
  exists m',
    addSection ((lit "null", RootName ROOT_SECTION) :: m) section
    = Return ((lit "null", RootName ROOT_SECTION) :: m').
Proof.
  unfold addSection.
  destruct (test RE_IGNORE_SECTION (trim (SectionRec.name section)));
    cbn [negb].
  - eauto.
  - destruct (formatContent_total (SectionRec.name section)) as [r ->].
    unfold bind. rewrite set_keeps_sentinel. eauto.
Qed.

Lemma reduce_keeps_sentinel (sections : list SectionRec.t) (m : SectionMap) :
  exists m',
    reduce addSection sections ((lit "null", RootName ROOT_SECTION) :: m)
    = Return ((lit "null", RootName ROOT_SECTION) :: m').
Proof.
  revert m. induction sections as [|section sections IH]; intro m; simpl.
  - eauto.
  - destruct (addSection_keeps_sentinel m section) as [m1 ->]. simpl.
    apply IH.
Qed.

(** C7.  Whatever sections the "sync" request returns and whatever the
    project filter, the map [getSectionsGroupedByProjectId] resolves to has
    the sentinel key as its first entry, mapped to the root label: no
    section record excludes, removes or overwrites it.  With no section it
    is the map of the sentinel alone, which is also the map
    [formatProjectItems] uses when it is given none. *)
Theorem sentinel_root_section (sections : list SectionRec.t) (projectId : Z) :
  (exists m : SectionMap,
     getSectionsGroupedByProjectId (Some (Fulfilled sections)) projectId
     = Some (Fulfilled ((lit "null", RootName ROOT_SECTION) :: m))
     /\ Obj.get (lit "null") ((lit "null", RootName ROOT_SECTION) :: m)
        = Some (RootName ROOT_SECTION))
  /\ getSectionsGroupedByProjectId (Some (Fulfilled [])) projectId
     = Some (Fulfilled rootOnly)
  /\ (forall items : list Item.t,
        formatProjectItems items None
        = formatProjectItems items (Some rootOnly)).
Proof.
  split; [|split].
  - unfold getSectionsGroupedByProjectId, _getSections, then_.
    set (kept := if negb (projectId =? 0)%Z
                 then filter (fun section =>
                                (SectionRec.project_id section =? projectId)%Z)
                             sections
                 else sections).
    assert (Hk : (if negb (projectId =? 0)%Z
                  then Return (filter (fun section =>
                                (SectionRec.project_id section =? projectId)%Z)
                             sections)
                  else Return sections) = Return kept)
      by (unfold kept; destruct (negb (projectId =? 0)%Z); reflexivity).
    rewrite Hk.
    destruct (reduce_keeps_sentinel kept []) as [m Hm].
    unfold rootOnly. rewrite Hm. exists m. split; reflexivity.
  - unfold getSectionsGroupedByProjectId, _getSections, then_.
    destruct (negb (projectId =? 0)%Z); reflexivity.
  - reflexivity.
Qed.

(** ** The archive fan-out without a section map *)

(** C9.  Called with an undefined [sectionsNameById],
    [getProjectArchivedTasks] throws a TypeError instead of returning a
    promise, and no query has been issued. *)
Theorem getProjectArchivedTasks_undefined_sections
    (server : Params -> Promise Page.t) (fuel : nat) (order : list nat)
    (projectId : Z) (parentIds : option (list Z)) :
  getProjectArchivedTasks server fuel order projectId None parentIds
  = (Throw TypeError, []).
Proof. reflexivity. Qed.

(** ** Pagination of one query *)

Lemma set_set {V} (k : jsstring) (v1 v2 : V) (o : Obj.JSObject V) :
  Obj.set k v2 (Obj.set k v1 o) = Obj.set k v2 o.
Proof.
  induction o as [|[k' v'] o IH]; simpl.
  - now rewrite str_eqb_refl.
  - destruct (str_eqb k k') eqn:E; simpl; rewrite E; [reflexivity|].
    now rewrite IH.
Qed.

Section Loop.

Context {W : Type}.
Variable post : Params -> W -> Promise Page.t * W.

Lemma fetchAllPages_done fuel params data w :
  Page.has_more data = false ->
  fetchAllPages post fuel params data w = (Some (Fulfilled data), w).
Proof. intro H. destruct fuel; simpl; now rewrite H. Qed.

Lemma fetchAllPages_step fuel params data w nextData w' :
  Page.has_more data = true ->
  post (Obj.set (lit "cursor") (Page.next_cursor data) params) w
  = (Some (Fulfilled nextData), w') ->
  fetchAllPages post (S fuel) params data w
  = fetchAllPages post fuel
      (Obj.set (lit "cursor") (Page.next_cursor data) params)
      (Page.mk (Page.items data ++ Page.items nextData)
               (Page.has_more nextData) (Page.next_cursor nextData))
      w'.
Proof. intros H Hpost. simpl. now rewrite H, Hpost. Qed.

Lemma fetchAllPages_rejected fuel params data w e w' :
  Page.has_more data = true ->
  post (Obj.set (lit "cursor") (Page.next_cursor data) params) w
  = (Some (Rejected e), w') ->
  fetchAllPages post (S fuel) params data w = (Some (Rejected e), w').
Proof. intros H Hpost. simpl. now rewrite H, Hpost. Qed.

End Loop.

Lemma Replay_post_next params response script log :
  Replay.post params (Replay.mk (response :: script) log)
  = (Some response, Replay.mk script (log ++ [params])).
Proof. reflexivity. Qed.

(** The loop, from a page that announces more: it fetches one page per
    page that announces more, each with the cursor of the page before, and
    ends on the first page that does not. *)
Lemma fetchAllPages_replay (pages : list Page.t) :
  forall (last : Page.t) (later : list (settled Page.t)) (fuel : nat)
         (params : Params) (data : Page.t) (log : list Params),
    Page.has_more data = true ->
    (forall p, In p pages -> Page.has_more p = true) ->
    Page.has_more last = false ->
    List.length pages < fuel ->
    fetchAllPages Replay.post fuel params data
      (Replay.mk (map Fulfilled (pages ++ [last]) ++ later) log)
    = (Some (Fulfilled
               (Page.mk (Page.items data
                         ++ List.concat (map Page.items (pages ++ [last])))
                        false (Page.next_cursor last))),
       Replay.mk later
         (log ++ map (fun p => Obj.set (lit "cursor") (Page.next_cursor p)
                                       params)
                     (data :: pages))).
Proof.
  induction pages as [|p pages IH];
    intros last later fuel params data log Hdata Hmore Hlast Hfuel;
    (destruct fuel as [|fuel]; [simpl in Hfuel; lia|]); cbn [map app].
  - rewrite (fetchAllPages_step _ _ _ _ _ last _ Hdata
               (Replay_post_next _ _ _ _)).
    rewrite fetchAllPages_done by exact Hlast.
    simpl. rewrite Hlast, app_nil_r. reflexivity.
  - rewrite (fetchAllPages_step _ _ _ _ _ p _ Hdata
               (Replay_post_next _ _ _ _)).
    rewrite IH.
    + simpl. rewrite <- !app_assoc. simpl. rewrite set_set.
      rewrite (map_ext _ _
                 (fun q => set_set (lit "cursor") (Page.next_cursor data)
                                   (Page.next_cursor q) params)).
      reflexivity.
    + simpl. apply Hmore. now left.
    + intros q Hq. apply Hmore. now right.
    + exact Hlast.
    + simpl in Hfuel. lia.
Qed.

(** C5.  Against a fetch capability that answers with a given sequence of
    pages, all announcing more but the last, [_getArchivedProjectItems]
    resolves, as soon as the bound on iterations is the number of pages
    that announce more, to the concatenation of the items of all pages in
    order; it makes one request per page, the first with the query
    parameter alone and each next one with the cursor of the page before;
    and it leaves the responses that follow unread. *)
Theorem getArchivedProjectItems_follows_cursors
    (paramKey paramValue : jsstring) (pages : list Page.t) (last : Page.t)
    (later : list (settled Page.t)) (fuel : nat) :
  trim paramKey <> [] ->
  (forall p, In p pages -> Page.has_more p = true) ->
  Page.has_more last = false ->
  List.length pages <= fuel ->
  let params : Params := Obj.set paramKey (Some paramValue) [] in
  let requests :=
    params :: map (fun p => Obj.set (lit "cursor") (Page.next_cursor p) params)
                  pages in
  _getArchivedProjectItems Replay.post fuel paramKey paramValue
    (Replay.mk (map Fulfilled (pages ++ [last]) ++ later) [])
  = (Some (Fulfilled
             (Page.mk (List.concat (map Page.items (pages ++ [last])))
                      false (Page.next_cursor last))),
     Replay.mk later requests)
  /\ List.length requests = List.length (pages ++ [last]).
Proof.
  intros Hkey Hmore Hlast Hfuel params requests. split.
  - unfold _getArchivedProjectItems.
    destruct (trim paramKey) as [|c k]; [congruence|].
    fold params. destruct pages as [|p pages].
    + cbn [map app]. rewrite Replay_post_next.
      rewrite fetchAllPages_done by exact Hlast.
      destruct last as [items more cursor]. simpl in Hlast. subst more.
      simpl. rewrite app_nil_r. reflexivity.
    + cbn [map app]. rewrite Replay_post_next.
      rewrite (fetchAllPages_replay pages last later fuel params p).
      * reflexivity.
      * apply Hmore. now left.
      * intros q Hq. apply Hmore. now right.
      * exact Hlast.
      * simpl in Hfuel. lia.
  - unfold requests. simpl. rewrite length_map, length_app. simpl. lia.
Qed.

Lemma getArchivedProjectItems_follows_cursors_witness :
  _getArchivedProjectItems Replay.post 1 (lit "project_id") (lit "7")
    (Replay.mk [Fulfilled Sample.page1; Fulfilled Sample.page2] [])
  = (Some (Fulfilled
             (Page.mk [Sample.A; Sample.B; Sample.C; Sample.D] false None)),
     Replay.mk []
       [[(lit "project_id", Some (lit "7"))];
        [(lit "project_id", Some (lit "7"));
         (lit "cursor", Some (lit "c1"))]])
  /\ List.length
       [[(lit "project_id", Some (lit "7"))];
        [(lit "project_id", Some (lit "7"));
         (lit "cursor", Some (lit "c1"))]] = 2.
Proof.
  apply (getArchivedProjectItems_follows_cursors
           (lit "project_id") (lit "7") [Sample.page1] Sample.page2 [] 1).
  - vm_compute. discriminate.
  - intros p [<-|[]]. reflexivity.
  - reflexivity.
  - simpl. lia.
Defined.

(** A rejected request rejects the query with the same reason, after the
    pages fetched so far. *)
Lemma fetchAllPages_replay_rejected (pages : list Page.t) :
  forall (e : JSError) (later : list (settled Page.t)) (fuel : nat)
         (params : Params) (data : Page.t) (log : list Params),
    Page.has_more data = true ->
    (forall p, In p pages -> Page.has_more p = true) ->
    List.length pages < fuel ->
    fst (fetchAllPages Replay.post fuel params data
           (Replay.mk (map Fulfilled pages ++ Rejected e :: later) log))
    = Some (Rejected e).
Proof.
  induction pages as [|p pages IH];
    intros e later fuel params data log Hdata Hmore Hfuel;
    (destruct fuel as [|fuel]; [simpl in Hfuel; lia|]); cbn [map app].
  - now rewrite (fetchAllPages_rejected _ _ _ _ _ e _ Hdata
                   (Replay_post_next _ _ _ _)).
  - rewrite (fetchAllPages_step _ _ _ _ _ p _ Hdata
               (Replay_post_next _ _ _ _)).
    apply IH.
    + simpl. apply Hmore. now left.
    + intros q Hq. apply Hmore. now right.
    + simpl in Hfuel. lia.
Qed.

Lemma getArchivedProjectItems_rejected
    (paramKey paramValue : jsstring) (pages : list Page.t) (e : JSError)
    (later : list (settled Page.t)) (fuel : nat) :
  trim paramKey <> [] ->
  (forall p, In p pages -> Page.has_more p = true) ->
  List.length pages <= fuel ->
  fst (_getArchivedProjectItems Replay.post fuel paramKey paramValue
         (Replay.mk (map Fulfilled pages ++ Rejected e :: later) []))
  = Some (Rejected e).
Proof.
  intros Hkey Hmore Hfuel. unfold _getArchivedProjectItems.
  destruct (trim paramKey) as [|c k]; [congruence|].
  destruct pages as [|p pages]; cbn [map app]; rewrite Replay_post_next.
  - reflexivity.
  - apply fetchAllPages_replay_rejected.
    + apply Hmore. now left.
    + intros q Hq. apply Hmore. now right.
    + simpl in Hfuel. lia.
Qed.

(** ** Promise.all *)

Lemma nth_error_list_set {B} (i j : nat) (v : B) (l : list B) :
  nth_error (list_set i v l) j
  = if Nat.eqb i j then option_map (fun _ => v) (nth_error l j)
    else nth_error l j.
Proof.
  revert i j. induction l as [|x l IH]; intros i j.
  - simpl. destruct j; simpl; destruct (Nat.eqb i _); reflexivity.
  - destruct i, j; simpl; auto.
Qed.

Section PromiseAll.

Context {A : Type}.

Lemma unfilled_set (values : list (option A)) (i : nat) (v : A) :
  nth_error values i = Some None ->
  unfilled values = S (unfilled (list_set i (Some v) values)).
Proof.
  revert i. induction values as [|o values IH]; intros i H.
  - destruct i; discriminate.
  - destruct i; simpl in H.
    + injection H as ->. reflexivity.
    + unfold unfilled in *. simpl. destruct o; simpl; rewrite (IH i H); auto.
Qed.

Lemma unfilled_cons (o : option A) (values : list (option A)) :
  unfilled (o :: values)
  = (match o with None => 1 | Some _ => 0 end) + unfilled values.
Proof. unfold unfilled. destruct o; reflexivity. Qed.

Lemma unfilled_one (values : list (option A)) (i : nat) :
  nth_error values i = Some None -> 1 <= unfilled values.
Proof.
  revert i. induction values as [|o values IH]; intros [|i] H; simpl in H;
    try discriminate; rewrite unfilled_cons.
  - injection H as ->. lia.
  - specialize (IH i H). lia.
Qed.

Lemma unfilled_two (values : list (option A)) (i j : nat) :
  nth_error values i = Some None -> nth_error values j = Some None ->
  i <> j -> 2 <= unfilled values.
Proof.
  revert i j. induction values as [|o values IH]; intros i j Hi Hj Hij.
  - destruct i; discriminate.
  - rewrite unfilled_cons. destruct i, j; simpl in Hi, Hj.
    + congruence.
    + injection Hi as ->. pose proof (unfilled_one values j Hj). lia.
    + injection Hj as ->. pose proof (unfilled_one values i Hi). lia.
    + assert (2 <= unfilled values) by (apply (IH i j); auto). lia.
Qed.

Lemma unfilled_some (values : list (option A)) :
  1 <= unfilled values -> exists j, nth_error values j = Some None.
Proof.
  induction values as [|o values IH]; unfold unfilled; simpl; [lia|].
  destruct o; simpl; intro H.
  - destruct (IH H) as [j Hj]. now exists (S j).
  - now exists 0.
Qed.

Lemma unfilled_repeat (n : nat) : unfilled (repeat (@None A) n) = n.
Proof.
  unfold unfilled. induction n; simpl; auto.
Qed.

Lemma nth_error_repeat_None (n j : nat) :
  j < n <-> nth_error (repeat (@None A) n) j = Some None.
Proof.
  revert j. induction n; intros j; simpl.
  - split; [lia|destruct j; discriminate].
  - destruct j; simpl; [split; [auto|lia]|].
    rewrite <- IHn. lia.
Qed.

Lemma filled_all (values : list (option A)) (vs : list A) :
  Forall2 slot values vs -> unfilled values = 0 -> filled values = vs.
Proof.
  induction 1 as [|o v values vs [->| ->] _ IH]; unfold unfilled; simpl;
    [reflexivity|discriminate|].
  intro H. unfold filled in *. simpl. f_equal. now apply IH.
Qed.

Lemma slot_repeat (vs : list A) :
  Forall2 slot (repeat None (List.length vs)) vs.
Proof. induction vs; simpl; constructor; auto. now left. Qed.

Lemma slot_set (values : list (option A)) (vs : list A) (i : nat) (v : A) :
  Forall2 slot values vs -> nth_error vs i = Some v ->
  Forall2 slot (list_set i (Some v) values) vs.
Proof.
  intro H. revert i. induction H as [|o w values vs Hs Hf IH]; intros i Hi.
  - constructor.
  - destruct i; simpl in *.
    + injection Hi as ->. constructor; [now right|assumption].
    + constructor; auto.
Qed.

Lemma slot_nth (values : list (option A)) (vs : list A) (i : nat) (v : A) :
  Forall2 slot values vs -> nth_error vs i = Some v ->
  exists o, nth_error values i = Some o.
Proof.
  intro H. revert i. induction H; intros [|i] Hi; simpl in *;
    try discriminate; eauto.
Qed.

(** When every promise is fulfilled and every reaction runs, the result is
    fulfilled with the values in the order of the promises, whatever the
    order of the reactions. *)
Lemma all_react_fulfilled (vs : list A) (order : list nat) :
  forall values : list (option A),
    Forall2 slot values vs -> 1 <= unfilled values ->
    (forall j, nth_error values j = Some None -> In j order) ->
    all_react (map (fun v => Some (Fulfilled v)) vs) values (unfilled values)
              order
    = Some (Fulfilled vs).
Proof.
  induction order as [|i order IH]; intros values Hs Hun Hin.
  - destruct (unfilled_some values Hun) as [j Hj]. destruct (Hin j Hj).
  - simpl. rewrite nth_error_map.
    destruct (nth_error vs i) as [v|] eqn:Ev; simpl.
    + destruct (slot_nth values vs i v Hs Ev) as [o Eo]. rewrite Eo.
      destruct o as [w|].
      * apply IH; auto. intros j Hj.
        destruct (Hin j Hj) as [<-|H]; [congruence|exact H].
      * pose proof (unfilled_set values i v Eo) as Hset.
        pose proof (slot_set values vs i v Hs Ev) as Hs'.
        rewrite Hset.
        destruct (unfilled (list_set i (Some v) values)) as [|k] eqn:Ek.
        -- now rewrite (filled_all _ _ Hs' Ek).
        -- simpl. rewrite <- Ek. apply IH; [exact Hs'|lia|].
           intros j Hj. rewrite nth_error_list_set in Hj.
           destruct (Nat.eqb i j) eqn:Eij.
           ++ apply Nat.eqb_eq in Eij as <-. rewrite Eo in Hj. discriminate.
           ++ destruct (Hin j Hj) as [<-|H]; [|exact H].
              rewrite Nat.eqb_refl in Eij. discriminate.
    + apply IH; auto. intros j Hj.
      destruct (Hin j Hj) as [<-|H]; [|exact H].
      pose proof (Forall2_length Hs) as Hlen.
      assert (Hlt : i < List.length values)
        by (apply nth_error_Some; congruence).
      apply nth_error_None in Ev. lia.
Qed.

Variable ps : list (Promise A).

(** While the slot of a promise that is not fulfilled stays empty, the
    result is not fulfilled. *)
Lemma all_react_not_fulfilled (j : nat) (order : list nat) :
  (forall v, nth_error ps j <> Some (Some (Fulfilled v))) ->
  forall values : list (option A),
    nth_error values j = Some None ->
    forall vs, all_react ps values (unfilled values) order
               <> Some (Fulfilled vs).
Proof.
  intro Hj. induction order as [|i order IH]; intros values Hv vs; simpl.
  - discriminate.
  - destruct (nth_error ps i) as [[[v|e]|]|] eqn:Ei; try (now apply IH);
      [|discriminate].
    destruct (nth_error values i) as [[w|]|] eqn:Ev; try (now apply IH).
    assert (Hij : i <> j) by (intros ->; apply (Hj v); assumption).
    pose proof (unfilled_two values i j Ev Hv Hij) as H2.
    pose proof (unfilled_set values i v Ev) as Hset.
    destruct (unfilled values) as [|[|k]] eqn:Ek; try lia.
    simpl. injection Hset as Hset. rewrite Hset. apply IH.
    rewrite nth_error_list_set.
    destruct (Nat.eqb i j) eqn:Eij; [|exact Hv].
    apply Nat.eqb_eq in Eij. contradiction.
Qed.

(** The first rejection to be delivered rejects the result. *)
Lemma all_react_first_rejection (j : nat) (e : JSError)
    (pre post : list nat) :
  nth_error ps j = Some (Some (Rejected e)) ->
  (forall i, In i pre ->
             forall e', nth_error ps i <> Some (Some (Rejected e'))) ->
  forall values : list (option A),
    nth_error values j = Some None ->
    all_react ps values (unfilled values) (pre ++ j :: post)
    = Some (Rejected e).
Proof.
  intros Hj. induction pre as [|i pre IH]; intros Hpre values Hv; simpl.
  - now rewrite Hj.
  - assert (Hpre' : forall i, In i pre ->
                      forall e', nth_error ps i <> Some (Some (Rejected e')))
      by (intros k Hk; apply Hpre; now right).
    destruct (nth_error ps i) as [[[v|e']|]|] eqn:Ei; try (now apply IH).
    + destruct (nth_error values i) as [[w|]|] eqn:Ev; try (now apply IH).
      assert (Hij : i <> j) by (intros ->; congruence).
      pose proof (unfilled_two values i j Ev Hv Hij) as H2.
      pose proof (unfilled_set values i v Ev) as Hset.
      destruct (unfilled values) as [|[|k]] eqn:Ek; try lia.
      simpl. injection Hset as Hset. rewrite Hset. apply IH; auto.
      rewrite nth_error_list_set.
      destruct (Nat.eqb i j) eqn:Eij; [|exact Hv].
      apply Nat.eqb_eq in Eij. contradiction.
    + exfalso. apply (Hpre i (or_introl eq_refl) e'). exact Ei.
Qed.

(** Once the rejection of a promise is delivered, the result is rejected,
    with the reason of a promise of the list. *)
Lemma all_react_rejects (j : nat) (e : JSError) (order : list nat) :
  nth_error ps j = Some (Some (Rejected e)) -> In j order ->
  forall values : list (option A),
    nth_error values j = Some None ->
    exists i e', nth_error ps i = Some (Some (Rejected e'))
                 /\ all_react ps values (unfilled values) order
                    = Some (Rejected e').
Proof.
  intros Hj. induction order as [|i order IH]; intros Hin values Hv;
    [destruct Hin|].
  simpl.
  destruct (nth_error ps i) as [[[v|e']|]|] eqn:Ei.
  - assert (Hij : i <> j) by (intros ->; congruence).
    destruct Hin as [Hin|Hin]; [contradiction|].
    destruct (nth_error values i) as [[w|]|] eqn:Ev; try (now apply IH).
    pose proof (unfilled_two values i j Ev Hv Hij) as H2.
    pose proof (unfilled_set values i v Ev) as Hset.
    destruct (unfilled values) as [|[|k]] eqn:Ek; try lia.
    simpl. injection Hset as Hset. rewrite Hset. apply IH; auto.
    rewrite nth_error_list_set.
    destruct (Nat.eqb i j) eqn:Eij; [|exact Hv].
    apply Nat.eqb_eq in Eij. contradiction.
  - exists i, e'. auto.
  - assert (Hij : i <> j) by (intros ->; congruence).
    destruct Hin as [Hin|Hin]; [contradiction|]. now apply IH.
  - assert (Hij : i <> j) by (intros ->; congruence).
    destruct Hin as [Hin|Hin]; [contradiction|]. now apply IH.
Qed.

End PromiseAll.

(** ** The enumeration order of keys *)

Lemma get_in {V} (k : jsstring) (o : Obj.JSObject V) :
  In k (map fst o) -> exists v, Obj.get k o = Some v.
Proof.
  induction o as [|[k' v'] o IH]; simpl; [tauto|].
  intros [<-|H].
  - rewrite str_eqb_refl. eauto.
  - destruct (str_eqb k k'); eauto.
Qed.

Lemma insert_index_in p l x :
  In x (Obj.insert_index p l) <-> x = p \/ In x l.
Proof.
  induction l as [|q l IH]; simpl.
  - intuition.
  - destruct (fst p <=? fst q)%N; simpl; rewrite ?IH; intuition.
Qed.

Lemma sort_index_in l x : In x (Obj.sort_index l) <-> In x l.
Proof.
  induction l as [|p l IH]; simpl; [tauto|].
  rewrite insert_index_in, IH. intuition.
Qed.

Lemma insert_index_sorted p l :
  sorted_index l -> sorted_index (Obj.insert_index p l).
Proof.
  induction l as [|q l IH]; simpl; [auto|].
  intros [Hq Hl]. destruct (fst p <=? fst q)%N eqn:E; simpl.
  - apply N.leb_le in E. auto.
  - apply N.leb_gt in E. split; [|now apply IH].
    destruct l as [|r l]; simpl.
    + lia.
    + destruct (fst p <=? fst r)%N; simpl; [lia|exact Hq].
Qed.

Lemma sort_index_sorted l : sorted_index (Obj.sort_index l).
Proof.
  induction l as [|p l IH]; simpl; [exact I|].
  now apply insert_index_sorted.
Qed.

Lemma sort_index_id l : sorted_index l -> Obj.sort_index l = l.
Proof.
  induction l as [|p l IH]; simpl; [reflexivity|].
  intros [Hp Hl]. rewrite (IH Hl).
  destruct l as [|q l]; simpl; [reflexivity|].
  apply N.leb_le in Hp. now rewrite Hp.
Qed.

Lemma index_keys_in ks n k :
  In (n, k) (Obj.index_keys ks) -> Obj.array_index k = Some n /\ In k ks.
Proof.
  unfold Obj.index_keys. rewrite in_flat_map. intros (k' & Hk' & H).
  destruct (Obj.array_index k') as [n'|] eqn:E; simpl in H; [|tauto].
  destruct H as [H|[]]. injection H as <- <-. auto.
Qed.

Lemma index_keys_app ks ks' :
  Obj.index_keys (ks ++ ks') = Obj.index_keys ks ++ Obj.index_keys ks'.
Proof. unfold Obj.index_keys. apply flat_map_app. Qed.

Lemma index_keys_map_snd (l : list (N * jsstring)) :
  (forall n k, In (n, k) l -> Obj.array_index k = Some n) ->
  Obj.index_keys (map snd l) = l.
Proof.
  induction l as [|[n k] l IH]; intro H; simpl; [reflexivity|].
  rewrite (H n k (or_introl eq_refl)). simpl. f_equal.
  apply IH. intros n' k' Hin. apply H. now right.
Qed.

Lemma index_keys_none ks :
  (forall k, In k ks -> Obj.is_index k = false) -> Obj.index_keys ks = [].
Proof.
  induction ks as [|k ks IH]; intro H; simpl; [reflexivity|].
  pose proof (H k (or_introl eq_refl)) as Hk. unfold Obj.is_index in Hk.
  destruct (Obj.array_index k); [discriminate|]. simpl.
  apply IH. intros k' Hk'. apply H. now right.
Qed.

Lemma filter_all {B} (f : B -> bool) (l : list B) :
  (forall x, In x l -> f x = true) -> filter f l = l.
Proof.
  induction l as [|x l IH]; intro H; simpl; [reflexivity|].
  rewrite (H x (or_introl eq_refl)). f_equal. apply IH.
  intros y Hy. apply H. now right.
Qed.

Lemma filter_none {B} (f : B -> bool) (l : list B) :
  (forall x, In x l -> f x = false) -> filter f l = [].
Proof.
  induction l as [|x l IH]; intro H; simpl; [reflexivity|].
  rewrite (H x (or_introl eq_refl)). apply IH.
  intros y Hy. apply H. now right.
Qed.

Lemma ownKeys_in {V} (o : Obj.JSObject V) k :
  In k (Obj.ownKeys o) -> In k (map fst o).
Proof.
  unfold Obj.ownKeys. intro H. apply in_app_or in H as [H|H].
  - apply in_map_iff in H as ([n k'] & <- & H). simpl.
    apply -> sort_index_in in H. now apply index_keys_in in H.
  - now apply filter_In in H.
Qed.

Lemma rest_without_fst {V} (k0 : jsstring) (o : Obj.JSObject V) :
  map fst (Obj.rest_without k0 o)
  = filter (fun k => negb (str_eqb k k0)) (Obj.ownKeys o).
Proof.
  unfold Obj.rest_without.
  assert (H : forall k, In k (filter (fun k => negb (str_eqb k k0))
                                     (Obj.ownKeys o)) ->
                        exists v, Obj.get k o = Some v).
  { intros k Hk. apply filter_In in Hk as [Hk _].
    apply get_in. now apply ownKeys_in. }
  induction (filter (fun k => negb (str_eqb k k0)) (Obj.ownKeys o))
    as [|k ks IH]; simpl; [reflexivity|].
  destruct (H k (or_introl eq_refl)) as [v ->]. simpl. f_equal.
  apply IH. intros k' Hk'. apply H. now right.
Qed.

(** Leaving out a key that is not an array index does not change the
    order of the other keys. *)
Lemma keys_rest_without {V} (k0 : jsstring) (o : Obj.JSObject V) :
  Obj.is_index k0 = false ->
  Obj.keys (Obj.rest_without k0 o)
  = filter (fun k => negb (str_eqb k k0)) (Obj.keys o).
Proof.
  intro Hk0. unfold Obj.keys. unfold Obj.ownKeys at 1.
  rewrite rest_without_fst. unfold Obj.ownKeys.
  set (L := Obj.sort_index (Obj.index_keys (map fst o))).
  set (T := filter (fun k => negb (Obj.is_index k)) (map fst o)).
  assert (HL : forall n k, In (n, k) L -> Obj.array_index k = Some n).
  { intros n k H. apply -> sort_index_in in H. now apply index_keys_in in H. }
  assert (HS : forall k, In k (map snd L) -> Obj.is_index k = true).
  { intros k H. apply in_map_iff in H as ([n k'] & <- & H). simpl.
    unfold Obj.is_index. now rewrite (HL n k' H). }
  assert (HT : forall k, In k T -> Obj.is_index k = false).
  { intros k H. apply filter_In in H as [_ H].
    now apply negb_true_iff in H. }
  rewrite filter_app.
  assert (HfS : filter (fun k => negb (str_eqb k k0)) (map snd L) = map snd L).
  { apply filter_all. intros k H. apply negb_true_iff.
    apply str_eqb_neq. intros ->. rewrite (HS _ H) in Hk0. discriminate. }
  rewrite HfS.
  set (T' := filter (fun k => negb (str_eqb k k0)) T).
  assert (HT' : forall k, In k T' -> Obj.is_index k = false).
  { intros k H. apply filter_In in H as [H _]. now apply HT. }
  rewrite index_keys_app, (index_keys_map_snd L HL), (index_keys_none T' HT').
  rewrite app_nil_r, (sort_index_id L (sort_index_sorted _)).
  rewrite filter_app. f_equal.
  rewrite filter_none, filter_all; auto.
  - intros k H. now rewrite (HT' k H).
  - intros k H. now rewrite (HS k H).
Qed.

Lemma null_not_index : Obj.is_index (lit "null") = false.
Proof. reflexivity. Qed.

(** ** The archive fan-out *)

Section FanOut.

Variable server : Params -> Promise Page.t.
Variable fuel : nat.
Variable projectId : Z.
Variable sections : SectionMap.
Variable parentIds : option (list Z).

Local Abbreviation ps :=
  (whenAllKindTasks server fuel projectId sections parentIds).

Lemma whenAllKindTasks_nth (j : nat) (e : JSError) :
  nth_error (map fst (archiveQueries server fuel projectId sections parentIds))
            j = Some (Some (Rejected e)) ->
  nth_error ps j = Some (Some (Rejected e)).
Proof.
  unfold whenAllKindTasks. rewrite !nth_error_map.
  destruct (nth_error (archiveQueries server fuel projectId sections parentIds)
                      j) as [[q log]|]; simpl; [|discriminate].
  intros [= ->]. reflexivity.
Qed.

Lemma Promise_all_unfold (order : list nat) :
  Promise_all ps order
  = all_react ps (repeat None (List.length ps))
              (unfilled (repeat (@None (list Task.t)) (List.length ps)))
              order.
Proof.
  rewrite unfilled_repeat. unfold whenAllKindTasks, archiveQueries.
  reflexivity.
Qed.

Lemma empty_slot (j : nat) (p : Promise (list Task.t)) :
  nth_error ps j = Some p ->
  nth_error (repeat (@None (list Task.t)) (List.length ps)) j = Some None.
Proof.
  intro H. apply nth_error_repeat_None. apply nth_error_Some. congruence.
Qed.

(** C6.  When one of the queries of the fan-out rejects, with [e]: the
    promise [getProjectArchivedTasks] returns is never fulfilled, whatever
    the order in which the queries settle; it is rejected as soon as this
    rejection is delivered, with the reason of a query that rejected; and
    when this rejection is the first one delivered, it is rejected with
    [e] itself. *)
Theorem getProjectArchivedTasks_fails_fast (j : nat) (e : JSError) :
  nth_error (map fst (archiveQueries server fuel projectId sections parentIds))
            j = Some (Some (Rejected e)) ->
  (forall order tasks,
     fst (getProjectArchivedTasks server fuel order projectId (Some sections)
                                  parentIds)
     <> Return (Some (Fulfilled tasks)))
  /\ (forall order,
        In j order ->
        exists i e',
          nth_error ps i = Some (Some (Rejected e'))
          /\ fst (getProjectArchivedTasks server fuel order projectId
                                          (Some sections) parentIds)
             = Return (Some (Rejected e')))
  /\ (forall pre post,
        (forall i, In i pre ->
                   forall e', nth_error ps i <> Some (Some (Rejected e'))) ->
        fst (getProjectArchivedTasks server fuel (pre ++ j :: post) projectId
                                     (Some sections) parentIds)
        = Return (Some (Rejected e))).
Proof.
  intro Hq. apply whenAllKindTasks_nth in Hq.
  pose proof (empty_slot j _ Hq) as Hslot.
  unfold getProjectArchivedTasks. cbn [fst].
  split; [|split].
  - intros order tasks H. rewrite Promise_all_unfold in H.
    assert (H' : then_
                   (all_react ps (repeat None (List.length ps))
                      (unfilled (repeat (@None (list Task.t)) (List.length ps)))
                      order)
                   (fun fulfilledPromises : list (list Task.t) =>
                      Return (List.concat fulfilledPromises))
                 = Some (Fulfilled tasks)) by congruence.
    clear H. rename H' into H.
    destruct (all_react ps (repeat None (List.length ps))
                (unfilled (repeat (@None (list Task.t)) (List.length ps)))
                order) as [[vs|e']|] eqn:E; simpl in H; try discriminate.
    revert E. apply all_react_not_fulfilled with (j := j); [|exact Hslot].
    intros v Hv. congruence.
  - intros order Hin. rewrite Promise_all_unfold.
    destruct (all_react_rejects ps j e order Hq Hin _ Hslot)
      as (i & e' & Hi & ->).
    exists i, e'. auto.
  - intros pre post Hpre. rewrite Promise_all_unfold.
    now rewrite (all_react_first_rejection ps j e pre post Hq Hpre _ Hslot).
Qed.

Lemma section_key_roundtrip (k : jsstring) :
  SectionMap_wf sections -> In k (sectionKeys sections) ->
  number_toString (Number k) = k.
Proof.
  intros Hwf Hk. unfold sectionKeys in Hk. apply filter_In in Hk as [Hk Hn].
  apply ownKeys_in in Hk. destruct (Hwf k Hk) as [->|[z ->]].
  - discriminate.
  - now rewrite Number_of_toString.
Qed.

(** C10.  When every query of the fan-out is fulfilled and gives its
    tasks, the promise [getProjectArchivedTasks] returns is fulfilled,
    whatever the order in which the queries settle, with the tasks of the
    project, then those of each section in the order the keys of the map are
    enumerated, then those of each parent in the order of [parentIds]. *)
Theorem getProjectArchivedTasks_order
    (tasksOf : jsstring -> jsstring -> list Task.t) (order : list nat) :
  let parents := match parentIds with Some l => l | None => [] end in
  SectionMap_wf sections ->
  archivedTasks server fuel sections (lit "project_id")
                (Number_toString projectId)
  = Some (Fulfilled (tasksOf (lit "project_id") (Number_toString projectId))) ->
  (forall k, In k (sectionKeys sections) ->
             archivedTasks server fuel sections (lit "section_id") k
             = Some (Fulfilled (tasksOf (lit "section_id") k))) ->
  (forall p, In p parents ->
             archivedTasks server fuel sections (lit "parent_id")
                           (Number_toString p)
             = Some (Fulfilled (tasksOf (lit "parent_id")
                                        (Number_toString p)))) ->
  (forall i, i < 1 + List.length (sectionKeys sections) + List.length parents ->
             In i order) ->
  fst (getProjectArchivedTasks server fuel order projectId (Some sections)
                               parentIds)
  = Return (Some (Fulfilled
      (tasksOf (lit "project_id") (Number_toString projectId)
       ++ List.concat (map (tasksOf (lit "section_id")) (sectionKeys sections))
       ++ List.concat (map (fun p => tasksOf (lit "parent_id")
                                             (Number_toString p))
                           parents)))).
Proof.
  intros parents Hwf Hproject Hsections Hparents Horder.
  set (vs := [tasksOf (lit "project_id") (Number_toString projectId)]
             ++ map (tasksOf (lit "section_id")) (sectionKeys sections)
             ++ map (fun p => tasksOf (lit "parent_id") (Number_toString p))
                    parents).
  assert (Hps : ps = map (fun v => Some (Fulfilled v)) vs).
  { unfold whenAllKindTasks, archiveQueries, vs.
    rewrite !map_app, !map_map. cbn [map app fst]. f_equal.
    - exact Hproject.
    - f_equal.
      + rewrite (keys_rest_without _ _ null_not_index).
        fold (sectionKeys sections).
        apply map_ext_in. intros k Hk. cbn [fst].
        unfold getArchivedProjectItemsUnderSection.
        rewrite (section_key_roundtrip k Hwf Hk). now apply Hsections.
      + unfold parents in *. destruct parentIds as [l|]; [|reflexivity].
        rewrite !map_map. apply map_ext_in. intros p Hp. now apply Hparents. }
  unfold getProjectArchivedTasks. cbn [fst].
  rewrite Promise_all_unfold, Hps. rewrite length_map.
  rewrite all_react_fulfilled.
  - unfold vs. simpl. now rewrite concat_app.
  - apply slot_repeat.
  - rewrite unfilled_repeat. unfold vs. simpl. lia.
  - intros i Hi. apply nth_error_repeat_None in Hi. apply Horder.
    unfold vs in Hi. simpl in Hi. rewrite length_app, !length_map in Hi.
    simpl. lia.
Qed.

End FanOut.

Lemma getProjectArchivedTasks_fails_fast_witness :
  fst (getProjectArchivedTasks Sample.rejectsProject 1 [1; 0] 7
                               (Some Sample.sections) None)
  = Return (Some (Rejected (Rejection (lit "503")))).
Proof.
  apply (proj2 (proj2 (getProjectArchivedTasks_fails_fast
                         Sample.rejectsProject 1 7 Sample.sections None
                         0 (Rejection (lit "503")) eq_refl))
               [1] []).
  intros i Hi e'. simpl in Hi. destruct Hi as [<-|[]].
  vm_compute. discriminate.
Defined.

Lemma getProjectArchivedTasks_order_witness :
  fst (getProjectArchivedTasks Sample.answers 1 [2; 0; 1] 7
                               (Some Sample.sections) (Some [1%Z]))
  = Return (Some (Fulfilled
      (Sample.tasksOf (lit "project_id") (Number_toString 7)
       ++ List.concat (map (Sample.tasksOf (lit "section_id"))
                           (sectionKeys Sample.sections))
       ++ List.concat (map (fun p => Sample.tasksOf (lit "parent_id")
                                                    (Number_toString p))
                           [1%Z])))).
Proof.
  apply (getProjectArchivedTasks_order
           Sample.answers 1 7 Sample.sections (Some [1%Z])
           Sample.tasksOf [2; 0; 1]).
  - intros k Hk. simpl in Hk.
    destruct Hk as [<-|[<-|[]]]; [left; reflexivity|right].
    exists 5%Z. reflexivity.
  - reflexivity.
  - intros k Hk. vm_compute in Hk. destruct Hk as [<-|[]]. reflexivity.
  - intros p [<-|[]]. reflexivity.
  - intros i Hi. vm_compute in Hi. simpl.
    assert (i = 0 \/ i = 1 \/ i = 2) as [-> | [-> | ->]] by lia; auto.
Defined.

(** ** The domain of formatDate *)

Lemma RE_DATE_found s m :
  exec RE_DATE s = Some m -> begins_with_date s.
Proof.
  intro H. apply search_found in H as (pre & post & -> & Hs & Hin).
  destruct m as [x y]. simpl start in *. simpl stop in *.
  expand_re RE_DATE Hin. mt_inv Hin.
  assert (Hpre : pre = []).
  { subst x. simpl in H. rewrite app_nil_r in H.
    destruct pre as [|p pre]; [reflexivity|]. simpl in H.
    apply app_eq_nil in H as [_ H]. discriminate. }
  assert (c = 45%N) by (symmetry; apply N.eqb_eq; exact Ha0).
  assert (c0 = 45%N) by (symmetry; apply N.eqb_eq; exact Ha2).
  pose proof (Hm1 _ eq_refl). pose proof (Hm4 _ eq_refl).
  pose proof (Hm6 _ eq_refl).
  exists l, l0, l1, (rest z6).
  split; [lia|]. split; [lia|]. split; [lia|]. split.
  - rewrite !forallb_app. change (atom_mem (AIs CDigit)) with is_digit in *.
    now rewrite Ha, Ha1, Ha3.
  - subst. simpl in *. rewrite Hr3 in Hr2. rewrite Hr2 in Hr1.
    rewrite Hr1 in Hr0. rewrite Hr0 in Hr. exact Hr.
Qed.

(** X1.  [formatDate] returns on a string exactly when the string begins
    with four digits, a hyphen, two digits, a hyphen and two digits; the
    result is then the second group, a space, the first group, a comma with
    a space, and the third group.  On every other string it throws a
    TypeError. *)
Theorem formatDate_defined (s : jsstring) :
  (forall r,
     formatDate (Some s) = Return r <->
     exists yyyy mm dd tail : jsstring,
       List.length yyyy = 4 /\ List.length mm = 2 /\ List.length dd = 2
       /\ forallb is_digit (yyyy ++ mm ++ dd) = true
       /\ s = yyyy ++ lit "-" ++ mm ++ lit "-" ++ dd ++ tail
       /\ r = mm ++ lit " " ++ yyyy ++ lit ", " ++ dd)
  /\ (formatDate (Some s) = Throw TypeError <-> ~ begins_with_date s).
Proof.
  assert (Hthr : formatDate (Some s) = Throw TypeError \/ begins_with_date s).
  { unfold formatDate. destruct (exec RE_DATE s) as [m|] eqn:E; [right|now left].
    exact (RE_DATE_found s m E). }
  split; [intro r|]; split.
  - intro Hr. destruct Hthr as [Ht|Hd]; [congruence|].
    destruct Hd as (yyyy & mm & dd & tail & Hy & Hm & Hd & Hdig & Hs).
    exists yyyy, mm, dd, tail. repeat (split; [assumption|]).
    rewrite Hs, (formatDate_renders _ _ _ _ Hy Hm Hd Hdig) in Hr.
    now injection Hr as <-.
  - intros (yyyy & mm & dd & tail & Hy & Hm & Hd & Hdig & -> & ->).
    exact (formatDate_renders _ _ _ _ Hy Hm Hd Hdig).
  - intros Ht (yyyy & mm & dd & tail & Hy & Hm & Hd & Hdig & Hs).
    rewrite Hs, (formatDate_renders _ _ _ _ Hy Hm Hd Hdig) in Ht.
    discriminate.
  - intro Hn. destruct Hthr as [Ht|Hd]; [exact Ht|contradiction].
Qed.

(** ** The leftmost match, and the trailing decoration *)

Lemma search_spec r rst :
  forall bef m,
    search r bef rst = Some m <->
    exists pre post tl,
      rst = pre ++ post
      /\ start m = MState (rev pre ++ bef) post []
      /\ mt r (start m) = stop m :: tl
      /\ forall pre' post',
           rst = pre' ++ post' -> List.length pre' < List.length pre ->
           mt r (MState (rev pre' ++ bef) post' []) = [].
Proof.
  induction rst as [|c rst IH]; intros bef m; cbn [search].
  - destruct (mt r (MState bef [] [])) as [|y l] eqn:E.
    + split; [discriminate|].
      intros (pre & post & tl & Hs & Hst & Hmt & _).
      symmetry in Hs. apply app_eq_nil in Hs as [-> ->].
      rewrite Hst in Hmt. simpl in Hmt. congruence.
    + split.
      * intros [= <-]. exists [], [], l. simpl. repeat split; auto.
        intros pre' post' _ Hl. lia.
      * intros (pre & post & tl & Hs & Hst & Hmt & _).
        symmetry in Hs. apply app_eq_nil in Hs as [-> ->].
        destruct m as [x z]. simpl in *. subst x. f_equal. f_equal. congruence.
  - destruct (mt r (MState bef (c :: rst) [])) as [|y l] eqn:E.
    + rewrite IH. split.
      * intros (pre & post & tl & -> & Hst & Hmt & Hleft).
        exists (c :: pre), post, tl. simpl. rewrite <- app_assoc.
        repeat split; auto.
        intros [|c' pre'] post' Hs Hl; simpl in *.
        -- now subst post'.
        -- injection Hs as <- Hs. rewrite <- app_assoc. apply Hleft; auto. lia.
      * intros (pre & post & tl & Hs & Hst & Hmt & Hleft).
        destruct pre as [|c' pre].
        -- simpl in Hs, Hst. subst post. rewrite Hst in Hmt. congruence.
        -- simpl in Hs. injection Hs as <- ->.
           exists pre, post, tl. simpl in Hst. rewrite <- app_assoc in Hst.
           repeat split; auto.
           intros pre' post' Hs Hl.
           specialize (Hleft (c :: pre') post').
           simpl in Hleft. rewrite <- app_assoc in Hleft. apply Hleft.
           ++ now rewrite Hs.
           ++ lia.
    + split.
      * intros [= <-]. exists [], (c :: rst), l. simpl. repeat split; auto.
        intros pre' post' _ Hl. lia.
      * intros (pre & post & tl & Hs & Hst & Hmt & Hleft).
        destruct pre as [|c' pre].
        -- simpl in Hs, Hst. subst post.
           destruct m as [x z]. simpl in *. subst x. f_equal. f_equal. congruence.
        -- specialize (Hleft [] (c :: rst) eq_refl). simpl in Hleft.
           rewrite Hleft in E; [discriminate|lia].
Qed.

Ltac lit_chars :=
  repeat match goal with
         | H : atom_mem (AIs (CLit ?k)) ?c = true |- _ =>
             change ((k =? c)%N = true) in H; apply N.eqb_eq in H; subst c
         end.

Lemma RE_YT_PLAYLIST_inv x y :
  In y (mt RE_YT_PLAYLIST x) ->
  exists sp1 sp2,
    forallb is_space sp1 = true /\ forallb is_space sp2 = true
    /\ rest x = sp1 ++ lit "-" ++ sp2 ++ lit "YouTube" /\ rest y = [].
Proof.
  intro Hin. expand_re RE_YT_PLAYLIST Hin. mt_inv Hin. lit_chars.
  exists l, l0. repeat split; auto.
  - subst. simpl in *. subst. rewrite Hr, Hr0, Hr2. reflexivity.
  - now subst.
Qed.

Lemma heads_empty x : heads REmpty x x.
Proof. exists []. reflexivity. Qed.

Lemma heads_eol x : rest x = [] -> heads REol x x.
Proof. intro H. unfold heads. simpl. rewrite H. eauto. Qed.

Lemma RE_YT_PLAYLIST_intro bef sp1 sp2 :
  forallb is_space sp1 = true -> forallb is_space sp2 = true ->
  exists y, heads RE_YT_PLAYLIST
                  (MState bef (sp1 ++ lit "-" ++ sp2 ++ lit "YouTube") []) y
            /\ rest y = [].
Proof.
  intros H1 H2.
  set (x0 := MState bef (sp1 ++ lit "-" ++ sp2 ++ lit "YouTube") []).
  set (x1 := MState (rev sp1 ++ bef) (lit "-" ++ sp2 ++ lit "YouTube") []).
  set (x2 := MState (45%N :: before x1) (sp2 ++ lit "YouTube") []).
  set (x3 := MState (rev sp2 ++ before x2) (lit "YouTube") []).
  eexists. split.
  - let e := eval vm_compute in RE_YT_PLAYLIST in change RE_YT_PLAYLIST with e.
    apply heads_seq with (z := x1).
    { apply (heads_rep _ 0 x0 sp1 (lit "-" ++ sp2 ++ lit "YouTube"));
        auto; [lia|reflexivity]. }
    apply heads_seq with (z := x2).
    { apply (heads_atom _ x1 45%N (sp2 ++ lit "YouTube")); reflexivity. }
    apply heads_seq with (z := x3).
    { apply (heads_rep _ 0 x2 sp2 (lit "YouTube")); auto; [lia|reflexivity]. }
    apply heads_seq with (z := MState (rev (lit "YouTube") ++ before x3) [] []).
    + exists []. reflexivity.
    + now apply heads_eol.
  - reflexivity.
Qed.

Lemma first_outside {B} (P : B -> bool) (x x' : B) :
  forall l1 l2 r1 r2,
    forallb P l1 = true -> forallb P l2 = true ->
    P x = false -> P x' = false ->
    l1 ++ x :: r1 = l2 ++ x' :: r2 ->
    l1 = l2 /\ x = x' /\ r1 = r2.
Proof.
  induction l1 as [|a l1 IH]; intros [|b l2] r1 r2 H1 H2 Hx Hx' E;
    simpl in *.
  - injection E as -> ->. auto.
  - injection E as -> _. apply andb_true_iff in H2 as [H2 _]. congruence.
  - injection E as -> _. apply andb_true_iff in H1 as [H1 _]. congruence.
  - injection E as -> E.
    apply andb_true_iff in H1 as [_ H1]. apply andb_true_iff in H2 as [_ H2].
    destruct (IH l2 r1 r2 H1 H2 Hx Hx' E) as (-> & -> & ->). auto.
Qed.

Lemma forallb_rev' {B} (P : B -> bool) (l : list B) :
  forallb P (rev l) = forallb P l.
Proof.
  induction l as [|a l IH]; simpl; [reflexivity|].
  rewrite forallb_app, IH. simpl. rewrite andb_true_r. apply andb_comm.
Qed.

Lemma last_outside {B} (P : B -> bool) (x x' : B) a a' b b' :
  forallb P b = true -> forallb P b' = true ->
  P x = false -> P x' = false ->
  a ++ x :: b = a' ++ x' :: b' ->
  a = a' /\ x = x' /\ b = b'.
Proof.
  intros Hb Hb' Hx Hx' E. apply (f_equal (@rev B)) in E.
  rewrite !rev_app_distr in E. simpl in E. rewrite <- !app_assoc in E.
  simpl in E.
  apply first_outside with (P := P) in E as (E1 & E2 & E3); auto.
  - apply (f_equal (@rev B)) in E1, E3. rewrite !rev_involutive in E1, E3.
    auto.
  - now rewrite forallb_rev'.
  - now rewrite forallb_rev'.
Qed.

Lemma ends_with_space_snoc t c :
  ends_with_space (t ++ [c]) = is_space c.
Proof. unfold ends_with_space. now rewrite rev_app_distr. Qed.

(** The decoration matches only where white space, a hyphen, white space
    and "YouTube" end the input, and not before the first of that white
    space. *)
Lemma RE_YT_PLAYLIST_leftmost t sp1 sp2 pre' post' :
  forallb is_space sp1 = true -> forallb is_space sp2 = true ->
  ends_with_space t = false ->
  t ++ sp1 ++ lit "-" ++ sp2 ++ lit "YouTube" = pre' ++ post' ->
  List.length pre' < List.length t ->
  mt RE_YT_PLAYLIST (MState (rev pre' ++ []) post' []) = [].
Proof.
  intros H1 H2 Ht Hs Hl. apply no_match_nil. intros y Hin.
  apply RE_YT_PLAYLIST_inv in Hin as (l & l0 & Hl1 & Hl2 & Hr & _).
  simpl in Hr. subst post'.
  assert (Hs' : (t ++ sp1) ++ 45%N :: sp2 = (pre' ++ l) ++ 45%N :: l0).
  { apply app_inv_tail with (l := lit "YouTube").
    rewrite <- !app_assoc. exact Hs. }
  clear Hs.
  apply last_outside with (P := is_space) in Hs' as (Hs & _ & _);
    auto; try reflexivity.
  assert (Hsplit : exists u, t = pre' ++ u /\ u <> []).
  { exists (skipn (List.length pre') t).
    assert (Hf : firstn (List.length pre') (t ++ sp1) = pre').
    { rewrite Hs. rewrite firstn_app, Nat.sub_diag, firstn_all. simpl.
      apply app_nil_r. }
    rewrite firstn_app in Hf.
    replace (List.length pre' - List.length t) with 0 in Hf by lia.
    simpl in Hf. rewrite app_nil_r in Hf. split.
    - rewrite <- Hf at 1. symmetry. apply firstn_skipn.
    - intro E. apply (f_equal (@List.length N)) in E.
      rewrite length_skipn in E. simpl in E. lia. }
  destruct Hsplit as (u & -> & Hu).
  rewrite <- app_assoc in Hs. apply app_inv_head in Hs.
  destruct (exists_last Hu) as (u' & c & ->).
  rewrite app_assoc, ends_with_space_snoc in Ht.
  rewrite <- Hs, <- app_assoc, !forallb_app in Hl1. simpl in Hl1.
  rewrite Ht in Hl1. simpl in Hl1. now rewrite andb_false_r in Hl1.
Qed.

(** X2.  [removeYouTubeKeyword] removes from a string the white space, the
    hyphen, the white space and the word "YouTube" that end it, all of the
    white space before the hyphen included, and changes no other string:
    a string that does not end with a hyphen, white space or none, and
    "YouTube" is returned as it is. *)
Theorem removeYouTubeKeyword_spec (s t : jsstring) :
  removeYouTubeKeyword (Some s) = Return t <->
  (exists sp1 sp2 : jsstring,
     forallb is_space sp1 = true /\ forallb is_space sp2 = true
     /\ ends_with_space t = false
     /\ s = t ++ sp1 ++ lit "-" ++ sp2 ++ lit "YouTube")
  \/ (t = s /\ ~ ends_with_decoration s).
Proof.
  unfold removeYouTubeKeyword, replace, exec. split.
  - destruct (search RE_YT_PLAYLIST [] s) as [m|] eqn:E.
    + apply search_spec in E as (pre & post & tl & -> & Hst & Hmt & Hleft).
      assert (Hin : In (stop m) (mt RE_YT_PLAYLIST (start m)))
        by (rewrite Hmt; now left).
      apply RE_YT_PLAYLIST_inv in Hin as (sp1 & sp2 & H1 & H2 & Hr & Hy).
      rewrite Hst in Hr. simpl in Hr. subst post.
      rewrite Hst, Hy. simpl. rewrite !app_nil_r, rev_involutive.
      intros [= <-]. left. exists sp1, sp2. repeat split; auto.
      destruct (ends_with_space pre) eqn:Ep; [exfalso|reflexivity].
      unfold ends_with_space in Ep.
      destruct (rev pre) as [|c rp] eqn:Erev; [discriminate|].
      apply (f_equal (@rev N)) in Erev. rewrite rev_involutive in Erev.
      simpl in Erev. subst pre.
      destruct (RE_YT_PLAYLIST_intro (rev (rev rp) ++ []) (c :: sp1) sp2)
        as (y & [l Hy'] & _); [simpl; now rewrite Ep, H1|assumption|].
      rewrite (Hleft (rev rp)
                 ((c :: sp1) ++ lit "-" ++ sp2 ++ lit "YouTube")) in Hy'.
      * discriminate.
      * now rewrite <- !app_assoc.
      * rewrite length_app. simpl. lia.
    + intros [= <-]. right. split; [reflexivity|].
      intros (pre & sp & Hsp & ->).
      destruct (RE_YT_PLAYLIST_intro (rev pre ++ []) [] sp eq_refl Hsp)
        as (y & [l Hy] & _).
      rewrite (search_none _ _ _ E pre ([] ++ lit "-" ++ sp ++ lit "YouTube")
                           eq_refl) in Hy.
      discriminate.
  - intros [(sp1 & sp2 & H1 & H2 & Ht & ->)|[-> Hn]].
    + destruct (RE_YT_PLAYLIST_intro (rev t ++ []) sp1 sp2 H1 H2)
        as (y & [tl Hy] & Hrest).
      assert (E : search RE_YT_PLAYLIST []
                    (t ++ sp1 ++ lit "-" ++ sp2 ++ lit "YouTube")
                  = Some (Found (MState (rev t ++ [])
                                   (sp1 ++ lit "-" ++ sp2 ++ lit "YouTube") [])
                                y)).
      { apply search_spec.
        exists t, (sp1 ++ lit "-" ++ sp2 ++ lit "YouTube"), tl.
        repeat split; auto.
        intros pre' post' Hs Hl.
        now apply (RE_YT_PLAYLIST_leftmost t sp1 sp2). }
      rewrite E. simpl. rewrite Hrest, !app_nil_r, rev_involutive.
      reflexivity.
    + destruct (search RE_YT_PLAYLIST [] s) as [m|] eqn:E; [|reflexivity].
      exfalso. apply Hn.
      apply search_found in E as (pre & post & -> & Hst & Hin).
      apply RE_YT_PLAYLIST_inv in Hin as (sp1 & sp2 & H1 & H2 & Hr & _).
      rewrite Hst in Hr. simpl in Hr. subst post.
      exists (pre ++ sp1), sp2. split; [assumption|].
      now rewrite <- !app_assoc.
Qed.

(** ** What formatContent returns *)

Lemma bol_at_start pre (bef : jsstring) : rev pre ++ bef = [] -> pre = [].
Proof.
  destruct pre as [|p pre]; [reflexivity|]. simpl. rewrite <- app_assoc.
  intro H. apply app_eq_nil in H as [_ H]. discriminate.
Qed.

Ltac shape_tac :=
  caps_tac; repeat split; auto using nonempty_length;
  simpl in *; try congruence.


Lemma RE_HYPERTEXT_1_shape c m :
  exec RE_HYPERTEXT_1 c = Some m ->
  exists g1 sp g2 tail,
    group 1 m = Some g1 /\ group 2 m = Some g2
    /\ c = g1 ++ sp ++ lit "(" ++ g2 ++ lit ")" ++ tail
    /\ g1 <> [] /\ g2 <> [].
Proof.
  intro H. apply search_found in H as (pre & post & -> & Hs & Hin).
  unfold group. destruct m as [x y]. simpl start in *. simpl stop in *.
  expand_re RE_HYPERTEXT_1 Hin. mt_inv Hin. lit_chars.
  assert (pre = []) as -> by (subst x; exact (bol_at_start _ _ H)).
  exists l, (l0 ++ l1), l2, (rest y). shape_tac.
  rewrite <- app_assoc. congruence.
Qed.

Lemma RE_HYPERTEXT_2_shape c m :
  exec RE_HYPERTEXT_2 c = Some m ->
  exists g1 sp g2 tail,
    group 1 m = Some g1 /\ group 2 m = Some g2
    /\ c = lit "[" ++ g1 ++ lit "]" ++ sp ++ lit "(" ++ g2 ++ lit ")" ++ tail
    /\ g1 <> [] /\ g2 <> [].
Proof.
  intro H. apply search_found in H as (pre & post & -> & Hs & Hin).
  unfold group. destruct m as [x y]. simpl start in *. simpl stop in *.
  expand_re RE_HYPERTEXT_2 Hin. mt_inv Hin. lit_chars.
  assert (pre = []) as -> by (subst x; exact (bol_at_start _ _ H)).
  exists l, l0, l1, (rest y). shape_tac.
Qed.



Lemma part_of_prefix t sfx : part_of t (t ++ sfx).
Proof. now exists [], sfx. Qed.



(** The hypertext forms of a content: where a pattern applies, the two
    groups are parts of the content. *)
Lemma hypertext_cases c :
  (exists m g1 g2, exec RE_HYPERTEXT_1 c = Some m
                   /\ group 1 m = Some g1 /\ group 2 m = Some g2
                   /\ part_of g1 c /\ part_of g2 c)
  \/ (exec RE_HYPERTEXT_1 c = None
      /\ exists m g1 g2, exec RE_HYPERTEXT_2 c = Some m
                         /\ group 1 m = Some g1 /\ group 2 m = Some g2
                         /\ part_of g1 c /\ part_of g2 c)
  \/ (exec RE_HYPERTEXT_1 c = None /\ exec RE_HYPERTEXT_2 c = None).
Proof.
  destruct (exec RE_HYPERTEXT_1 c) as [m|] eqn:E1.
  { left. destruct (RE_HYPERTEXT_1_shape _ _ E1)
      as (g1 & sp & g2 & tail & H1 & H2 & -> & _).
    exists m, g1, g2. repeat split; auto.
    - apply part_of_prefix.
    - exists (g1 ++ sp ++ lit "("), (lit ")" ++ tail).
      now rewrite <- !app_assoc. }
  right. destruct (exec RE_HYPERTEXT_2 c) as [m|] eqn:E2; [left|now right].
  split; [reflexivity|].
  destruct (RE_HYPERTEXT_2_shape _ _ E2)
    as (g1 & sp & g2 & tail & H1 & H2 & -> & _).
  exists m, g1, g2. repeat split; auto.
  - exists (lit "["), (lit "]" ++ sp ++ lit "(" ++ g2 ++ lit ")" ++ tail).
    reflexivity.
  - exists (lit "[" ++ g1 ++ lit "]" ++ sp ++ lit "("), (lit ")" ++ tail).
    now rewrite <- !app_assoc.
Qed.



(** ** More about the item filter *)

Lemma filterItem_unknown sm st item :
  knownSection sm item = false -> filterItem sm st item = Return st.
Proof. unfold filterItem, knownSection. now intros ->. Qed.

Lemma filterItems_known sm items :
  forall st,
    filterItems sm items st = filterItems sm (filter (knownSection sm) items) st.
Proof.
  induction items as [|item items IH]; intro st; [reflexivity|].
  cbn [filter]. destruct (knownSection sm item) eqn:E.
  - cbn [filterItems]. destruct (filterItem sm st item); cbn [bind]; auto.
  - cbn [filterItems]. rewrite (filterItem_unknown sm st item E). cbn [bind].
    apply IH.
Qed.

(** X4.  The items whose section is not a key of the map have no effect at
    all: the filter gives the same result, tasks, category ids or exception,
    with these items taken out of the input. *)
Theorem formatProjectItems_forgets_unknown_sections
    (items : list Item.t) (sectionsNameById : option SectionMap) :
  let sm := match sectionsNameById with Some m => m | None => rootOnly end in
  formatProjectItems items sectionsNameById
  = formatProjectItems (filter (knownSection sm) items) sectionsNameById.
Proof.
  intro sm. unfold formatProjectItems. fold sm.
  now rewrite (filterItems_known sm items).
Qed.

Lemma knownSection_rootOnly item :
  knownSection rootOnly item
  = match Item.section_id item with None => true | Some _ => false end.
Proof.
  unfold knownSection, rootOnly, Obj.has. destruct (Item.section_id item) as [z|];
    [|reflexivity].
  cbn [propertyKey Obj.get].
  now rewrite (str_eqb_neq _ _ (Number_toString_not_null z)).
Qed.

Lemma filter_pointwise {B} (f g : B -> bool) (l : list B) :
  (forall x, f x = g x) -> filter f l = filter g l.
Proof.
  intro H. induction l as [|x l IH]; simpl; [reflexivity|].
  now rewrite H, IH.
Qed.

(** X5.  Called without a map, the filter keeps only the items that belong
    to no section: every item with a section id is dropped. *)
Theorem formatProjectItems_default_keeps_sectionless
    (items : list Item.t) :
  formatProjectItems items None
  = formatProjectItems
      (filter (fun item => match Item.section_id item with
                           | None => true
                           | Some _ => false
                           end) items)
      None.
Proof.
  unfold formatProjectItems.
  rewrite (filterItems_known rootOnly items).
  now rewrite (filter_pointwise _ _ items knownSection_rootOnly).
Qed.

(** What one iteration emits. *)
Lemma filterItem_emits sm st item st' :
  filterItem sm st item = Return st' ->
  (selectedTasks st' = selectedTasks st)
  \/ exists task, formatItem item = Return task
                  /\ selectedTasks st' = selectedTasks st ++ [task]
                  /\ eligible sm item = true.
Proof.
  unfold filterItem, eligible, knownSection.
  destruct (Obj.has (propertyKey (Item.section_id item)) sm); cbn [negb andb];
    [|intros [= <-]; auto].
  destruct (test RE_IGNORE_ITEM (Item.content item)); cbn [negb andb];
    [intros [= <-]; auto|].
  destruct (test RE_CATEGORY_ITEM (Item.content item)).
  - rewrite orb_true_r. cbn [negb bind]. intros [= <-]. cbn. auto.
  - rewrite orb_false_r.
    destruct (loose_eq (Item.parent_id item) (lastSkippedParentId st));
      cbn [negb bind].
    + intros [= <-]. cbn. auto.
    + destruct (formatItem item) as [task|] eqn:E; cbn [bind]; [|intros [=]].
      intros [= <-]. cbn. right. exists task. auto.
Qed.

Lemma filterItems_emits sm items :
  forall st st',
    filterItems sm items st = Return st' ->
    exists kept tasks,
      subseq kept (filter (eligible sm) items)
      /\ Forall2 (fun item task => formatItem item = Return task) kept tasks
      /\ selectedTasks st' = selectedTasks st ++ tasks.
Proof.
  induction items as [|item items IH]; intros st st'; cbn [filterItems].
  - intros [= <-]. exists [], []. rewrite app_nil_r.
    repeat split; constructor.
  - destruct (filterItem sm st item) as [st1|] eqn:E; cbn [bind];
      [|intros [=]].
    intro H. apply IH in H as (kept & tasks & Hsub & Hfmt & Ht).
    apply filterItem_emits in E as [Et|(task & Ef & Et & He)].
    + exists kept, tasks. rewrite Ht, Et. repeat split; auto.
      cbn [filter]. destruct (eligible sm item); auto. now constructor.
    + exists (item :: kept), (task :: tasks).
      rewrite Ht, Et, <- app_assoc. cbn [filter]. rewrite He.
      repeat split; auto; now constructor.
Qed.

Lemma subseq_length {B} (l1 l2 : list B) :
  subseq l1 l2 -> List.length l1 <= List.length l2.
Proof. induction 1; simpl; lia. Qed.

Lemma eligible_marker_length sm items :
  List.length (filter (eligible sm) items)
  + List.length (filter (is_marker sm) items) <= List.length items.
Proof.
  induction items as [|item items IH]; simpl; [lia|].
  unfold eligible at 1, is_marker at 1, knownSection.
  destruct (Obj.has (propertyKey (Item.section_id item)) sm),
    (test RE_IGNORE_ITEM (Item.content item)),
    (test RE_CATEGORY_ITEM (Item.content item)); simpl; lia.
Qed.

(** X6.  The returned tasks are the formats, in the order of the input, of
    items that are in a known section and carry neither the ignore marker
    nor the category marker; and the tasks and the category ids together
    are no more than the items. *)
Theorem formatProjectItems_emits_eligible_in_order
    (items : list Item.t) (sectionsNameById : option SectionMap)
    (tasks : list Task.t) (cats : list Z) :
  formatProjectItems items sectionsNameById = Return (tasks, cats) ->
  let sm := match sectionsNameById with Some m => m | None => rootOnly end in
  (exists kept,
     subseq kept (filter (eligible sm) items)
     /\ Forall2 (fun item task => formatItem item = Return task) kept tasks)
  /\ List.length tasks + List.length cats <= List.length items.
Proof.
  intros H sm. unfold formatProjectItems in H. fold sm in H.
  destruct (filterItems sm items (mkFilter [] [] NIL)) as [st|] eqn:E;
    cbn [bind] in H; [|discriminate].
  injection H as <- <-.
  pose proof (filterItems_lists sm items _ _ E) as [Hc _].
  apply filterItems_emits in E as (kept & ts & Hsub & Hfmt & Ht).
  cbn in Hc, Ht. subst ts. split; [eauto|].
  rewrite Hc, length_map, <- (Forall2_length Hfmt).
  pose proof (subseq_length _ _ Hsub).
  pose proof (eligible_marker_length sm items). lia.
Qed.

Lemma formatProjectItems_emits_eligible_in_order_witness :
  (exists kept,
     subseq kept (filter (eligible rootOnly)
                         [Sample.A; Sample.B; Sample.C; Sample.D])
     /\ Forall2 (fun item task => formatItem item = Return task) kept
                [Sample.task 1 None (lit "Write report");
                 Sample.task 4 None (lit "Buy milk")])
  /\ List.length [Sample.task 1 None (lit "Write report");
                  Sample.task 4 None (lit "Buy milk")]
     + List.length (@nil Z)
     <= List.length [Sample.A; Sample.B; Sample.C; Sample.D].
Proof.
  apply (formatProjectItems_emits_eligible_in_order
           [Sample.A; Sample.B; Sample.C; Sample.D] (Some rootOnly)).
  vm_compute. reflexivity.
Defined.

(** *** Exceptions *)

Lemma formatDate_throws_TypeError v e :
  formatDate v = Throw e -> e = TypeError.
Proof.
  unfold formatDate. destruct v as [s|]; [|now intros [= <-]].
  destruct (exec RE_DATE s); [intros [=]|now intros [= <-]].
Qed.

Lemma formatItem_dated item :
  begins_with_date (Item.date_added item) ->
  exists task, formatItem item = Return task.
Proof.
  intros (yyyy & mm & dd & tail & Hy & Hm & Hd & Hdig & Hs).
  unfold formatItem. rewrite Hs, (formatDate_renders _ _ _ _ Hy Hm Hd Hdig).
  destruct (formatContent_total (Item.content item)) as [r ->].
  cbn [bind]. eauto.
Qed.

Lemma formatItem_throws item e :
  formatItem item = Throw e ->
  e = TypeError /\ ~ begins_with_date (Item.date_added item).
Proof.
  intro H. split.
  - unfold formatItem in H.
    destruct (formatDate (Some (Item.date_added item))) as [d|e'] eqn:Ed;
      cbn [bind] in H.
    + destruct (formatContent_total (Item.content item)) as [r Hr].
      rewrite Hr in H. discriminate.
    + injection H as <-. now apply formatDate_throws_TypeError in Ed.
  - intro Hd. destruct (formatItem_dated item Hd) as [task Ht]. congruence.
Qed.

Lemma filterItem_total sm st item :
  (eligible sm item = true -> begins_with_date (Item.date_added item)) ->
  exists st', filterItem sm st item = Return st'.
Proof.
  unfold filterItem, eligible, knownSection.
  destruct (Obj.has (propertyKey (Item.section_id item)) sm); cbn [negb andb];
    [|eauto].
  destruct (test RE_IGNORE_ITEM (Item.content item)); cbn [negb andb];
    [eauto|].
  destruct (test RE_CATEGORY_ITEM (Item.content item)); cbn [negb andb].
  - rewrite orb_true_r. cbn [negb bind]. eauto.
  - intro H. destruct (formatItem_dated item (H eq_refl)) as [task ->].
    rewrite orb_false_r.
    destruct (loose_eq (Item.parent_id item) (lastSkippedParentId st));
      cbn [negb bind]; eauto.
Qed.

(** X7.  The filter returns, rather than throws, whenever the
    [date_added] of every item it may emit begins with YYYY-MM-DD; the
    dates of the other items, and every content, are of no matter. *)
Theorem formatProjectItems_returns
    (items : list Item.t) (sectionsNameById : option SectionMap) :
  let sm := match sectionsNameById with Some m => m | None => rootOnly end in
  Forall (fun item => eligible sm item = true ->
                      begins_with_date (Item.date_added item)) items ->
  exists tasks cats,
    formatProjectItems items sectionsNameById = Return (tasks, cats).
Proof.
  intros sm Hall. unfold formatProjectItems. fold sm.
  assert (H : forall st, exists st', filterItems sm items st = Return st').
  { induction Hall as [|item items Hi _ IH]; intro st; cbn [filterItems].
    - eauto.
    - destruct (filterItem_total sm st item Hi) as [st1 ->]. cbn [bind].
      apply IH. }
  destruct (H (mkFilter [] [] NIL)) as [st' ->]. cbn [bind]. eauto.
Qed.

Lemma formatProjectItems_returns_witness :
  exists tasks cats,
    formatProjectItems
      [Sample.A; Sample.B;
       Item.mk 9 None None (lit "Later:") 0 (lit "no date") 1]
      None
    = Return (tasks, cats).
Proof.
  apply (formatProjectItems_returns
           [Sample.A; Sample.B;
            Item.mk 9 None None (lit "Later:") 0 (lit "no date") 1] None).
  repeat constructor.
  - intros _. exists (lit "2019"), (lit "07"), (lit "15"), (lit "T10:00:00Z").
    repeat split; reflexivity.
  - vm_compute. discriminate.
  - vm_compute. discriminate.
Defined.

Lemma filterItem_throws sm st item e :
  filterItem sm st item = Throw e ->
  eligible sm item = true /\ formatItem item = Throw e.
Proof.
  unfold filterItem, eligible, knownSection.
  destruct (Obj.has (propertyKey (Item.section_id item)) sm); cbn [negb andb];
    [|intros [=]].
  destruct (test RE_IGNORE_ITEM (Item.content item)); cbn [negb andb];
    [intros [=]|].
  destruct (test RE_CATEGORY_ITEM (Item.content item)); cbn [negb andb].
  - rewrite orb_true_r. cbn [negb bind]. intros [=].
  - rewrite orb_false_r.
    destruct (loose_eq (Item.parent_id item) (lastSkippedParentId st));
      cbn [negb bind]; [intros [=]|].
    destruct (formatItem item) as [task|e'] eqn:E; cbn [bind]; [intros [=]|].
    intros [= <-]. auto.
Qed.

(** X8.  When the filter throws, it throws a TypeError, and the input
    holds an item it may emit whose [date_added] does not begin with
    YYYY-MM-DD: nothing else makes it throw. *)
Theorem formatProjectItems_throws_on_date_only
    (items : list Item.t) (sectionsNameById : option SectionMap)
    (e : JSError) :
  formatProjectItems items sectionsNameById = Throw e ->
  let sm := match sectionsNameById with Some m => m | None => rootOnly end in
  e = TypeError
  /\ exists item, In item items /\ eligible sm item = true
                  /\ ~ begins_with_date (Item.date_added item).
Proof.
  intros H sm. unfold formatProjectItems in H. fold sm in H.
  destruct (filterItems sm items (mkFilter [] [] NIL)) as [st|e'] eqn:E;
    cbn [bind] in H; [discriminate|].
  injection H as <-. revert E. generalize (mkFilter [] [] NIL).
  induction items as [|item items IH]; intros st; cbn [filterItems];
    [intros [=]|].
  destruct (filterItem sm st item) as [st1|e1] eqn:E1; cbn [bind].
  - intro H. destruct (IH st1 H) as (He & x & Hx & Hel & Hd).
    split; [exact He|]. exists x. simpl. auto.
  - intros [= <-]. apply filterItem_throws in E1 as [Hel Hf].
    apply formatItem_throws in Hf as [He Hd].
    split; [exact He|]. exists item. simpl. auto.
Qed.

Lemma formatProjectItems_throws_on_date_only_witness :
  TypeError = TypeError
  /\ exists item,
       In item [Item.mk 9 None None (lit "Later") 0 (lit "no date") 1]
       /\ eligible rootOnly item = true
       /\ ~ begins_with_date (Item.date_added item).
Proof.
  apply (formatProjectItems_throws_on_date_only
           [Item.mk 9 None None (lit "Later") 0 (lit "no date") 1] None).
  vm_compute. reflexivity.
Defined.

(** *** The skipped children *)

Lemma filterItems_app sm l1 l2 st :
  filterItems sm (l1 ++ l2) st
  = (st' <- filterItems sm l1 st ;; filterItems sm l2 st').
Proof.
  revert st. induction l1 as [|item l1 IH]; intro st; [reflexivity|].
  cbn [app filterItems].
  destruct (filterItem sm st item) as [st1|e]; cbn [bind]; auto.
Qed.

Lemma filterItem_ignored sm st item :
  knownSection sm item = true ->
  test RE_IGNORE_ITEM (Item.content item) = true ->
  filterItem sm st item
  = Return (mkFilter (selectedTasks st) (categoryIds st) (Item.id item)).
Proof.
  unfold filterItem, knownSection. now intros -> ->.
Qed.

Lemma filterItem_skipped_child sm tasks cats parent item :
  Item.parent_id item = Some parent ->
  test RE_IGNORE_ITEM (Item.content item) = false ->
  test RE_CATEGORY_ITEM (Item.content item) = false ->
  filterItem sm (mkFilter tasks cats parent) item
  = Return (mkFilter tasks cats parent).
Proof.
  intros Hp Hi Hc. unfold filterItem.
  destruct (Obj.has (propertyKey (Item.section_id item)) sm); cbn [negb];
    [|reflexivity].
  rewrite Hi, Hc, Hp. cbn. rewrite Z.eqb_refl. reflexivity.
Qed.

Lemma filterItems_skipped_children sm tasks cats parent children :
  Forall (fun child =>
            Item.parent_id child = Some parent
            /\ test RE_IGNORE_ITEM (Item.content child) = false
            /\ test RE_CATEGORY_ITEM (Item.content child) = false)
         children ->
  forall rest,
    filterItems sm (children ++ rest) (mkFilter tasks cats parent)
    = filterItems sm rest (mkFilter tasks cats parent).
Proof.
  induction 1 as [|child children (Hp & Hi & Hc) _ IH]; intro rest;
    [reflexivity|].
  cbn [app filterItems].
  rewrite (filterItem_skipped_child sm tasks cats parent child Hp Hi Hc).
  cbn [bind]. apply IH.
Qed.

(** X9.  After an item marked to be ignored, the run of its direct
    children that carry no marker of their own is dropped without a trace:
    the filter gives the same result with this run taken out of the
    input. *)
Theorem formatProjectItems_drops_children_of_ignored
    (before : list Item.t) (ignored : Item.t) (children after : list Item.t)
    (sectionsNameById : option SectionMap) :
  let sm := match sectionsNameById with Some m => m | None => rootOnly end in
  knownSection sm ignored = true ->
  test RE_IGNORE_ITEM (Item.content ignored) = true ->
  Forall (fun child =>
            Item.parent_id child = Some (Item.id ignored)
            /\ test RE_IGNORE_ITEM (Item.content child) = false
            /\ test RE_CATEGORY_ITEM (Item.content child) = false)
         children ->
  formatProjectItems (before ++ ignored :: children ++ after) sectionsNameById
  = formatProjectItems (before ++ ignored :: after) sectionsNameById.
Proof.
  intros sm Hk Hi Hch. unfold formatProjectItems. fold sm.
  rewrite !filterItems_app.
  destruct (filterItems sm before (mkFilter [] [] NIL)) as [st|e];
    cbn [bind]; [|reflexivity].
  cbn [filterItems]. rewrite (filterItem_ignored sm st ignored Hk Hi).
  cbn [bind].
  now rewrite (filterItems_skipped_children sm _ _ _ children Hch after).
Qed.

Lemma formatProjectItems_drops_children_of_ignored_witness :
  formatProjectItems ([Sample.A] ++ Sample.B :: [Sample.C] ++ [Sample.D]) None
  = formatProjectItems ([Sample.A] ++ Sample.B :: [Sample.D]) None.
Proof.
  apply (formatProjectItems_drops_children_of_ignored
           [Sample.A] Sample.B [Sample.C] [Sample.D] None);
    try reflexivity.
  repeat constructor.
Defined.

(** X10.  The skip reaches the direct children only: when a child of an
    ignored item carries no marker, an unmarked item under that child is
    emitted. *)
Theorem formatProjectItems_emits_grandchild_of_ignored
    (ignored child grandchild : Item.t) (sectionsNameById : SectionMap)
    (task : Task.t) :
  knownSection sectionsNameById ignored = true ->
  test RE_IGNORE_ITEM (Item.content ignored) = true ->
  Item.parent_id child = Some (Item.id ignored) ->
  test RE_IGNORE_ITEM (Item.content child) = false ->
  test RE_CATEGORY_ITEM (Item.content child) = false ->
  Item.id child <> Item.id ignored ->
  Item.parent_id grandchild = Some (Item.id child) ->
  eligible sectionsNameById grandchild = true ->
  formatItem grandchild = Return task ->
  formatProjectItems [ignored; child; grandchild] (Some sectionsNameById)
  = Return ([task], []).
Proof.
  intros Hk Hi Hp Hci Hcc Hne Hgp Hel Hf.
  unfold formatProjectItems. cbn [filterItems].
  rewrite (filterItem_ignored _ _ ignored Hk Hi). cbn [bind].
  cbn [selectedTasks categoryIds].
  rewrite (filterItem_skipped_child _ _ _ _ child Hp Hci Hcc). cbn [bind].
  unfold eligible, knownSection in Hel.
  apply andb_true_iff in Hel as [Hel Hgc].
  apply andb_true_iff in Hel as [Hgk Hgi].
  apply negb_true_iff in Hgc, Hgi.
  unfold filterItem. rewrite Hgk, Hgi, Hgc, Hgp, Hf. cbn.
  assert (Hb : (Item.id child =? Item.id ignored)%Z = false)
    by now apply Z.eqb_neq.
  rewrite Hb. reflexivity.
Qed.

Lemma formatProjectItems_emits_grandchild_of_ignored_witness :
  formatProjectItems
    [Sample.B; Sample.C; Sample.item 5 (Some 3%Z) (lit "Staple pages")]
    (Some rootOnly)
  = Return ([Sample.task 5 (Some 3%Z) (lit "Staple pages")], []).
Proof.
  apply (formatProjectItems_emits_grandchild_of_ignored
           Sample.B Sample.C
           (Sample.item 5 (Some 3%Z) (lit "Staple pages")) rootOnly);
    try reflexivity.
  vm_compute. discriminate.
Defined.

(** ** The project data *)

Lemma partition_by_checked (tasks : list Task.t) :
  forall pending done : list Task.t,
    fold_left (fun itemsPair item =>
                 if Task.checked item
                 then (fst itemsPair, snd itemsPair ++ [item])
                 else (fst itemsPair ++ [item], snd itemsPair))
              tasks (pending, done)
    = (pending ++ filter (fun t => negb (Task.checked t)) tasks,
       done ++ filter Task.checked tasks).
Proof.
  induction tasks as [|t tasks IH]; intros pending done; cbn [fold_left filter].
  - now rewrite !app_nil_r.
  - destruct (Task.checked t); cbn [fst snd negb]; rewrite IH, <- app_assoc;
      reflexivity.
Qed.

(** X11.  [mapProjectDataToItems] throws when the filter throws; otherwise
    it returns the name of the project, the checked tasks of the filter
    under [done] and the others under [pending], each in the order of the
    filter, and the category ids of the filter. *)
Theorem mapProjectDataToItems_partitions
    (projectName : jsstring) (items : list Item.t)
    (sectionsNameById : option SectionMap) :
  mapProjectDataToItems projectName items sectionsNameById
  = match formatProjectItems items sectionsNameById with
    | Return (tasks, cats) =>
        Return (mkResponse projectName
                  (mkProjectItems
                     (filter Task.checked tasks)
                     (filter (fun t => negb (Task.checked t)) tasks)),
                cats)
    | Throw e => Throw e
    end.
Proof.
  unfold mapProjectDataToItems.
  destruct (formatProjectItems items sectionsNameById) as [[tasks cats]|e];
    cbn [bind]; [|reflexivity].
  now rewrite partition_by_checked.
Qed.

(** ** More about the section map *)

Lemma get_set {V} (k k' : jsstring) (v : V) (o : Obj.JSObject V) :
  Obj.get k (Obj.set k' v o) = if str_eqb k k' then Some v else Obj.get k o.
Proof.
  induction o as [|[k0 v0] o IH]; cbn [Obj.set Obj.get].
  - reflexivity.
  - destruct (str_eqb k' k0) eqn:E; cbn [Obj.get].
    + apply str_eqb_eq in E. subst k0.
      destruct (str_eqb k k'); reflexivity.
    + destruct (str_eqb k k0) eqn:E0.
      * apply str_eqb_eq in E0. subst k0.
        destruct (str_eqb k k') eqn:E1; [|reflexivity].
        apply str_eqb_eq in E1. subst k'. rewrite str_eqb_refl in E.
        discriminate.
      * exact IH.
Qed.

Lemma has_set {V} (k k' : jsstring) (v : V) (o : Obj.JSObject V) :
  Obj.has k (Obj.set k' v o) = str_eqb k k' || Obj.has k o.
Proof.
  unfold Obj.has. rewrite get_set. destruct (str_eqb k k'); reflexivity.
Qed.

Lemma str_eqb_Number_toString (z z' : Z) :
  str_eqb (Number_toString z) (Number_toString z') = Z.eqb z z'.
Proof.
  destruct (Z.eqb z z') eqn:E.
  - apply Z.eqb_eq in E. subst. apply str_eqb_refl.
  - apply str_eqb_neq. intro H. apply Number_toString_inj in H.
    apply Z.eqb_neq in E. contradiction.
Qed.

Lemma reduce_addSection_keys (sections : list SectionRec.t) :
  forall m0 m : SectionMap,
    reduce addSection sections m0 = Return m ->
    (forall z,
       Obj.has (Number_toString z) m
       = Obj.has (Number_toString z) m0
         || existsb (fun s =>
                       Z.eqb (SectionRec.id s) z
                       && negb (test RE_IGNORE_SECTION
                                     (trim (SectionRec.name s))))
                    sections)
    /\ (forall k v,
          Obj.get k m = Some v ->
          Obj.get k m0 = Some v
          \/ exists s r,
               In s sections
               /\ k = Number_toString (SectionRec.id s)
               /\ test RE_IGNORE_SECTION (trim (SectionRec.name s)) = false
               /\ formatContent (Some (SectionRec.name s)) = Return r
               /\ v = ParsedName r).
Proof.
  induction sections as [|s sections IH]; intros m0 m; cbn [reduce].
  - intros [= <-]. split.
    + intro z. cbn. now rewrite orb_false_r.
    + auto.
  - destruct (addSection m0 s) as [m1|e] eqn:E; cbn [bind]; [|intros [=]].
    intro H. apply IH in H as [Hkeys Hvals].
    unfold addSection in E.
    destruct (test RE_IGNORE_SECTION (trim (SectionRec.name s))) eqn:Ei;
      cbn [negb] in E.
    + injection E as <-. split.
      * intro z. rewrite Hkeys. cbn [existsb]. rewrite Ei.
        now rewrite andb_false_r.
      * intros k v Hg. destruct (Hvals k v Hg) as [H|(s' & r & Hin & H)];
          [auto|].
        right. exists s', r. simpl. tauto.
    + destruct (formatContent (Some (SectionRec.name s))) as [r|e] eqn:Ef;
        cbn [bind] in E; [|discriminate].
      injection E as <-. split.
      * intro z. rewrite Hkeys, has_set, str_eqb_Number_toString.
        cbn [existsb]. rewrite Ei. cbn [negb]. rewrite andb_true_r.
        rewrite (Z.eqb_sym z). now rewrite orb_assoc, (orb_comm (Obj.has _ m0)).
      * intros k v Hg. destruct (Hvals k v Hg) as [H|(s' & r' & Hin & H)].
        -- rewrite get_set in H.
           destruct (str_eqb k (Number_toString (SectionRec.id s))) eqn:Ek;
             [|auto].
           apply str_eqb_eq in Ek. injection H as <-.
           right. exists s, r. simpl. auto.
        -- right. exists s', r'. simpl. tauto.
Qed.

Lemma existsb_filter {B} (f g : B -> bool) (l : list B) :
  existsb f (filter g l) = existsb (fun x => f x && g x) l.
Proof.
  induction l as [|x l IH]; simpl; [reflexivity|].
  destruct (g x); simpl; rewrite IH; [now rewrite andb_true_r|].
  now rewrite andb_false_r.
Qed.

(** X12.  The map [getSectionsGroupedByProjectId] resolves to has, beside
    the sentinel, exactly the ids of the sections it keeps: those of the
    project asked for (of every project when the id asked for is 0) whose
    name, trimmed, does not end in the ignore glyph.  The value under an id
    is the parse of the name of such a section. *)
Theorem getSectionsGroupedByProjectId_keys
    (sections : list SectionRec.t) (projectId : Z) :
  exists m : SectionMap,
    getSectionsGroupedByProjectId (Some (Fulfilled sections)) projectId
    = Some (Fulfilled m)
    /\ (forall z,
          Obj.has (Number_toString z) m
          = existsb (fun s => Z.eqb (SectionRec.id s) z
                              && keptSection projectId s) sections)
    /\ (forall z v,
          Obj.get (Number_toString z) m = Some v ->
          exists s r,
            In s sections /\ SectionRec.id s = z
            /\ keptSection projectId s = true
            /\ formatContent (Some (SectionRec.name s)) = Return r
            /\ v = ParsedName r).
Proof.
  unfold getSectionsGroupedByProjectId, _getSections, then_.
  set (kept := if negb (projectId =? 0)%Z
               then filter (fun section =>
                              (SectionRec.project_id section =? projectId)%Z)
                           sections
               else sections).
  assert (Hk : (if negb (projectId =? 0)%Z
                then Return (filter (fun section =>
                              (SectionRec.project_id section =? projectId)%Z)
                           sections)
                else Return sections) = Return kept)
    by (unfold kept; destruct (negb (projectId =? 0)%Z); reflexivity).
  rewrite Hk.
  destruct (reduce_keeps_sentinel kept []) as [m' Hm]. fold rootOnly in Hm.
  rewrite Hm. eexists. split; [reflexivity|].
  apply reduce_addSection_keys in Hm as [Hkeys Hvals].
  assert (Hroot : forall z, Obj.has (Number_toString z) rootOnly = false).
  { intro z. unfold Obj.has, rootOnly. cbn [Obj.get].
    now rewrite (str_eqb_neq _ _ (Number_toString_not_null z)). }
  split.
  - intro z. rewrite Hkeys, Hroot. cbn [orb]. unfold kept, keptSection.
    destruct (projectId =? 0)%Z; cbn [negb orb].
    + reflexivity.
    + rewrite existsb_filter. clear. induction sections as [|s l IH];
        simpl; [reflexivity|]. rewrite IH. f_equal.
      destruct (SectionRec.id s =? z)%Z,
        (SectionRec.project_id s =? projectId)%Z,
        (test RE_IGNORE_SECTION (trim (SectionRec.name s))); reflexivity.
  - intros z v Hg. destruct (Hvals _ v Hg) as [H|(s & r & Hin & Hkey & Hi & Hf & Hv)].
    + unfold rootOnly in H. cbn [Obj.get] in H.
      rewrite (str_eqb_neq _ _ (Number_toString_not_null z)) in H.
      discriminate.
    + apply Number_toString_inj in Hkey. exists s, r.
      unfold kept in Hin. unfold keptSection. rewrite Hi. cbn [negb].
      rewrite andb_true_r.
      destruct (projectId =? 0)%Z eqn:Ep; cbn [negb orb] in *.
      * auto.
      * apply filter_In in Hin as [Hin Hp]. rewrite Hp. auto.
Qed.

(** ** More about the pagination *)

Lemma fetchAllPages_replay_rejects (pages : list Page.t) :
  forall (e : JSError) (later : list (settled Page.t)) (fuel : nat)
         (params : Params) (data : Page.t) (log : list Params),
    Page.has_more data = true ->
    (forall p, In p pages -> Page.has_more p = true) ->
    List.length pages < fuel ->
    fetchAllPages Replay.post fuel params data
      (Replay.mk (map Fulfilled pages ++ Rejected e :: later) log)
    = (Some (Rejected e),
       Replay.mk later
         (log ++ map (fun p => Obj.set (lit "cursor") (Page.next_cursor p)
                                       params)
                     (data :: pages))).
Proof.
  induction pages as [|p pages IH];
    intros e later fuel params data log Hdata Hmore Hfuel;
    (destruct fuel as [|fuel]; [simpl in Hfuel; lia|]); cbn [map app].
  - now rewrite (fetchAllPages_rejected _ _ _ _ _ e _ Hdata
                   (Replay_post_next _ _ _ _)).
  - rewrite (fetchAllPages_step _ _ _ _ _ p _ Hdata
               (Replay_post_next _ _ _ _)).
    rewrite IH.
    + simpl. rewrite <- !app_assoc. simpl. rewrite set_set.
      rewrite (map_ext _ _
                 (fun q => set_set (lit "cursor") (Page.next_cursor data)
                                   (Page.next_cursor q) params)).
      reflexivity.
    + simpl. apply Hmore. now left.
    + intros q Hq. apply Hmore. now right.
    + simpl in Hfuel. lia.
Qed.

(** X13.  When the request of a page is rejected, after any number of
    pages that announce more, [_getArchivedProjectItems] rejects with the
    same reason: the items of the pages fetched before are not returned,
    no further request is made, and the responses that follow are left
    unread. *)
Theorem getArchivedProjectItems_rejection_propagates
    (paramKey paramValue : jsstring) (pages : list Page.t) (e : JSError)
    (later : list (settled Page.t)) (fuel : nat) :
  trim paramKey <> [] ->
  (forall p, In p pages -> Page.has_more p = true) ->
  List.length pages <= fuel ->
  let params : Params := Obj.set paramKey (Some paramValue) [] in
  _getArchivedProjectItems Replay.post fuel paramKey paramValue
    (Replay.mk (map Fulfilled pages ++ Rejected e :: later) [])
  = (Some (Rejected e),
     Replay.mk later
       (params :: map (fun p => Obj.set (lit "cursor") (Page.next_cursor p)
                                        params)
                      pages)).
Proof.
  intros Hkey Hmore Hfuel params. unfold _getArchivedProjectItems.
  destruct (trim paramKey) as [|c k]; [congruence|]. fold params.
  destruct pages as [|p pages]; cbn [map app]; rewrite Replay_post_next.
  - reflexivity.
  - rewrite (fetchAllPages_replay_rejects pages e later fuel params p).
    + reflexivity.
    + apply Hmore. now left.
    + intros q Hq. apply Hmore. now right.
    + simpl in Hfuel. lia.
Qed.

Lemma getArchivedProjectItems_rejection_propagates_witness :
  _getArchivedProjectItems Replay.post 1 (lit "section_id") (lit "5")
    (Replay.mk [Fulfilled Sample.page1; Rejected (Rejection (lit "503"));
                Fulfilled Sample.page2] [])
  = (Some (Rejected (Rejection (lit "503"))),
     Replay.mk [Fulfilled Sample.page2]
       [[(lit "section_id", Some (lit "5"))];
        [(lit "section_id", Some (lit "5"));
         (lit "cursor", Some (lit "c1"))]]).
Proof.
  apply (getArchivedProjectItems_rejection_propagates
           (lit "section_id") (lit "5") [Sample.page1]
           (Rejection (lit "503")) [Fulfilled Sample.page2] 1).
  - vm_compute. discriminate.
  - intros p [<-|[]]. reflexivity.
  - simpl. lia.
Defined.

Section AnyFetch.

Context {W : Type}.
Variable post : Params -> W -> Promise Page.t * W.

Lemma trim_spaces (s : jsstring) : forallb is_space s = true -> trim s = [].
Proof.
  intro H. unfold trim.
  assert (Hs : forall l, forallb is_space l = true -> trimStart l = []).
  { induction l as [|c l IH]; simpl; [reflexivity|].
    intro Hl. apply andb_true_iff in Hl as [-> Hl]. auto. }
  now rewrite (Hs s H).
Qed.

(** X14.  With a parameter name that is empty or made of white space,
    [_getArchivedProjectItems] rejects with a TypeError and makes no
    request, whatever the fetch capability. *)
Theorem getArchivedProjectItems_blank_key
    (fuel : nat) (paramKey paramValue : jsstring) (w : W) :
  forallb is_space paramKey = true ->
  _getArchivedProjectItems post fuel paramKey paramValue w
  = (Some (Rejected TypeError), w).
Proof.
  intro H. unfold _getArchivedProjectItems. now rewrite (trim_spaces _ H).
Qed.

End AnyFetch.

Lemma getArchivedProjectItems_blank_key_witness :
  _getArchivedProjectItems Replay.post 3 (lit "  ") (lit "7")
    (Replay.mk [Fulfilled Sample.page2] [])
  = (Some (Rejected TypeError), Replay.mk [Fulfilled Sample.page2] []).
Proof.
  apply (getArchivedProjectItems_blank_key Replay.post 3 (lit "  ") (lit "7")).
  reflexivity.
Defined.

(** ** More about the archive fan-out *)

Section Queries.

Variable server : Params -> Promise Page.t.
Variable fuel : nat.

Lemma fetchAllPages_log (n : nat) :
  forall params data log,
    exists more,
      snd (fetchAllPages (request server) n params data log) = log ++ more.
Proof.
  induction n as [|n IH]; intros params data log; cbn [fetchAllPages].
  - destruct (Page.has_more data); exists []; now rewrite app_nil_r.
  - destruct (Page.has_more data); [|exists []; now rewrite app_nil_r].
    unfold request at 1.
    destruct (server (Obj.set (lit "cursor") (Page.next_cursor data) params))
      as [[nextData|e]|]; cbv beta iota.
    + match goal with
      | |- exists _, snd (fetchAllPages _ _ ?p ?d ?l) = _ =>
          destruct (IH p d l) as [more Hm]; rewrite Hm, <- app_assoc
      end.
      eauto.
    + cbn [snd]. eauto.
    + cbn [snd]. eauto.
Qed.

Lemma query_first_request (paramKey paramValue : jsstring) :
  trim paramKey <> [] ->
  hd_error (snd (_getArchivedProjectItems (request server) fuel paramKey
                   paramValue []))
  = Some (Obj.set paramKey (Some paramValue) []).
Proof.
  intro Hkey. unfold _getArchivedProjectItems.
  destruct (trim paramKey) as [|c k]; [congruence|].
  unfold request at 1.
  destruct (server (Obj.set paramKey (Some paramValue) [])) as [[data|e]|];
    cbv beta iota; try reflexivity.
  match goal with
  | |- hd_error (snd (fetchAllPages _ _ ?p ?d ?l)) = _ =>
      destruct (fetchAllPages_log fuel p d l) as [more ->]
  end.
  reflexivity.
Qed.

(** X15.  Given a map keyed by the sentinel and section ids,
    [getProjectArchivedTasks] issues one query for the project, then one
    for each section of the map in the order of its keys, the sentinel left
    out, then one for each id of [parentIds] in order, and no other; each
    starts with a request that carries its parameter alone. *)
Theorem getProjectArchivedTasks_queries
    (order : list nat) (projectId : Z) (sections : SectionMap)
    (parentIds : option (list Z)) :
  let parents := match parentIds with Some l => l | None => [] end in
  SectionMap_wf sections ->
  map (@hd_error Params)
      (snd (getProjectArchivedTasks server fuel order projectId
                                    (Some sections) parentIds))
  = map (fun kv => Some [(fst kv, Some (snd kv))])
        ([(lit "project_id", Number_toString projectId)]
         ++ map (fun k => (lit "section_id", k)) (sectionKeys sections)
         ++ map (fun p => (lit "parent_id", Number_toString p)) parents).
Proof.
  intros parents Hwf. unfold getProjectArchivedTasks. cbn [snd].
  unfold archiveQueries. rewrite !map_app, !map_map. cbn [map app].
  f_equal.
  - unfold getArchivedProjectItemsUnderProject.
    now rewrite query_first_request by (vm_compute; discriminate).
  - f_equal.
    + rewrite (keys_rest_without _ _ null_not_index).
      fold (sectionKeys sections).
      apply map_ext_in. intros k Hk. cbn [fst snd].
      unfold getArchivedProjectItemsUnderSection.
      rewrite (section_key_roundtrip sections k Hwf Hk).
      now rewrite query_first_request by (vm_compute; discriminate).
    + unfold parents. destruct parentIds as [l|]; [|reflexivity].
      rewrite !map_map. apply map_ext. intro p. cbn [fst snd].
      unfold getArchivedProjectItemsUnderParentItem.
      now rewrite query_first_request by (vm_compute; discriminate).
Qed.

End Queries.

Lemma getProjectArchivedTasks_queries_witness :
  map (@hd_error Params)
      (snd (getProjectArchivedTasks Sample.answers 1 [0; 1; 2] 7
                                    (Some Sample.sections) (Some [1%Z])))
  = map (fun kv => Some [(fst kv, Some (snd kv))])
        ([(lit "project_id", Number_toString 7)]
         ++ map (fun k => (lit "section_id", k)) (sectionKeys Sample.sections)
         ++ map (fun p => (lit "parent_id", Number_toString p)) [1%Z]).
Proof.
  apply (getProjectArchivedTasks_queries
           Sample.answers 1 [0; 1; 2] 7 Sample.sections (Some [1%Z])).
  intros k Hk. simpl in Hk.
  destruct Hk as [<-|[<-|[]]]; [left; reflexivity|right].
  exists 5%Z. reflexivity.
Defined.

(** ** The tag of a content *)




(** ** The playlist tag *)

Lemma heads_wordb x : at_word_boundary x = true -> heads RWordB x x.
Proof. intro H. unfold heads. simpl. rewrite H. eauto. Qed.

Lemma RE_PLAYLIST_CONTENT_at pre post :
  mt RE_PLAYLIST_CONTENT (MState (rev pre ++ []) post []) <> [] <->
  exists tail, post = lit "playlist" ++ tail
               /\ is_word_at (rev pre) = false /\ is_word_at tail = false.
Proof.
  split.
  - intro H. destruct (mt _ _) as [|y l] eqn:E; [congruence|]. clear H.
    assert (Hin : In y (mt RE_PLAYLIST_CONTENT (MState (rev pre ++ []) post [])))
      by (rewrite E; now left).
    clear E. expand_re RE_PLAYLIST_CONTENT Hin. mt_inv Hin. lit_chars.
    subst. simpl in *. subst.
    unfold at_word_boundary in H, H0. cbn [before rest is_word_at] in H, H0.
    rewrite app_nil_r in H.
    change (is_word 112%N) with true in H.
    change (is_word 116%N) with true in H0.
    exists r6. repeat split.
    + now destruct (is_word_at (rev pre)).
    + now destruct (is_word_at r6).
  - intros (tail & -> & Hpre & Htail).
    cut (exists y, heads RE_PLAYLIST_CONTENT
                         (MState (rev pre ++ []) (lit "playlist" ++ tail) []) y).
    { intros (y & l & ->). discriminate. }
    eexists.
    let e := eval vm_compute in RE_PLAYLIST_CONTENT in
      change RE_PLAYLIST_CONTENT with e.
    apply heads_seq with (z := MState (rev pre ++ []) (lit "playlist" ++ tail) []).
    { apply heads_wordb. unfold at_word_boundary. cbn [before rest].
      rewrite app_nil_r, Hpre. reflexivity. }
    apply heads_seq
      with (z := MState (rev (lit "playlist") ++ rev pre ++ []) tail []).
    { exists []. reflexivity. }
    apply heads_wordb. unfold at_word_boundary. cbn [before rest].
    rewrite Htail. reflexivity.
Qed.

Lemma test_RE_PLAYLIST_CONTENT c :
  test RE_PLAYLIST_CONTENT c = true <-> mentions_playlist c.
Proof.
  unfold test, exec. split.
  - destruct (search RE_PLAYLIST_CONTENT [] c) as [m|] eqn:E; [|discriminate].
    intros _. apply search_found in E as (pre & post & -> & Hst & Hin).
    rewrite Hst in Hin.
    destruct (proj1 (RE_PLAYLIST_CONTENT_at pre post))
      as (tail & -> & Hpre & Htail).
    { intro E. rewrite E in Hin. destruct Hin. }
    now exists pre, tail.
  - intros (pre & post & -> & Hpre & Hpost).
    destruct (search RE_PLAYLIST_CONTENT [] (pre ++ lit "playlist" ++ post))
      eqn:E; [reflexivity|exfalso].
    pose proof (search_none _ _ _ E pre (lit "playlist" ++ post) eq_refl) as Hn.
    apply (proj2 (RE_PLAYLIST_CONTENT_at pre (lit "playlist" ++ post)));
      eauto.
Qed.

(** X17.  A content that does not open with a brace gets the tag "playlist"
    when it has the word "playlist", with no letter, digit or underscore
    next to it, and gets no tag otherwise. *)
Theorem formatContent_implicit_tag (c : jsstring) :
  hd_error c <> Some 123%N ->
  exists r,
    formatContent (Some c) = Return r
    /\ ((tag r = Some (lit "playlist") /\ mentions_playlist c)
        \/ (tag r = None /\ ~ mentions_playlist c)).
Proof.
  intro Hbrace. unfold formatContent.
  rewrite (RE_TAG_needs_brace c)
    by (destruct c as [|x c]; [exact I|simpl in *; congruence]).
  assert (Htag :
    let tag0 := if test RE_PLAYLIST_CONTENT c then Some (lit "playlist")
                else None in
    let tag1 := truthy match truthy tag0 with
                       | Some t => Some (toLowerCase t)
                       | None => tag0
                       end in
    (tag1 = Some (lit "playlist") /\ mentions_playlist c)
    \/ (tag1 = None /\ ~ mentions_playlist c)).
  { destruct (test RE_PLAYLIST_CONTENT c) eqn:E; [left|right];
      (split; [reflexivity|]).
    - now apply test_RE_PLAYLIST_CONTENT.
    - intro H. apply test_RE_PLAYLIST_CONTENT in H. congruence. }
  cbn [String_match bind].
  destruct (hypertext_cases c)
    as [(m1 & h1 & h2 & -> & -> & -> & _)
       |[(-> & m2 & h1 & h2 & -> & -> & -> & _)|(-> & ->)]];
    cbn [removeYouTubeKeyword bind];
    (eexists; split; [reflexivity|]); exact Htag.
Qed.

Lemma formatContent_implicit_tag_witness :
  exists r,
    formatContent (Some (lit "My playlist - YouTube")) = Return r
    /\ ((tag r = Some (lit "playlist")
         /\ mentions_playlist (lit "My playlist - YouTube"))
        \/ (tag r = None /\ ~ mentions_playlist (lit "My playlist - YouTube"))).
Proof.
  apply (formatContent_implicit_tag (lit "My playlist - YouTube")).
  vm_compute. discriminate.
Defined.

(** ** The second hypertext form *)

Lemma heads_seq_retry r1 r2 x z1 z2 l y :
  mt r1 x = z1 :: z2 :: l -> mt r2 z1 = [] -> heads r2 z2 y ->
  heads (RSeq r1 r2) x y.
Proof.
  intros H1 Hn [l2 H2]. unfold heads. simpl. rewrite H1. simpl.
  rewrite Hn, H2. simpl. eauto.
Qed.

(** A run of members followed by one more member and a character that is
    none: the whole run is tried first, then the run less its last
    character. *)
Lemma rep_last a bef l c rst :
  l <> [] -> forallb (atom_mem a) l = true -> atom_mem a c = true ->
  stops_at a rst ->
  exists tl,
    rep a 1 None bef (l ++ c :: rst)
    = (c :: rev l ++ bef, rst) :: (rev l ++ bef, c :: rst) :: tl.
Proof.
  intros Hl Hmem Hc Hstop.
  destruct (rep_app a 1 bef l (c :: rst) Hmem) as [tl ->].
  replace (1 - List.length l) with 0 by (destruct l; [congruence|simpl; lia]).
  cbn [rep]. rewrite Hc. cbn [andb max_allows pred max_pred option_map].
  rewrite (rep_stop _ _ _ Hstop). simpl. eauto.
Qed.

Lemma RE_HYPERTEXT_1_needs_space tok rst :
  forallb (atom_mem (ANoneOf [CLit 40%N; CSpace])) tok = true ->
  exec RE_HYPERTEXT_1 (tok ++ 40%N :: rst) = None.
Proof.
  intro Htok. apply search_none_intro. intros pre post Hs.
  apply no_match_nil. intros y Hin.
  expand_re RE_HYPERTEXT_1 Hin.
  apply mt_seq in Hin as (z & Hb & Hin). apply mt_bol in Hb as [Hb ->].
  apply mt_seq in Hin as (z1 & Hg & Hin).
  apply mt_group in Hg as (z2 & Hg & ->). mt_inv Hg.
  apply mt_seq in Hin as (z3 & Hsp & _). mt_inv Hsp.
  simpl in Hb. apply bol_at_start in Hb as ->. simpl in Hs, Hr. subst post.
  simpl in Hr0. destruct l0 as [|s l0]; [simpl in Hmin0; lia|].
  rewrite Hr0 in Hr. simpl in Ha0. apply andb_true_iff in Ha0 as [Hs _].
  apply first_outside with (P := atom_mem (ANoneOf [CLit 40%N; CSpace]))
    in Hr as (_ & <- & _); auto.
  - vm_compute in Hs. discriminate.
  - simpl. change (atom_mem (AIs CSpace) s) with (is_space s) in Hs.
    rewrite Hs. simpl. now rewrite orb_true_r.
Qed.

(** On [[label](inner)] the second pattern captures what the brackets
    enclose and what the parentheses enclose. *)
Lemma RE_HYPERTEXT_2_exec label inner :
  label <> [] ->
  forallb (atom_mem (ANoneOf [CLit 40%N; CSpace])) label = true ->
  inner <> [] -> forallb (atom_mem ADot) inner = true ->
  exists m,
    exec RE_HYPERTEXT_2 (91%N :: label ++ 93%N :: 40%N :: inner ++ [41%N])
    = Some m
    /\ group 1 m = Some label /\ group 2 m = Some inner.
Proof.
  intros Hlabel Hlabels Hinner Hdots.
  set (s := 91%N :: label ++ 93%N :: 40%N :: inner ++ [41%N]).
  set (x0 := MState [] s []).
  set (x1 := MState [91%N] (label ++ 93%N :: 40%N :: inner ++ [41%N]) []).
  set (w1 := MState (93%N :: rev label ++ before x1)
                    (40%N :: inner ++ [41%N]) []).
  set (x2 := MState (rev label ++ before x1)
                    (93%N :: 40%N :: inner ++ [41%N]) []).
  set (x2' := set_cap 1 (consumed x1 x2) x2).
  set (x3 := MState (93%N :: before x2') (40%N :: inner ++ [41%N]) (caps x2')).
  set (x4 := MState (40%N :: before x3) (inner ++ [41%N]) (caps x3)).
  set (y := MState (41%N :: rev inner ++ before x4) [] ((2, inner) :: caps x4)).
  assert (H : heads RE_HYPERTEXT_2 x0 y).
  { let e := eval vm_compute in RE_HYPERTEXT_2 in change RE_HYPERTEXT_2 with e.
    apply heads_seq with (z := x0); [now apply heads_bol|].
    apply heads_seq with (z := x1).
    { apply (heads_atom _ x0 91%N
               (label ++ 93%N :: 40%N :: inner ++ [41%N])); reflexivity. }
    destruct (rep_last (ANoneOf [CLit 40%N; CSpace]) (before x1) label 93%N
                (40%N :: inner ++ [41%N]) Hlabel Hlabels eq_refl eq_refl)
      as [tl Hrep].
    apply heads_seq_retry
      with (z1 := set_cap 1 (consumed x1 w1) w1) (z2 := x2')
           (l := map (fun z => set_cap 1 (consumed x1 z) z)
                     (map (fun br => MState (fst br) (snd br) (caps x1)) tl)).
    { cbn [mt].
      change (rest x1) with (label ++ 93%N :: 40%N :: inner ++ [41%N]).
      rewrite Hrep. reflexivity. }
    { reflexivity. }
    apply heads_seq with (z := x3).
    { apply (heads_atom _ x2' 93%N (40%N :: inner ++ [41%N])); reflexivity. }
    apply heads_seq with (z := y); [|now apply heads_notwordb].
    apply heads_noncap.
    apply heads_seq with (z := x3).
    { apply (heads_rep _ 0 x3 [] (40%N :: inner ++ [41%N])); auto.
      reflexivity. }
    apply heads_seq with (z := x4).
    { apply (heads_atom _ x3 40%N (inner ++ [41%N])); reflexivity. }
    apply heads_dot_paren; auto. }
  exists (Found x0 y). split; [now apply search_head|].
  split.
  - simpl. rewrite (consumed_rev x1 x2 label eq_refl). reflexivity.
  - reflexivity.
Qed.

(** X18.  A content [[label](url)], with no white space and no parenthesis
    in the label, the parenthesis right after the bracket, and the
    parenthesised part ending the content, is parsed with the second
    hypertext pattern: the link is what the parentheses enclose, and the
    text what the brackets enclose, less a trailing "- YouTube"
    decoration. *)
Theorem formatContent_hypertext_2 (label url : jsstring) :
  label <> [] ->
  forallb (fun c => negb (char_eqb 40%N c || is_space c)) label = true ->
  url <> [] ->
  forallb (fun c => negb (is_line_terminator c)) url = true ->
  exists r,
    formatContent (Some (lit "[" ++ label ++ lit "](" ++ url ++ lit ")"))
    = Return r
    /\ link r = Some url
    /\ text r = truthy (Some (replace RE_YT_PLAYLIST [] label)).
Proof.
  intros Hlabel Hlabels Hurl Hdots.
  assert (Hlabels' :
            forallb (atom_mem (ANoneOf [CLit 40%N; CSpace])) label = true).
  { rewrite <- Hlabels. clear. induction label as [|c l IH]; simpl;
      [reflexivity|]. now rewrite IH, orb_false_r. }
  destruct (RE_HYPERTEXT_2_exec label url Hlabel Hlabels' Hurl Hdots)
    as (m & Hm & Hg1 & Hg2).
  change (lit "[" ++ label ++ lit "](" ++ url ++ lit ")")
    with (91%N :: label ++ 93%N :: 40%N :: url ++ [41%N]) in *.
  assert (H1 : exec RE_HYPERTEXT_1
                 (91%N :: label ++ 93%N :: 40%N :: url ++ [41%N]) = None).
  { replace (91%N :: label ++ 93%N :: 40%N :: url ++ [41%N])
      with ((91%N :: label ++ [93%N]) ++ 40%N :: url ++ [41%N])
      by (simpl; now rewrite <- app_assoc).
    apply RE_HYPERTEXT_1_needs_space.
    simpl. rewrite forallb_app, Hlabels'. reflexivity. }
  unfold formatContent.
  rewrite RE_TAG_needs_brace by (simpl; discriminate).
  cbn [String_match bind]. rewrite H1, Hm, Hg1, Hg2.
  cbn [removeYouTubeKeyword bind].
  eexists. split; [reflexivity|]. simpl.
  split; [now destruct url|reflexivity].
Qed.

Lemma formatContent_hypertext_2_witness :
  exists r,
    formatContent (Some (lit "[" ++ lit "Doc" ++ lit "](" ++ lit "http://x"
                         ++ lit ")")) = Return r
    /\ link r = Some (lit "http://x")
    /\ text r = truthy (Some (replace RE_YT_PLAYLIST [] (lit "Doc"))).
Proof.
  apply (formatContent_hypertext_2 (lit "Doc") (lit "http://x"));
    try reflexivity; vm_compute; discriminate.
Defined.

(** ** The files of a gist update *)

Lemma in_ownKeys {V} (o : Obj.JSObject V) k :
  In k (map fst o) -> In k (Obj.ownKeys o).
Proof.
  intro H. unfold Obj.ownKeys. apply in_or_app.
  destruct (Obj.array_index k) as [n|] eqn:E.
  - left. apply in_map_iff. exists (n, k). split; [reflexivity|].
    apply sort_index_in. unfold Obj.index_keys. apply in_flat_map.
    exists k. split; [assumption|]. rewrite E. now left.
  - right. apply filter_In. split; [assumption|].
    unfold Obj.is_index. now rewrite E.
Qed.

Lemma has_in {V} (k : jsstring) (o : Obj.JSObject V) :
  Obj.has k o = true <-> In k (map fst o).
Proof.
  unfold Obj.has. split.
  - induction o as [|[k' v'] o IH]; simpl; [discriminate|].
    destruct (str_eqb k k') eqn:E.
    + apply str_eqb_eq in E. auto.
    + auto.
  - intro H. now destruct (get_in k o H) as [v ->].
Qed.

Lemma get_fromEntries_const {V} (v : V) (ks : list jsstring) (k : jsstring) :
  forall o,
    Obj.get k (fold_left (fun o e => Obj.set (fst e) (snd e) o)
                         (map (fun k' => (k', v)) ks) o)
    = if existsb (str_eqb k) ks then Some v else Obj.get k o.
Proof.
  induction ks as [|k' ks IH]; intro o; cbn [map fold_left existsb];
    [reflexivity|].
  rewrite IH. cbn [fst snd]. rewrite get_set.
  destruct (existsb (str_eqb k) ks); [now rewrite orb_true_r|].
  rewrite orb_false_r. reflexivity.
Qed.

Lemma existsb_keys {V} (o : Obj.JSObject V) k :
  existsb (str_eqb k) (Obj.keys o) = Obj.has k o.
Proof.
  destruct (Obj.has k o) eqn:E.
  - apply has_in, in_ownKeys in E. apply existsb_exists.
    exists k. split; [exact E|apply str_eqb_refl].
  - destruct (existsb (str_eqb k) (Obj.keys o)) eqn:E'; [|reflexivity].
    apply existsb_exists in E' as (k' & Hin & Hk).
    apply str_eqb_eq in Hk. subst k'. apply ownKeys_in, has_in in Hin.
    congruence.
Qed.

Section Overlay.

Import Gist.

Local Abbreviation put :=
  (fun (gistFiles : Obj.JSObject FileUpdate) (currGistFile : GistFile) =>
     assign (filename currGistFile) (Content (content currGistFile))
            gistFiles).

Lemma get_assign (k k' : jsstring) (v : FileUpdate)
    (o : Obj.JSObject FileUpdate) :
  Obj.get k (assign k' v o)
  = if str_eqb k k' && negb (str_eqb k (lit "__proto__")
                             && negb (Obj.has k o))
    then Some v else Obj.get k o.
Proof.
  unfold assign. destruct (str_eqb k k') eqn:E.
  - apply str_eqb_eq in E. subst k'.
    destruct (str_eqb k (lit "__proto__") && negb (Obj.has k o)); cbn [negb andb].
    + reflexivity.
    + now rewrite get_set, str_eqb_refl.
  - cbn [andb].
    destruct (str_eqb k' (lit "__proto__") && negb (Obj.has k' o));
      [reflexivity|].
    now rewrite get_set, E.
Qed.

Lemma has_assign (k k' : jsstring) (v : FileUpdate)
    (o : Obj.JSObject FileUpdate) :
  str_eqb k (lit "__proto__") = true ->
  Obj.has k (assign k' v o) = Obj.has k o.
Proof.
  intro Hk. unfold Obj.has at 1. rewrite get_assign, Hk. cbn [andb].
  unfold Obj.has. destruct (Obj.get k o); cbn [negb].
  - now destruct (str_eqb k k').
  - now rewrite andb_false_r.
Qed.

Lemma lastNamed_snoc k l f :
  lastNamed k (l ++ [f])
  = if str_eqb (filename f) k then Some f else lastNamed k l.
Proof. unfold lastNamed. now rewrite rev_app_distr. Qed.

Lemma has_fold_put k l :
  forall o, str_eqb k (lit "__proto__") = true ->
            Obj.has k (fold_left put l o) = Obj.has k o.
Proof.
  induction l as [|f l IH]; intros o Hk; cbn [fold_left]; [reflexivity|].
  rewrite IH by assumption. now apply has_assign.
Qed.

Lemma get_fold_put k l :
  forall o,
    Obj.get k (fold_left put l o)
    = match lastNamed k l with
      | Some f =>
          if str_eqb k (lit "__proto__") && negb (Obj.has k o)
          then Obj.get k o else Some (Content (content f))
      | None => Obj.get k o
      end.
Proof.
  induction l as [|f l IH] using rev_ind; intro o; [reflexivity|].
  rewrite fold_left_app, lastNamed_snoc. cbn [fold_left].
  rewrite get_assign, IH.
  destruct (str_eqb k (filename f)) eqn:E.
  - apply str_eqb_eq in E. subst k. rewrite str_eqb_refl. cbn [andb].
    destruct (str_eqb (filename f) (lit "__proto__")) eqn:Ep; cbn [andb negb];
      [|reflexivity].
    rewrite (has_fold_put _ l o Ep).
    destruct (Obj.has (filename f) o) eqn:Eh; cbn [negb]; [reflexivity|].
    destruct (lastNamed (filename f) l); reflexivity.
  - cbn [andb].
    destruct (str_eqb (filename f) k) eqn:E'; [|reflexivity].
    apply str_eqb_eq in E'. subst k. now rewrite str_eqb_refl in E.
Qed.

End Overlay.

(** X19.  When the gist is fetched, [updateGistById] sends one update, with
    the description and the id it was given, whose files have: for each
    name among the new files, the content of the last new file of that
    name; [null] for each other file name of the fetched gist; and no other
    name.  The one exception is a new file named "__proto__", which is
    left out unless the fetched gist has a file of that name. *)
Theorem updateGistById_request {W F : Type}
    (gists_get : jsstring -> W -> Promise (Obj.JSObject F) * W)
    (gists_update : Gist.UpdateRequest -> W -> Promise Z * W)
    (gistId newDescription : jsstring) (newFiles : list Gist.GistFile)
    (w w1 : W) (oldFiles : Obj.JSObject F) :
  gists_get gistId w = (Some (Fulfilled oldFiles), w1) ->
  exists req,
    Gist.updateGistById gists_get gists_update gistId newDescription newFiles w
    = gists_update req w1
    /\ Gist.description req = newDescription
    /\ Gist.gist_id req = gistId
    /\ forall k,
         Obj.get k (Gist.files req)
         = match Gist.lastNamed k newFiles with
           | Some f =>
               if str_eqb k (lit "__proto__") && negb (Obj.has k oldFiles)
               then None
               else Some (Gist.Content (Gist.content f))
           | None => if Obj.has k oldFiles then Some Gist.Null else None
           end.
Proof.
  intro Hget. unfold Gist.updateGistById. rewrite Hget.
  eexists. split; [reflexivity|]. cbn [Gist.description Gist.gist_id Gist.files].
  split; [reflexivity|]. split; [reflexivity|].
  intro k. unfold Gist.updatedFiles, Gist.fromEntries.
  rewrite get_fold_put.
  assert (Hget0 : Obj.get k
                    (fold_left (fun o e => Obj.set (fst e) (snd e) o)
                       (map (fun oldFilename => (oldFilename, Gist.Null))
                            (Obj.keys oldFiles)) [])
                  = if Obj.has k oldFiles then Some Gist.Null else None).
  { rewrite get_fromEntries_const, existsb_keys. reflexivity. }
  unfold Obj.has at 1. rewrite Hget0.
  destruct (Gist.lastNamed k newFiles) as [f|]; [|reflexivity].
  destruct (Obj.has k oldFiles); cbn [negb]; [|reflexivity].
  now rewrite andb_false_r.
Qed.

Lemma updateGistById_request_witness :
  exists req,
    Gist.updateGistById
      (fun _ (w : unit) =>
         (Some (Fulfilled [(lit "a.md", tt); (lit "b.md", tt)]), w))
      (fun _ (w : unit) => (Some (Fulfilled 200%Z), w))
      (lit "g1") (lit "notes") [Gist.mkFile (lit "b.md") (lit "new")] tt
    = (Some (Fulfilled 200%Z), tt)
    /\ Gist.description req = lit "notes"
    /\ Gist.gist_id req = lit "g1"
    /\ forall k,
         Obj.get k (Gist.files req)
         = match Gist.lastNamed k [Gist.mkFile (lit "b.md") (lit "new")] with
           | Some f =>
               if str_eqb k (lit "__proto__")
                  && negb (Obj.has k [(lit "a.md", tt); (lit "b.md", tt)])
               then None
               else Some (Gist.Content (Gist.content f))
           | None =>
               if Obj.has k [(lit "a.md", tt); (lit "b.md", tt)]
               then Some Gist.Null else None
           end.
Proof.
  exact (updateGistById_request
           (fun _ (w : unit) =>
              (Some (Fulfilled [(lit "a.md", tt); (lit "b.md", tt)]), w))
           (fun _ (w : unit) => (Some (Fulfilled 200%Z), w))
           (lit "g1") (lit "notes") [Gist.mkFile (lit "b.md") (lit "new")]
           tt tt [(lit "a.md", tt); (lit "b.md", tt)] eq_refl).
Defined.

(** ** The project data *)

Lemma filterItems_throws_TypeError sm items :
  forall st e, filterItems sm items st = Throw e -> e = TypeError.
Proof.
  induction items as [|item items IH]; intros st e; cbn [filterItems];
    [intros [=]|].
  destruct (filterItem sm st item) as [st1|e1] eqn:E1; cbn [bind].
  - apply IH.
  - intros [= <-]. apply filterItem_throws in E1 as [_ Hf].
    now apply formatItem_throws in Hf as [He _].
Qed.

(** X20.  The promise of [getWellFormattedProjectData] settles as the
    request for the project data does.  It never settles when the request
    never does, and is rejected with the reason of the request when the
    request is rejected.  When the request is fulfilled, either the filter
    returns and the promise is fulfilled with the name of the project, the
    checked tasks under [done], the others under [pending], and the
    category ids; or the filter throws and the promise is rejected with a
    TypeError. *)
Theorem getWellFormattedProjectData_settles
    (whenData : Promise (jsstring * list Item.t))
    (sectionsNameById : option SectionMap) :
  match whenData with
  | None => getWellFormattedProjectData whenData sectionsNameById = None
  | Some (Rejected e) =>
      getWellFormattedProjectData whenData sectionsNameById
      = Some (Rejected e)
  | Some (Fulfilled (projectName, items)) =>
      (exists tasks cats,
         formatProjectItems items sectionsNameById = Return (tasks, cats)
         /\ getWellFormattedProjectData whenData sectionsNameById
            = Some (Fulfilled
                      (mkResponse projectName
                         (mkProjectItems
                            (filter Task.checked tasks)
                            (filter (fun t => negb (Task.checked t)) tasks)),
                       cats)))
      \/ (formatProjectItems items sectionsNameById = Throw TypeError
          /\ getWellFormattedProjectData whenData sectionsNameById
             = Some (Rejected TypeError))
  end.
Proof.
  destruct whenData as [[[projectName items]|e]|]; try reflexivity.
  unfold getWellFormattedProjectData, then_, mapProjectDataToItems.
  cbn [fst snd].
  destruct (formatProjectItems items sectionsNameById) as [[tasks cats]|e]
    eqn:E; cbn [bind].
  - left. exists tasks, cats. split; [reflexivity|].
    now rewrite partition_by_checked.
  - assert (e = TypeError) as ->.
    { unfold formatProjectItems in E.
      destruct (filterItems _ items (mkFilter [] [] NIL)) as [st|e'] eqn:E';
        cbn [bind] in E; [discriminate|].
      injection E as <-. exact (filterItems_throws_TypeError _ _ _ _ E'). }
    right. auto.
Qed.

(** ** Pages without end *)

Section Endless.

Variable server : Params -> Promise Page.t.

Hypothesis always_more :
  forall params, exists page,
    server params = Some (Fulfilled page) /\ Page.has_more page = true.

Lemma fetchAllPages_endless (fuel : nat) :
  forall params data log,
    Page.has_more data = true ->
    exists more,
      fetchAllPages (request server) fuel params data log
      = (None, log ++ more)
      /\ List.length more = fuel.
Proof.
  induction fuel as [|fuel IH]; intros params data log Hdata.
  - exists []. cbn [fetchAllPages]. rewrite Hdata, app_nil_r. auto.
  - destruct (always_more (Obj.set (lit "cursor") (Page.next_cursor data)
                                   params)) as (page & Hpage & Hmore).
    rewrite (fetchAllPages_step (request server) fuel params data log page
               (log ++ [Obj.set (lit "cursor") (Page.next_cursor data)
                                params]) Hdata)
      by (unfold request; now rewrite Hpage).
    destruct (IH (Obj.set (lit "cursor") (Page.next_cursor data) params)
                 (Page.mk (Page.items data ++ Page.items page)
                          (Page.has_more page) (Page.next_cursor page))
                 (log ++ [Obj.set (lit "cursor") (Page.next_cursor data)
                                  params]) Hmore)
      as (more & -> & Hlen).
    exists (Obj.set (lit "cursor") (Page.next_cursor data) params :: more).
    rewrite <- app_assoc. simpl. auto.
Qed.

(** X21.  The loop over the pages has no bound of its own: against a
    server that answers every request with a page that announces more,
    [_getArchivedProjectItems] has not settled after any number of
    iterations, and has made one request for each iteration, after the
    first request. *)
Theorem getArchivedProjectItems_endless
    (paramKey paramValue : jsstring) (fuel : nat) :
  trim paramKey <> [] ->
  exists log,
    _getArchivedProjectItems (request server) fuel paramKey paramValue []
    = (None, log)
    /\ List.length log = S fuel.
Proof.
  intro Hkey. unfold _getArchivedProjectItems.
  destruct (trim paramKey) as [|c k]; [congruence|].
  destruct (always_more (Obj.set paramKey (Some paramValue) []))
    as (page & Hpage & Hmore).
  unfold request at 1. rewrite Hpage.
  match goal with
  | |- exists _, fetchAllPages _ _ ?p ?d ?l = _ /\ _ =>
      destruct (fetchAllPages_endless fuel p d l Hmore) as (more & -> & Hlen)
  end.
  eexists. split; [reflexivity|]. simpl. now rewrite Hlen.
Qed.

End Endless.

Lemma getArchivedProjectItems_endless_witness :
  exists log,
    _getArchivedProjectItems
      (request (fun _ => Some (Fulfilled (Page.mk [] true (Some (lit "c"))))))
      4 (lit "project_id") (lit "7") []
    = (None, log)
    /\ List.length log = 5.
Proof.
  apply (getArchivedProjectItems_endless
           (fun _ => Some (Fulfilled (Page.mk [] true (Some (lit "c")))))).
  - intro params. eexists. split; reflexivity.
  - vm_compute. discriminate.
Defined.

(** ** A query that never settles *)

Lemma all_react_rejected_from {A} (ps : list (Promise A)) (order : list nat) :
  forall (values : list (option A)) (remaining : nat) (e : JSError),
    all_react ps values remaining order = Some (Rejected e) ->
    exists i, nth_error ps i = Some (Some (Rejected e)).
Proof.
  induction order as [|i order IH]; intros values remaining e; cbn [all_react];
    [discriminate|].
  destruct (nth_error ps i) as [[[v|e']|]|] eqn:Ei; try (now apply IH).
  - destruct (nth_error values i) as [[w|]|]; try (now apply IH).
    destruct remaining as [|[|k]]; try (now apply IH). discriminate.
  - intros [= ->]. eauto.
Qed.

Section Pending.

Variable server : Params -> Promise Page.t.
Variable fuel : nat.
Variable projectId : Z.
Variable sections : SectionMap.
Variable parentIds : option (list Z).

Local Abbreviation ps :=
  (whenAllKindTasks server fuel projectId sections parentIds).

(** X22.  When one of the promises handed to [Promise.all] never settles
    and none is rejected, the promise [getProjectArchivedTasks] returns
    never settles, whatever the order in which the others do: the tasks of
    the queries that were fulfilled are not delivered. *)
Theorem getProjectArchivedTasks_pending (j : nat) (order : list nat) :
  nth_error ps j = Some None ->
  (forall i e, nth_error ps i <> Some (Some (Rejected e))) ->
  fst (getProjectArchivedTasks server fuel order projectId (Some sections)
                               parentIds)
  = Return None.
Proof.
  intros Hj Hnone. unfold getProjectArchivedTasks. cbn [fst].
  assert (Hps : ps <> []) by (intro E; rewrite E in Hj; destruct j; discriminate).
  assert (Hall : Promise_all ps order = None).
  { unfold Promise_all. destruct ps as [|p0 ps0] eqn:Eps; [congruence|].
    rewrite <- Eps in *.
    assert (Hslot : nth_error (repeat (@None (list Task.t)) (List.length ps)) j
                    = Some None).
    { apply nth_error_repeat_None. apply nth_error_Some. congruence. }
    rewrite <- (unfilled_repeat (A := list Task.t) (List.length ps)) at 2.
    destruct (all_react ps (repeat None (List.length ps))
                (unfilled (repeat (@None (list Task.t)) (List.length ps)))
                order) as [[vs|e]|] eqn:E; [| |reflexivity]; exfalso.
    - revert E. apply all_react_not_fulfilled with (j := j); [|exact Hslot].
      intros v Hv. congruence.
    - apply all_react_rejected_from in E as [i Hi]. exact (Hnone i e Hi). }
  now rewrite Hall.
Qed.

End Pending.

Lemma getProjectArchivedTasks_pending_witness :
  fst (getProjectArchivedTasks (fun _ => None) 1 [1; 0] 7
                               (Some Sample.sections) None)
  = Return None.
Proof.
  apply (getProjectArchivedTasks_pending (fun _ => None) 1 7 Sample.sections
                                         None 0 [1; 0]).
  - reflexivity.
  - intros [|[|[|i]]] e; vm_compute; discriminate.
Defined.
Example formatContent_music :
  formatContent (Some (lit "{Music} Song Title - YouTube"))
  = Return (mkContent (Some (lit "Song Title")) (Some (lit "music")) None).
Proof. vm_compute. reflexivity. Qed.

Example formatContent_doc :
  formatContent (Some (lit "Doc (http://x)"))
  = Return (mkContent (Some (lit "http://x")) None (Some (lit "Doc"))).
Proof. vm_compute. reflexivity. Qed.

Example formatContent_md :
  formatContent (Some (lit "[Doc](http://x)"))
  = Return (mkContent (Some (lit "Doc")) None (Some (lit "http://x"))).
Proof. vm_compute. reflexivity. Qed.

Example formatDate_ex :
  formatDate (Some (lit "2019-07-15T10:00:00Z")) = Return (lit "07 2019, 15").
Proof. vm_compute. reflexivity. Qed.
